(** * Unused-node analysis of the MEE node-editor add-on

    A shallow embedding of [utils.py] (reachability from the output
    nodes, the recursive expansion of group nodes, the usage
    aggregation and the grid layout) and of the delete operator of
    [operators.py], with the properties of the specification stated
    over it.

    Conventions of the embedding.
    - A host object (node, node tree) has an identity: [nid] for nodes,
      [tid] for trees.  Python compares and hashes these objects by
      identity, so sets of nodes are sets of [nid] and dictionaries
      keyed by nodes are keyed by [nid].
    - Links live in the tree ([NodeTree.links]); [socket.links] is the
      sub-list of the tree's links attached to that socket.
    - Coordinates and sizes are exact integers ([Z]); the rounding of
      the host's floating point numbers is not modelled.
    - A Python [set] has no specified iteration order; the embedding
      iterates it in the order of [node_tree.nodes].  A Python [dict]
      iterates in insertion order, which is modelled as such. *)

From Stdlib Require Import ZArith Lia.
From stdpp Require Import base option list sets gmap strings relations sorting.

#[local] Set Warnings "-clear-no-such-hyp".

Open Scope string_scope.
Open Scope list_scope.
Open Scope nat_scope.

(** ** Data model *)

Definition node_id := nat.
Definition tree_id := nat.

(** A link joins output socket [from_socket] of [from_node] to input
    socket [to_socket] of [to_node]. *)
Record Link := mkLink {
  from_node : node_id;
  from_socket : nat;
  to_node : node_id;
  to_socket : nat
}.

(** [inputs] and [outputs] are the numbers of input and output sockets;
    [dimensions_y] is [node.dimensions[1]]. *)
Inductive Node := mkNode {
  nid : node_id;
  name : string;
  type : string;
  bl_idname : string;
  label : string;
  node_tree : option NodeTree;
  location_x : Z;
  location_y : Z;
  width : Z;
  dimensions_y : Z;
  parent : option node_id;
  inputs : nat;
  outputs : nat
}
with NodeTree := mkNodeTree {
  tid : tree_id;
  tree_name : string;
  nodes : list Node;
  links : list Link
}.

Record Material := mkMaterial {
  mat_name : string;
  use_nodes : bool;
  mat_node_tree : option NodeTree
}.

(** The value stored for a node in the dictionaries of unused nodes.
    The key ["connected_to_output"] may be absent from a dictionary
    handed to [collect_group_usage], hence the option. *)
Record Info := mkInfo {
  info_type : string;
  materials : list string;
  connected_to_output : option (list string);
  parent_tree : string
}.

(** ** Dictionaries keyed by node identity, in insertion order *)

Definition Dict := list (Node * Info).

Definition dict_keys (d : Dict) : list Node := d.*1.

Definition dict_ids (d : Dict) : list node_id := nid <$> dict_keys d.

Fixpoint dict_get (d : Dict) (k : node_id) : option Info :=
  match d with
  | [] => None
  | (n, i) :: d' => if decide (nid n = k) then Some i else dict_get d' k
  end.

(** [d[node] = info]: an existing key keeps its place, a new key goes
    last. *)
Fixpoint dict_set (d : Dict) (node : Node) (info : Info) : Dict :=
  match d with
  | [] => [(node, info)]
  | (n, i) :: d' =>
      if decide (nid n = nid node) then (n, info) :: d'
      else (n, i) :: dict_set d' node info
  end.

(** [d.update(other)] *)
Definition dict_update (d other : Dict) : Dict :=
  foldl (λ acc kv, dict_set acc kv.1 kv.2) d other.

(** ** Graph accessor *)

Definition output_types : list string :=
  [ "OUTPUT_MATERIAL"; "OUTPUT_WORLD"; "OUTPUT_LIGHT";
    "CompositorNodeComposite"; "CompositorNodeOutputFile";
    "CompositorNodeViewer"; "NodeGroupOutput" ].

Definition is_output (n : Node) : bool :=
  bool_decide (type n ∈ output_types).

Definition get_output_nodes (node_tree : NodeTree) : list Node :=
  filter (λ n, is_output n = true) (nodes node_tree).

Definition get_node (t : NodeTree) (k : node_id) : option Node :=
  list_find (λ n, nid n = k) (nodes t) ≫= λ p, Some p.2.

(** Number of input (output) sockets of the node with identity [k]. *)
Definition n_inputs (t : NodeTree) (k : node_id) : nat :=
  from_option inputs 0 (get_node t k).

Definition n_outputs (t : NodeTree) (k : node_id) : nat :=
  from_option outputs 0 (get_node t k).

(** [node.inputs[i].links] and [node.outputs[i].links] *)
Definition input_links (t : NodeTree) (k : node_id) (i : nat) : list Link :=
  filter (λ l, to_node l = k ∧ to_socket l = i) (links t).

Definition output_links (t : NodeTree) (k : node_id) (i : nat) : list Link :=
  filter (λ l, from_node l = k ∧ from_socket l = i) (links t).

(** [output_socket.is_linked] *)
Definition is_linked (t : NodeTree) (k : node_id) (i : nat) : bool :=
  bool_decide (output_links t k i ≠ []).

(** ** Reachability engine *)

(** The nodes [visit] recurses into from node [k], in the order of the
    two loops: sources of the links of every input socket, then
    destinations of the links of every output socket. *)
Definition in_neighbours (t : NodeTree) (k : node_id) : list node_id :=
  i ← seq 0 (n_inputs t k); from_node <$> input_links t k i.

Definition out_neighbours (t : NodeTree) (k : node_id) : list node_id :=
  i ← seq 0 (n_outputs t k); to_node <$> output_links t k i.

Definition neighbours (t : NodeTree) (k : node_id) : list node_id :=
  in_neighbours t k ++ out_neighbours t k.

(** The state of the traversal: the set [used], and a ghost trace that
    records every execution of [used.add(node)], in order. *)
Record Visited := mkVisited {
  used : gset node_id;
  trace : list node_id
}.

Definition visit_all (f : node_id → Visited → option Visited)
    (ks : list node_id) (st : Visited) : option Visited :=
  foldl (λ acc k, acc ≫= f k) (Some st) ks.

(** The nested function [visit].  The recursion is bounded by [fuel];
    [None] means that the bound was reached. *)
Fixpoint visit (fuel : nat) (t : NodeTree) (k : node_id) (st : Visited)
    : option Visited :=
  match fuel with
  | O => None
  | S fuel' =>
      if decide (k ∈ used st) then Some st
      else
        let st1 := mkVisited ({[k]} ∪ used st) (trace st ++ [k]) in
        st2 ← visit_all (visit fuel' t) (in_neighbours t k) st1;
        visit_all (visit fuel' t) (out_neighbours t k) st2
  end.

Definition traverse_fuel (fuel : nat) (tree : NodeTree) : option Visited :=
  visit_all (visit fuel tree) (nid <$> get_output_nodes tree)
            (mkVisited ∅ []).

(** Every identity a tree mentions: its nodes and the ends of its links. *)
Definition universe (t : NodeTree) : list node_id :=
  (nid <$> nodes t) ++ (from_node <$> links t) ++ (to_node <$> links t).

Definition fuel_of (t : NodeTree) : nat := S (length (universe t)).

(** [traverse_from_outputs]: the bound [fuel_of] is never reached
    (lemma [traverse_fuel_enough] below). *)
Definition traverse_from_outputs (tree : NodeTree) : gset node_id :=
  from_option used ∅ (traverse_fuel (fuel_of tree) tree).

Definition all_nodes (node_tree : NodeTree) : gset node_id :=
  list_to_set (nid <$> nodes node_tree).

Definition unused_set (node_tree : NodeTree) : gset node_id :=
  all_nodes node_tree ∖ traverse_from_outputs node_tree.

(** ** Unused nodes of one tree *)

Definition is_attribute (n : Node) : bool :=
  bool_decide (type n = "ATTRIBUTE")
  || bool_decide (bl_idname n ∈
        ["ShaderNodeAttribute"; "GeometryNodeInputNamedAttribute"]).

(** Python truth value of a string. *)
Definition truthy (s : string) : bool := bool_decide (s ≠ "").

Definition fresh_info (n : Node) (tree_name : string) : Info :=
  mkInfo (type n) [] (Some []) tree_name.

(** [find_unused_nodes]; [None] is Python's [None]. *)
Definition find_unused_nodes (node_tree : option NodeTree)
    (parent_tree_name : string) (show_attributes : bool) : Dict :=
  match node_tree with
  | None => []
  | Some t =>
      match get_output_nodes t with
      | [] => []
      | _ :: _ =>
          let used_nodes := traverse_from_outputs t in
          let unused_ids := all_nodes t ∖ used_nodes in
          let unused_nodes := filter (λ n, nid n ∈ unused_ids) (nodes t) in
          let unused_nodes :=
            if show_attributes then unused_nodes
            else filter (λ n, is_attribute n = false) unused_nodes in
          let tree_name :=
            if truthy parent_tree_name then parent_tree_name
            else tree_name t in
          foldl (λ d n, dict_set d n (fresh_info n tree_name)) [] unused_nodes
      end
  end.

(** ** Recursive group expander *)

Definition is_group (n : Node) : bool := bool_decide (type n = "GROUP").

Definition nested_tree_name (parent_tree_name : string) (n : Node) : string :=
  if truthy parent_tree_name then parent_tree_name +:+ "." +:+ name n
  else name n.

(** [find_unused_nodes_recursive] on a tree.  The keys of [unused_dict]
    are nodes of [node_tree], in the order of [node_tree.nodes]; the
    loop below runs over [node_tree.nodes] and skips the nodes that are
    not keys, which makes the recursion structural (lemma
    [find_unused_nodes_recursive_keys] gives the loop over the keys). *)
Fixpoint find_unused_nodes_rec (t : NodeTree) (parent_tree_name : string)
    (show_attributes : bool) {struct t} : Dict :=
  let unused_dict := find_unused_nodes (Some t) parent_tree_name show_attributes in
  foldl (λ d n,
           if bool_decide (nid n ∈ dict_ids unused_dict) && is_group n then
             match node_tree n with
             | Some sub =>
                 dict_update d
                   (find_unused_nodes_rec sub
                      (nested_tree_name parent_tree_name n) show_attributes)
             | None => d
             end
           else d)
        unused_dict (nodes t).

Definition find_unused_nodes_recursive (node_tree : option NodeTree)
    (parent_tree_name : string) (show_attributes : bool) : Dict :=
  match node_tree with
  | None => []
  | Some t => find_unused_nodes_rec t parent_tree_name show_attributes
  end.

(** The dictionary merged for node [n] by the loop of
    [find_unused_nodes_recursive], and the test that selects [n]. *)
Definition nested_unused (parent_tree_name : string) (show_attributes : bool)
    (n : Node) : Dict :=
  match node_tree n with
  | Some sub =>
      find_unused_nodes_rec sub (nested_tree_name parent_tree_name n)
        show_attributes
  | None => []
  end.

Definition is_unused_group (unused_dict : Dict) (n : Node) : bool :=
  bool_decide (nid n ∈ dict_ids unused_dict) && is_group n.

(** The loop as the source writes it, over the keys of [unused_dict]. *)
Definition expand_keys (parent_tree_name : string) (show_attributes : bool)
    (unused_dict : Dict) : Dict :=
  foldl (λ d n,
           if is_group n then
             match node_tree n with
             | Some sub =>
                 dict_update d
                   (find_unused_nodes_rec sub
                      (nested_tree_name parent_tree_name n) show_attributes)
             | None => d
             end
           else d)
        unused_dict (dict_keys unused_dict).

(** Node [k] is found by the recursion into the group node [n]. *)
Definition found_through (parent_tree_name : string) (show_attributes : bool)
    (n : Node) (k : node_id) : Prop :=
  is_group n = true ∧
  k ∈ dict_ids (nested_unused parent_tree_name show_attributes n).

(** The name [find_unused_nodes] stamps on the records of tree [t]. *)
Definition stamp (parent_tree_name : string) (t : NodeTree) : string :=
  if truthy parent_tree_name then parent_tree_name else tree_name t.

(** The depth of the nesting of groups in a tree. *)
Fixpoint tree_depth (t : NodeTree) : nat :=
  S (foldr (λ n acc,
              max (match node_tree n with
                   | Some sub => tree_depth sub
                   | None => 0
                   end) acc)
           0 (nodes t)).

(** ** Connectivity, as the specification words it *)

(** Every link is attached to an existing socket of a node of the
    tree: the host keeps this invariant for its node trees. *)
Definition wf_tree (t : NodeTree) : Prop :=
  Forall (λ l, from_socket l < n_outputs t (from_node l)
               ∧ to_socket l < n_inputs t (to_node l)) (links t).

(** [a] and [b] are the two ends of a link, in either direction. *)
Definition linked (t : NodeTree) (a b : node_id) : Prop :=
  ∃ l, l ∈ links t ∧
       ((from_node l = a ∧ to_node l = b) ∨ (from_node l = b ∧ to_node l = a)).

Definition connected (t : NodeTree) : relation node_id := rtc (linked t).

(** One step of the traversal. *)
Definition follows (t : NodeTree) (a b : node_id) : Prop := b ∈ neighbours t a.

(** [grows t roots st st']: the state [st'] extends [st] and contains
    the [roots]; the trace gained exactly the new members of [used],
    once each; every new member has all its neighbours in [used st'],
    and is reached from a root by steps of the traversal. *)
Record grows (t : NodeTree) (roots : list node_id) (st st' : Visited) : Prop := {
  grows_sub : used st ⊆ used st';
  grows_roots : ∀ r, r ∈ roots → r ∈ used st';
  grows_trace : ∃ new, trace st' = trace st ++ new ∧ NoDup new ∧
                  ∀ x, x ∈ new ↔ x ∈ used st' ∧ x ∉ used st;
  grows_closed : ∀ x y, x ∈ used st' → x ∉ used st → follows t x y → y ∈ used st';
  grows_reach : ∀ x, x ∈ used st' → x ∉ used st →
                  ∃ r, r ∈ roots ∧ rtc (follows t) r x
}.

(** ** Usage aggregator *)

Definition is_group_connected_to_output (group_node : option Node)
    (node_tree : option NodeTree) : bool :=
  match group_node, node_tree with
  | Some g, Some t =>
      if decide (outputs g = 0) then false
      else existsb (is_linked t (nid g)) (seq 0 (outputs g))
  | _, _ => false
  end.

(** [a == b] on trees compares identities. *)
Definition same_tree (a b : option NodeTree) : bool :=
  match a, b with
  | Some x, Some y => bool_decide (tid x = tid y)
  | None, None => true
  | _, _ => false
  end.

(** The body of the innermost loop of [collect_group_usage], for one
    entry [(unused_node, info)] of the dictionary. *)
Definition usage_entry (material_name : string) (mtree : NodeTree) (node : Node)
    (unused_node : Node) (info : Info) : Info :=
  if is_group unused_node
     && same_tree (node_tree unused_node) (node_tree node)
     && bool_decide (material_name ∉ materials info)
  then
    let mats := materials info ++ [material_name] in
    let conn := default [] (connected_to_output info) in
    let conn :=
      if bool_decide (material_name ∉ conn) then
        if is_group_connected_to_output (Some node) (Some mtree)
        then conn ++ [material_name] else conn
      else conn in
    mkInfo (info_type info) mats (Some conn) (parent_tree info)
  else info.

Definition usage_node (material_name : string) (mtree : NodeTree)
    (unused_dict : Dict) (node : Node) : Dict :=
  if is_group node && bool_decide (is_Some (node_tree node)) then
    (λ kv, (kv.1, usage_entry material_name mtree node kv.1 kv.2)) <$> unused_dict
  else unused_dict.

Definition usage_material (unused_dict : Dict) (material : Material) : Dict :=
  if use_nodes material then
    match mat_node_tree material with
    | Some mtree =>
        foldl (usage_node (mat_name material) mtree) unused_dict (nodes mtree)
    | None => unused_dict
    end
  else unused_dict.

(** [collect_group_usage] mutates the dictionary's values in place; the
    embedding returns the dictionary after the call. *)
Definition collect_group_usage (unused_dict : Dict) (materials : list Material)
    : Dict :=
  foldl usage_material unused_dict materials.

(** A record of the dictionary is well formed when its output-connected
    list is a duplicate-free sub-list of its duplicate-free list of
    materials (section 3 of the specification). *)
Definition wf_info (i : Info) : Prop :=
  NoDup (materials i) ∧
  match connected_to_output i with
  | Some c => NoDup c ∧ c ⊆ materials i
  | None => True
  end.

#[local] Instance wf_info_dec i : Decision (wf_info i).
Proof. unfold wf_info. destruct (connected_to_output i); apply _. Defined.

(** ** Calls that may raise *)

Inductive outcome (A : Type) : Type :=
  | Returned (a : A)
  | Raised (exn : string).
Arguments Returned {A} a.
Arguments Raised {A} exn.

(** ** The delete operator *)

(** Host interface [tree.nodes.remove(node)]: removes the node and the
    links attached to it; raises [RuntimeError] when the node is not in
    the tree. *)
Definition nodes_remove (t : NodeTree) (n : Node) : outcome NodeTree :=
  if bool_decide (nid n ∈ nid <$> nodes t) then
    Returned
      (mkNodeTree (tid t) (tree_name t)
         (filter (λ m, nid m ≠ nid n) (nodes t))
         (filter (λ l, from_node l ≠ nid n ∧ to_node l ≠ nid n) (links t)))
  else Raised "RuntimeError".

Record SpaceData := mkSpaceData { sd_node_tree : option NodeTree }.
Record Context := mkContext { space_data : option SpaceData }.

Definition get_active_node_tree (context : Context) : option NodeTree :=
  match space_data context with
  | None => None
  | Some sd => sd_node_tree sd
  end.

Inductive Status := FINISHED | CANCELLED.

(** The messages of [self.report]. *)
Inductive Report :=
  | WARNING_no_active_tree
  | INFO_none_found
  | INFO_deleted (count : nat)
  | ERROR_exception (exn : string).

(** The loop [for node in unused_dict.keys(): tree.nodes.remove(node)]:
    the tree as the loop leaves it, and the exception that stopped it,
    if any. *)
Fixpoint remove_nodes (t : NodeTree) (ks : list Node) : NodeTree * option string :=
  match ks with
  | [] => (t, None)
  | k :: ks' =>
      match nodes_remove t k with
      | Returned t' => remove_nodes t' ks'
      | Raised e => (t, Some e)
      end
  end.

(** [NODE_OT_DeleteUnusedNodes.execute]: the status, the report and the
    active tree after the call. *)
Definition delete_unused_execute (context : Context)
    : Status * Report * option NodeTree :=
  match get_active_node_tree context with
  | None => (CANCELLED, WARNING_no_active_tree, None)
  | Some tree =>
      let unused_dict := find_unused_nodes_recursive (Some tree) "" true in
      match unused_dict with
      | [] => (FINISHED, INFO_none_found, Some tree)
      | _ :: _ =>
          match remove_nodes tree (dict_keys unused_dict) with
          | (tree', None) => (FINISHED, INFO_deleted (length unused_dict), Some tree')
          | (tree', Some e) => (CANCELLED, ERROR_exception e, Some tree')
          end
      end
  end.

(** ** Layout engine *)

(** The layout functions receive lists of node objects and mutate
    them.  [Store] gives the current state of every node object;
    a list of nodes is a list of identities. *)
Definition Store := node_id → Node.

Definition with_location (n : Node) (x y : Z) : Node :=
  mkNode (nid n) (name n) (type n) (bl_idname n) (label n) (node_tree n)
         x y (width n) (dimensions_y n) (parent n) (inputs n) (outputs n).

Definition update (s : Store) (k : node_id) (f : Node → Node) : Store :=
  λ j, if decide (j = k) then f (s j) else s j.

(** [n.location = (x, y)] *)
Definition set_location (s : Store) (k : node_id) (x y : Z) : Store :=
  update s k (λ n, with_location n x y).

(** [s.replace("Attr_", "")]: every occurrence of the pattern is
    dropped, scanning from the left; [skip] counts the characters of
    the occurrence being dropped. *)
Fixpoint drop_pattern (pat : string) (skip : nat) (s : string) : string :=
  match s with
  | EmptyString => EmptyString
  | String c s' =>
      match skip with
      | S k => drop_pattern pat k s'
      | O =>
          if String.prefix pat s
          then drop_pattern pat (String.length pat - 1) s'
          else String c (drop_pattern pat 0 s')
      end
  end.

Definition replace_Attr (s : string) : string := drop_pattern "Attr_" 0 s.

Definition is_tmp_attr (s : Store) (k : node_id) : bool :=
  bool_decide (label (s k) = "_tmp_attr").

(** The sort key [(-n.location.y, n.location.x)] and the order of
    Python tuples on it. *)
Definition sort_key (s : Store) (k : node_id) : Z * Z :=
  (- location_y (s k), location_x (s k))%Z.

Definition key_lt (a b : Z * Z) : bool :=
  (a.1 <? b.1)%Z || ((a.1 =? b.1)%Z && (a.2 <? b.2)%Z).

Definition key_le (a b : Z * Z) : bool := negb (key_lt b a).

(** [sorted(nodes, key=...)], a stable sort: a node is inserted before
    the first node of the sorted tail whose key is not smaller. *)
Fixpoint insert_by (s : Store) (k : node_id) (l : list node_id) : list node_id :=
  match l with
  | [] => [k]
  | j :: l' =>
      if key_lt (sort_key s j) (sort_key s k) then j :: insert_by s k l'
      else k :: j :: l'
  end.

Fixpoint sorted_by_key (s : Store) (l : list node_id) : list node_id :=
  match l with
  | [] => []
  | k :: l' => insert_by s k (sorted_by_key s l')
  end.

(** [min(...)] and [max(...)] of a sequence, with the value for the
    empty sequence. *)
Definition min_of (default : Z) (l : list Z) : Z :=
  match l with
  | [] => default
  | x :: l' => foldl Z.min x l'
  end.

Definition max_of (default : Z) (l : list Z) : Z :=
  match l with
  | [] => default
  | x :: l' => foldl Z.max x l'
  end.

(** [sum(l)] *)
Definition sum (l : list Z) : Z := foldl Z.add 0%Z l.

(** The state of the first loop over the sorted regular nodes. *)
Record Grid := mkGrid {
  col_w : list Z;
  row_h : list Z;
  grid : list (list node_id)
}.

(** One iteration of [for i, node in enumerate(regular_nodes)]. *)
Definition grid_step (s : Store) (cols : nat) (g : Grid) (i : nat) (node : node_id)
    : Grid :=
  let c := i mod cols in
  let r := i / cols in
  let g1 :=
    if decide (length (grid g) ≤ r)
    then mkGrid (col_w g) (row_h g ++ [0%Z]) (grid g ++ [[]])
    else g in
  mkGrid (alter (Z.max (width (s node))) c (col_w g1))
         (alter (Z.max (dimensions_y (s node))) r (row_h g1))
         (alter (λ row, row ++ [node]) r (grid g1)).

Fixpoint grid_loop (s : Store) (cols : nat) (g : Grid) (i : nat)
    (l : list node_id) : Grid :=
  match l with
  | [] => g
  | node :: l' => grid_loop s cols (grid_step s cols g i node) (S i) l'
  end.

(** The inner loop [for c, n in enumerate(row)] and the outer loop
    [for r, row in enumerate(grid)]. *)
Fixpoint place_row (origin_x gap_x y : Z) (colw : list Z) (s : Store)
    (c : nat) (row : list node_id) : Store :=
  match row with
  | [] => s
  | n :: row' =>
      let x := (origin_x + sum (take c colw) + Z.of_nat c * gap_x)%Z in
      place_row origin_x gap_x y colw (set_location s n x y) (S c) row'
  end.

Fixpoint place_rows (origin_x origin_y gap_x gap_y : Z) (g : Grid) (s : Store)
    (r : nat) (rows : list (list node_id)) : Store :=
  match rows with
  | [] => s
  | row :: rows' =>
      let y := (origin_y - sum (take r (row_h g)) - Z.of_nat r * gap_y)%Z in
      place_rows origin_x origin_y gap_x gap_y g
        (place_row origin_x gap_x y (col_w g) s 0 row) (S r) rows'
  end.

(** The dictionary [attr_to_parent], in insertion order. *)
Fixpoint assoc_set (d : list (node_id * node_id)) (k v : node_id)
    : list (node_id * node_id) :=
  match d with
  | [] => [(k, v)]
  | (k', v') :: d' =>
      if decide (k' = k) then (k', v) :: d' else (k', v') :: assoc_set d' k v
  end.

Definition attr_parents (s : Store) (attr_nodes regular_nodes : list node_id)
    : list (node_id * node_id) :=
  foldl (λ d attr,
           let parent_name := replace_Attr (name (s attr)) in
           match list_find (λ p, name (s p) = parent_name) regular_nodes with
           | Some (_, p) => assoc_set d attr p
           | None => d
           end)
        [] attr_nodes.

(** [attr.location.x = parent.location.x - 150.0] followed by
    [attr.location.y = parent.location.y]. *)
Definition place_attr (s : Store) (ap : node_id * node_id) : Store :=
  let s1 := update s ap.1
              (λ n, with_location n (location_x (s ap.2) - 150) (location_y n)) in
  update s1 ap.1 (λ n, with_location n (location_x n) (location_y (s1 ap.2))).

(** [layout_nodes_grid]; [i % cols] raises when [cols] is zero. *)
Definition layout_nodes_grid (s : Store) (nodes : list node_id)
    (cols : nat) (gap_x gap_y : Z) : outcome Store :=
  match nodes with
  | [] => Returned s
  | _ :: _ =>
      let attr_nodes := filter (λ n, is_tmp_attr s n = true) nodes in
      let regular_nodes := filter (λ n, is_tmp_attr s n = false) nodes in
      let attr_to_parent := attr_parents s attr_nodes regular_nodes in
      match regular_nodes with
      | [] => Returned s
      | _ :: _ =>
          if decide (cols = 0) then Raised "ZeroDivisionError"
          else
            let regular_nodes := sorted_by_key s regular_nodes in
            let g := grid_loop s cols (mkGrid (replicate cols 0%Z) [] []) 0
                       regular_nodes in
            let origin_x := min_of 0 ((λ n, location_x (s n)) <$> regular_nodes) in
            let origin_y := max_of 0 ((λ n, location_y (s n)) <$> regular_nodes) in
            let s1 := place_rows origin_x origin_y gap_x gap_y g s 0 (grid g) in
            Returned (foldl place_attr s1 attr_to_parent)
      end
  end.

(** A node tree of the layout functions: the node objects and the
    identities of the tree's nodes. *)
Record Scene := mkScene {
  objects : Store;
  scene_nodes : list node_id
}.

(** Host interface [tree.nodes.new("NodeFrame")]: a node object
    distinct from every node in sight. *)
Definition fresh_id (ids : list node_id) : node_id := S (foldr max 0 ids).

(** Host: [node.location] is relative to the frame that is the parent
    of the node.  The position of node [k] in the view is its location
    plus the position of its parent in the view; [fuel] bounds the
    nesting of the frames. *)
Fixpoint node_to_view (fuel : nat) (s : Store) (k : node_id) : Z * Z :=
  match fuel, parent (s k) with
  | S fuel', Some p =>
      let v := node_to_view fuel' s p in
      ((location_x (s k) + v.1)%Z, (location_y (s k) + v.2)%Z)
  | _, _ => (location_x (s k), location_y (s k))
  end.

(** Host: [node.parent = frame], for a frame that is not inside the
    node.  The node is detached from its parent and attached to the
    frame: its position in the view stays, and its location becomes
    that position relative to the frame. *)
Definition set_parent (fuel : nat) (s : Store) (k frame : node_id) : Store :=
  let v := node_to_view fuel s k in
  let f := node_to_view fuel s frame in
  update s k
    (λ o, mkNode (nid o) (name o) (type o) (bl_idname o) (label o) (node_tree o)
                 (v.1 - f.1) (v.2 - f.2) (width o) (dimensions_y o) (Some frame)
                 (inputs o) (outputs o)).

(** Host: [frame.width = w]; the width of a frame stays at or above
    its lower limit, 100. *)
Definition frame_width (w : Z) : Z := Z.max 100 w.

(** The translation of [place_group_left_of_used]: the shift [dx], and
    the loop [for n in group_nodes: n.location.x += dx]. *)
Definition group_dx (s1 : Store) (group_nodes used_nodes : list node_id)
    (margin : Z) : Z :=
  let used_min_x := min_of 0 ((λ n, location_x (s1 n)) <$> used_nodes) in
  let max_group_x := max_of 0 ((λ n, location_x (s1 n)) <$> group_nodes) in
  (used_min_x - margin - max_group_x)%Z.

Definition translate_group (s1 : Store) (group_nodes used_nodes : list node_id)
    (margin : Z) : Store :=
  let dx := group_dx s1 group_nodes used_nodes margin in
  foldl (λ s n, update s n
                  (λ o, with_location o (location_x o + dx) (location_y o)))
        s1 group_nodes.

(** [place_group_left_of_used]: the scene after the call and the
    returned frame, if any.  The frame is a new node without parent;
    the parent chain of a node is no longer than the list of the nodes
    of the tree.  The new node carries the name [Frame], the one the
    host gives it when no node of the tree has that name (a numeric
    suffix is added otherwise). *)
Definition place_group_left_of_used (tree : Scene)
    (group_nodes used_nodes : list node_id) (margin : Z)
    : outcome (Scene * option node_id) :=
  match group_nodes with
  | [] => Returned (tree, None)
  | _ :: _ =>
      match layout_nodes_grid (objects tree) group_nodes 6 120 80 with
      | Raised e => Raised e
      | Returned s1 =>
          let s2 := translate_group s1 group_nodes used_nodes margin in
          let xs := (λ n, location_x (s2 n)) <$> group_nodes in
          let ys := (λ n, location_y (s2 n)) <$> group_nodes in
          let frame := fresh_id (scene_nodes tree ++ group_nodes ++ used_nodes) in
          let s3 := update s2 frame
                      (λ _, mkNode frame "Frame" "FRAME" "NodeFrame"
                              "The Material Editor Exterminatus" None
                              (min_of 0 xs - 40) (max_of 0 ys + 40)
                              (frame_width 0) 100 None 0 0) in
          let fuel := S (length (scene_nodes tree)) in
          let s4 := foldl (λ s n, set_parent fuel s n frame) s3 group_nodes in
          Returned (mkScene s4 (scene_nodes tree ++ [frame]), Some frame)
      end
  end.

(** A call of an analysis function.  The two functions guard a null
    tree with [return {}] and contain no [raise]: every call returns. *)
Definition find_unused_nodes_call (node_tree : option NodeTree)
    (parent_tree_name : string) (show_attributes : bool) : outcome Dict :=
  Returned (find_unused_nodes node_tree parent_tree_name show_attributes).

Definition find_unused_nodes_recursive_call (node_tree : option NodeTree)
    (parent_tree_name : string) (show_attributes : bool) : outcome Dict :=
  Returned (find_unused_nodes_recursive node_tree parent_tree_name show_attributes).

(** ** Example graphs *)

(** A node with default geometry. *)
Definition nd (k : node_id) (nm ty : string) (sub : option NodeTree)
    (ins outs : nat) : Node :=
  mkNode k nm ty "" "" sub 0 0 100 100 None ins outs.

(** Output [O] fed by [A]; [B] has no link. *)
Definition g_simple : NodeTree :=
  mkNodeTree 1 "Material"
    [ nd 1 "O" "OUTPUT_MATERIAL" None 1 0;
      nd 2 "A" "BSDF_PRINCIPLED" None 1 1;
      nd 3 "B" "TEX_IMAGE" None 1 1 ]
    [ mkLink 2 0 1 0 ].

(** Three linked nodes, none of them an output. *)
Definition g_no_output : NodeTree :=
  mkNodeTree 2 "NoOutput"
    [ nd 1 "A" "TEX_IMAGE" None 1 1;
      nd 2 "B" "MIX" None 1 1;
      nd 3 "C" "BSDF_PRINCIPLED" None 1 1 ]
    [ mkLink 1 0 2 0; mkLink 2 0 3 0 ].

(** Output [O] fed by [A]: every node is used. *)
Definition g_all_used : NodeTree :=
  mkNodeTree 3 "AllUsed"
    [ nd 1 "O" "OUTPUT_MATERIAL" None 1 0;
      nd 2 "A" "BSDF_PRINCIPLED" None 1 1 ]
    [ mkLink 2 0 1 0 ].

(** A payload with one unused node [m], and a tree with two unused
    group nodes that both reference it. *)
Definition g_payload : NodeTree :=
  mkNodeTree 10 "Payload"
    [ nd 10 "Material Output" "OUTPUT_MATERIAL" None 1 0;
      nd 11 "m" "MATH" None 2 1 ]
    [].

Definition g_two_groups : NodeTree :=
  mkNodeTree 11 "Mat"
    [ nd 1 "O" "OUTPUT_MATERIAL" None 1 0;
      nd 2 "Group" "GROUP" (Some g_payload) 0 1;
      nd 3 "Group.001" "GROUP" (Some g_payload) 0 1 ]
    [].

(** The same tree with one group node only. *)
Definition g_one_group : NodeTree :=
  mkNodeTree 12 "Mat"
    [ nd 1 "O" "OUTPUT_MATERIAL" None 1 0;
      nd 2 "Group" "GROUP" (Some g_payload) 0 1 ]
    [].

(** What [collect_group_usage] must leave alone in an entry: the key,
    the kind and the containment path. *)
Definition entry_frame (kv : Node * Info) : Node * string * string :=
  (kv.1, info_type kv.2, parent_tree kv.2).

(** Material [B]: two instances of [g_payload]; the first has no link,
    the output of the second feeds the material output. *)
Definition g_two_instances : NodeTree :=
  mkNodeTree 20 "B"
    [ nd 1 "O" "OUTPUT_MATERIAL" None 1 0;
      nd 2 "Group" "GROUP" (Some g_payload) 0 1;
      nd 3 "Group.001" "GROUP" (Some g_payload) 0 1 ]
    [ mkLink 3 0 1 0 ].

Definition mat_B2 : Material := mkMaterial "B" true (Some g_two_instances).

(** Materials [A] and [B], one instance of [g_payload] each: without
    link in [A], linked to the output in [B]; material [C] holds an
    unused instance. *)
Definition mat_A : Material :=
  mkMaterial "A" true
    (Some (mkNodeTree 21 "A"
             [ nd 1 "O" "OUTPUT_MATERIAL" None 1 0;
               nd 2 "Group" "GROUP" (Some g_payload) 0 1 ]
             [])).

Definition mat_B : Material :=
  mkMaterial "B" true
    (Some (mkNodeTree 22 "B"
             [ nd 4 "O" "OUTPUT_MATERIAL" None 1 0;
               nd 5 "Group" "GROUP" (Some g_payload) 0 1 ]
             [ mkLink 5 0 4 0 ])).

(** An active tree for the delete operator. *)
Definition ctx_one_group : Context :=
  mkContext (Some (mkSpaceData (Some g_one_group))).

(** ** The grid, as the specification words it *)

(** The members of [l] whose position satisfies [P], in order. *)
Definition select (P : nat → Prop) `{∀ i, Decision (P i)} (l : list node_id)
    : list node_id :=
  omap (λ i, l !! i) (filter P (seq 0 (length l))).

(** Row-major assignment of [l] to [cols] columns: position [i] goes to
    row [i / cols], column [i mod cols]. *)
Definition column_nodes (cols c : nat) (l : list node_id) : list node_id :=
  select (λ i, i mod cols = c) l.

Definition row_nodes (cols r : nat) (l : list node_id) : list node_id :=
  select (λ i, i / cols = r) l.

(** The largest member of a list of sizes, not below 0 (the initial
    value of the widths and heights in the code). *)
Definition max_list (l : list Z) : Z := foldr Z.max 0%Z l.

Definition column_width (s : Store) (cols : nat) (l : list node_id) (c : nat) : Z :=
  max_list ((λ n, width (s n)) <$> column_nodes cols c l).

Definition row_height (s : Store) (cols : nat) (l : list node_id) (r : nat) : Z :=
  max_list ((λ n, dimensions_y (s n)) <$> row_nodes cols r l).

(** The position of row [r], column [c]. *)
Definition grid_x (s : Store) (cols : nat) (gap_x : Z) (l : list node_id)
    (origin_x : Z) (c : nat) : Z :=
  (origin_x + sum (column_width s cols l <$> seq 0 c) + Z.of_nat c * gap_x)%Z.

Definition grid_y (s : Store) (cols : nat) (gap_y : Z) (l : list node_id)
    (origin_y : Z) (r : nat) : Z :=
  (origin_y - sum (row_height s cols l <$> seq 0 r) - Z.of_nat r * gap_y)%Z.

(** The nodes of the list that are laid out in the grid. *)
Definition regular_nodes (s : Store) (nodes : list node_id) : list node_id :=
  filter (λ n, is_tmp_attr s n = false) nodes.

(** The order of the sort keys. *)
Definition key_ordered (s : Store) (a b : node_id) : Prop :=
  key_le (sort_key s a) (sort_key s b) = true.

(** The number of rows that hold [k] nodes. *)
Definition nrows (cols k : nat) : nat :=
  if decide (k mod cols = 0) then k / cols else S (k / cols).

(** The state of the first loop of [layout_nodes_grid] after the nodes
    [done] have been handled. *)
Record grid_inv (s : Store) (cols : nat) (done : list node_id) (g : Grid)
    : Prop := {
  gi_cols : length (col_w g) = cols;
  gi_col : ∀ c, c < cols → col_w g !! c = Some (column_width s cols done c);
  gi_rows : length (grid g) = nrows cols (length done);
  gi_rows_h : length (row_h g) = nrows cols (length done);
  gi_row : ∀ r, r < nrows cols (length done) →
             grid g !! r = Some (row_nodes cols r done);
  gi_row_h : ∀ r, r < nrows cols (length done) →
               row_h g !! r = Some (row_height s cols done r)
}.

(** ** Example layouts *)

(** The store that holds the given nodes. *)
Definition store_of (l : list Node) : Store :=
  λ k, default (nd k "" "" None 0 0)
               (snd <$> list_find (λ n, nid n = k) l).

(** A node of the layout examples. *)
Definition ln (k : node_id) (nm lbl : string) (x y w h : Z) : Node :=
  mkNode k nm "MATH" "ShaderNodeMath" lbl None x y w h None 1 1.

(** Three regular nodes and the attribute node generated for the
    second one. *)
Definition s_layout : Store :=
  store_of [ ln 1 "n1" "" 0 0 100 60;
             ln 2 "n2" "" 300 50 140 80;
             ln 3 "n3" "" 100 (-200) 120 90;
             ln 4 "Attr_n2" "_tmp_attr" (-500) 400 90 50 ].

(** The positions of the nodes [l] in store [s]. *)
Definition locations (s : Store) (l : list node_id) : list (node_id * Z * Z) :=
  (λ k, (k, location_x (s k), location_y (s k))) <$> l.

(** ** Views used by the further properties *)

(** The group-instance nodes that [collect_group_usage] visits, in the
    order of its two outer loops, each with the name and the tree of
    its material. *)
Definition instances_of (material : Material) : list (string * NodeTree * Node) :=
  if use_nodes material then
    match mat_node_tree material with
    | Some mtree =>
        (λ node, (mat_name material, mtree, node)) <$>
          filter (λ node, is_group node && bool_decide (is_Some (node_tree node)) = true)
                 (nodes mtree)
    | None => []
    end
  else [].

Definition instances (mats : list Material) : list (string * NodeTree * Node) :=
  mats ≫= instances_of.

(** What the visits do to the record [info] of the unused node [u]. *)
Definition usage_of_entry (insts : list (string * NodeTree * Node))
    (u : Node) (info : Info) : Info :=
  foldl (λ i v, usage_entry v.1.1 v.1.2 v.2 u i) info insts.

(** Instance [v] has the payload of the unused group node [u]. *)
Definition matches (u : Node) (v : string * NodeTree * Node) : bool :=
  is_group u && same_tree (node_tree u) (node_tree v.2).

(** Node [k] is found by the recursive analysis of tree [t]: it is
    unused in [t], or it is found in the payload of an unused group
    node of [t]. *)
Inductive reported (sa : bool) : NodeTree → node_id → Prop :=
  | reported_here t k :
      k ∈ dict_ids (find_unused_nodes (Some t) "" sa) → reported sa t k
  | reported_nested t g sub k :
      g ∈ nodes t →
      nid g ∈ dict_ids (find_unused_nodes (Some t) "" sa) →
      is_group g = true →
      node_tree g = Some sub →
      reported sa sub k →
      reported sa t k.

(** The records [find_unused_nodes] creates. *)
Definition is_fresh (i : Info) : Prop :=
  materials i = [] ∧ connected_to_output i = Some [].

(** ** Cleaning up the nodes of an earlier run *)

(** The test of [remove_tmp_attribute_nodes]: an attribute node that
    carries the label of the generated nodes. *)
Definition is_tmp_attribute (n : Node) : bool :=
  is_attribute n && bool_decide (label n = "_tmp_attr").

(** [remove_tmp_attribute_nodes]: the tree as the call leaves it, and
    the exception that ended it, if any. *)
Definition remove_tmp_attribute_nodes (node_tree : NodeTree)
    : NodeTree * option string :=
  let nodes_to_remove := filter (λ n, is_tmp_attribute n = true) (nodes node_tree) in
  remove_nodes node_tree nodes_to_remove.

(** Output [O] fed by [A]; the unused node [B] with the attribute node
    an earlier run attached to its input. *)
Definition g_tmp : NodeTree :=
  mkNodeTree 30 "Material"
    [ nd 1 "O" "OUTPUT_MATERIAL" None 1 0;
      nd 2 "A" "BSDF_PRINCIPLED" None 1 1;
      nd 3 "B" "TEX_IMAGE" None 1 1;
      mkNode 4 "Attr_B" "ATTRIBUTE" "ShaderNodeAttribute" "_tmp_attr" None
             0 0 140 100 None 0 4 ]
    [ mkLink 2 0 1 0; mkLink 4 0 3 0 ].

(** ** The tree after a deletion *)

(** The tree [t] without the nodes of identities [ks] and without the
    links attached to them: what a run of [tree.nodes.remove] over
    nodes of the tree leaves. *)
Definition without (t : NodeTree) (ks : list node_id) : NodeTree :=
  mkNodeTree (tid t) (tree_name t)
    (filter (λ n, nid n ∉ ks) (nodes t))
    (filter (λ l, (from_node l ∉ ks) ∧ (to_node l ∉ ks)) (links t)).

(** ** The delete operator for all materials *)

(** The messages of [NODE_OT_DeleteAllUnusedNodes]. *)
Inductive ReportAll :=
  | ALL_none_found
  | ALL_deleted (total_deleted materials_processed : nat)
  | ALL_exception (exn : string).

(** The material [m] with its tree after a mutation. *)
Definition with_tree (m : Material) (tree : NodeTree) : Material :=
  mkMaterial (mat_name m) (use_nodes m) (Some tree).

(** The loop [for material in bpy.data.materials] of
    [NODE_OT_DeleteAllUnusedNodes.execute]: the materials as the loop
    leaves them, the two counters, and the exception that stopped it,
    if any. *)
Fixpoint delete_all_loop (materials : list Material)
    (total_deleted materials_processed : nat)
    : list Material * (nat * nat) * option string :=
  match materials with
  | [] => ([], (total_deleted, materials_processed), None)
  | material :: rest =>
      match (if use_nodes material then mat_node_tree material else None) with
      | Some tree =>
          let unused_dict := find_unused_nodes_recursive (Some tree) "" true in
          match unused_dict with
          | [] =>
              let '(ms, c, e) :=
                delete_all_loop rest total_deleted (S materials_processed) in
              (material :: ms, c, e)
          | _ :: _ =>
              match remove_nodes tree (dict_keys unused_dict) with
              | (tree', None) =>
                  let '(ms, c, e) :=
                    delete_all_loop rest (total_deleted + length unused_dict)
                                    (S materials_processed) in
                  (with_tree material tree' :: ms, c, e)
              | (tree', Some e) =>
                  (with_tree material tree' :: rest,
                   (total_deleted, materials_processed), Some e)
              end
          end
      | None =>
          let '(ms, c, e) :=
            delete_all_loop rest total_deleted materials_processed in
          (material :: ms, c, e)
      end
  end.

(** [NODE_OT_DeleteAllUnusedNodes.execute]: the status, the report and
    the materials after the call. *)
Definition delete_all_unused_execute (materials : list Material)
    : Status * ReportAll * list Material :=
  match delete_all_loop materials 0 0 with
  | (ms, (total_deleted, materials_processed), None) =>
      if decide (total_deleted = 0) then (FINISHED, ALL_none_found, ms)
      else (FINISHED, ALL_deleted total_deleted materials_processed, ms)
  | (ms, _, Some e) => (CANCELLED, ALL_exception e, ms)
  end.

(** The findings of the operator in a material, and the materials in
    which they are unused nodes of the material's own tree. *)
Definition findings (material : Material) : Dict :=
  match (if use_nodes material then mat_node_tree material else None) with
  | Some tree => find_unused_nodes_recursive (Some tree) "" true
  | None => []
  end.

Definition own_findings (material : Material) : Prop :=
  match (if use_nodes material then mat_node_tree material else None) with
  | Some tree =>
      NoDup (nid <$> nodes tree) ∧
      ∀ k, k ∈ dict_ids (find_unused_nodes_recursive (Some tree) "" true) →
           k ∈ unused_set tree
  | None => True
  end.

(** The material after the deletion of its findings. *)
Definition cleaned (material : Material) : Material :=
  match (if use_nodes material then mat_node_tree material else None) with
  | Some tree =>
      match find_unused_nodes_recursive (Some tree) "" true with
      | [] => material
      | d => with_tree material (without tree (dict_ids d))
      end
  | None => material
  end.

(** ** Views of the layout *)

(** Store [s'] differs from [s] in the positions of nodes only. *)
Definition moved (s s' : Store) : Prop :=
  ∀ n, s' n = with_location (s n) (location_x (s' n)) (location_y (s' n)).

(** The node the loop over [attr_nodes] pairs the attribute node [a]
    with: the first regular node of the list whose name is the name of
    [a] without its prefixes. *)
Definition parent_of (s : Store) (nodes : list node_id) (a : node_id)
    : option node_id :=
  snd <$> list_find (λ p, name (s p) = replace_Attr (name (s a)))
                    (regular_nodes s nodes).

(** ** The records of the report *)

(** The materials [build_report] analyses: those that use nodes and
    have a tree. *)
Definition report_materials (data_materials : list Material) : list Material :=
  filter (λ mat, use_nodes mat = true ∧ is_Some (mat_node_tree mat))
         data_materials.

(** The dictionary [all_unused_dict] after the loop over the
    materials. *)
Definition all_unused (materials : list Material) (show_attributes : bool)
    : Dict :=
  foldl (λ d material,
           match mat_node_tree material with
           | Some t =>
               dict_update d
                 (find_unused_nodes_recursive (Some t) (mat_name material)
                    show_attributes)
           | None => d
           end)
        [] materials.

(** The dictionary [build_report] prints: [all_unused_dict] after
    [collect_group_usage]. *)
Definition report_records (data_materials : list Material)
    (show_attributes : bool) : Dict :=
  let materials := report_materials data_materials in
  collect_group_usage (all_unused materials show_attributes) materials.

(** ** The names of the attribute nodes in the layout *)

(** [pat in s]: the pattern occurs in the string. *)
Fixpoint occurs (pat s : string) : bool :=
  String.prefix pat s ||
  match s with
  | EmptyString => false
  | String _ s' => occurs pat s'
  end.

(** ** The frame of the unused nodes *)

(** [frame.name = nm] followed by [frame.label = lbl]. *)
Definition with_name_label (n : Node) (nm lbl : string) : Node :=
  mkNode (nid n) nm (type n) (bl_idname n) lbl (node_tree n)
         (location_x n) (location_y n) (width n) (dimensions_y n) (parent n)
         (inputs n) (outputs n).

(** The list [all_nodes] of [_create_unused_frame]: every target node,
    preceded by its attribute node when it has one. *)
Definition pair_nodes (pairs : list (option node_id * node_id)) : list node_id :=
  pairs ≫= λ pr, match pr.1 with
                 | Some attr_node => [attr_node; pr.2]
                 | None => [pr.2]
                 end.

(** [BaseGroupUnusedNodes._create_unused_frame]: the scene after the
    call.  The name is written as assigned, which is what the host
    stores when no node of the tree has that name (a numeric suffix is
    added otherwise). *)
Definition create_unused_frame (node_tree : Scene)
    (pairs : list (option node_id * node_id)) : outcome Scene :=
  match pairs with
  | [] => Returned node_tree
  | _ :: _ =>
      let all_nodes := pair_nodes pairs in
      let used_nodes :=
        filter (λ n, (n ∉ all_nodes) ∧ type (objects node_tree n) ≠ "FRAME")
               (scene_nodes node_tree) in
      match place_group_left_of_used node_tree all_nodes used_nodes 400 with
      | Raised e => Raised e
      | Returned (scene', Some frame) =>
          Returned
            (mkScene (update (objects scene') frame
                        (λ o, with_name_label o "UNUSED_FRAME" "UNUSED"))
                     (scene_nodes scene'))
      | Returned (scene', None) => Returned scene'
      end
  end.

(** Instance [v] is the first of the visited instances [insts] that
    has the payload of [u] and belongs to a material named [m]. *)
Definition first_match (u : Node) (insts : list (string * NodeTree * Node))
    (m : string) (v : string * NodeTree * Node) : Prop :=
  ∃ pre post,
    insts = pre ++ v :: post ∧ matches u v = true ∧ v.1.1 = m ∧
    ∀ w, w ∈ pre → matches u w = true → w.1.1 ≠ m.

(** ** Output-terminal nodes, as the specification words them *)

(** The output-terminal kinds of the specification (section 4.1):
    material, world and light output, compositor output, file output
    and viewer, group output.  Each is a class of node of the host
    ([bl_idname]); beside it, the [type] that the host gives to the
    nodes of the class. *)
Definition output_terminal_kinds : list (string * string) :=
  [ ("ShaderNodeOutputMaterial", "OUTPUT_MATERIAL");
    ("ShaderNodeOutputWorld", "OUTPUT_WORLD");
    ("ShaderNodeOutputLight", "OUTPUT_LIGHT");
    ("CompositorNodeComposite", "COMPOSITE");
    ("CompositorNodeOutputFile", "OUTPUT_FILE");
    ("CompositorNodeViewer", "VIEWER");
    ("NodeGroupOutput", "GROUP_OUTPUT") ].

Definition is_output_terminal (n : Node) : bool :=
  bool_decide ((bl_idname n, type n) ∈ output_terminal_kinds).

(** Unused, as the specification words it: a node of the graph that no
    chain of links joins to an output-terminal node of the graph. *)
Definition spec_unused (t : NodeTree) (k : node_id) : Prop :=
  k ∈ nid <$> nodes t ∧
  ∀ o, o ∈ nodes t → is_output_terminal o = true → ¬ connected t (nid o) k.

(** Nodes as the host makes them. *)
Definition terminal_node (k : node_id) (kind : string * string) : Node :=
  mkNode k "Output" kind.2 kind.1 "" None 0 0 140 100 None 1 0.

Definition material_output (k : node_id) : Node :=
  mkNode k "Material Output" "OUTPUT_MATERIAL" "ShaderNodeOutputMaterial" ""
         None 0 0 140 100 None 1 0.

Definition group_output (k : node_id) : Node :=
  mkNode k "Group Output" "GROUP_OUTPUT" "NodeGroupOutput" ""
         None 0 0 140 100 None 1 0.

Definition group_instance (k : node_id) (nm : string) (payload : NodeTree) : Node :=
  mkNode k nm "GROUP" "ShaderNodeGroup" "" (Some payload) 0 0 140 100 None 0 1.

(** Node [A] feeds the output node [o], the only output-terminal node
    of the tree. *)
Definition g_feeds (o : Node) : NodeTree :=
  mkNodeTree 40 "Tree" [ o; nd 2 "A" "MATH" None 2 1 ] [ mkLink 2 0 (nid o) 0 ].

(** The payload of a group: [A] feeds the output node [o], [m] has no
    link. *)
Definition g_payload_of (o : Node) : NodeTree :=
  mkNodeTree 41 "NodeGroup"
    [ o; nd 11 "A" "MATH" None 2 1; nd 12 "m" "MATH" None 2 1 ]
    [ mkLink 11 0 (nid o) 0 ].

(** A node group as the host makes it: its output is a group output. *)
Definition g_group_payload : NodeTree := g_payload_of (group_output 10).

(** A material whose only group node, an instance of [payload], has no
    link. *)
Definition g_material_of (payload : NodeTree) : NodeTree :=
  mkNodeTree 42 "M"
    [ material_output 1; group_instance 2 "Group" payload ]
    [].

Definition g_group_material : NodeTree := g_material_of g_group_payload.

(** * Properties *)

(** ** The traversal *)

Section traversal.
Context (t : NodeTree).

Local Abbreviation U := (list_to_set (universe t) : gset node_id).
Local Abbreviation follows := (follows t).
Local Abbreviation grows := (grows t).

Lemma in_neighbours_spec a b :
  b ∈ in_neighbours t a ↔
  ∃ l, l ∈ links t ∧ to_node l = a ∧ to_socket l < n_inputs t a ∧ from_node l = b.
Proof.
  unfold in_neighbours. rewrite list_elem_of_bind. split.
  - intros (i & Hb & Hi). apply elem_of_seq in Hi.
    apply list_elem_of_fmap in Hb as (l & -> & Hl).
    apply list_elem_of_filter in Hl as [[? ?] ?]. exists l. repeat split; auto; lia.
  - intros (l & Hl & Ha & Hs & Hb). exists (to_socket l). split.
    + apply list_elem_of_fmap. exists l. split; [done|].
      apply list_elem_of_filter. auto.
    + apply elem_of_seq. lia.
Qed.

Lemma out_neighbours_spec a b :
  b ∈ out_neighbours t a ↔
  ∃ l, l ∈ links t ∧ from_node l = a ∧ from_socket l < n_outputs t a ∧ to_node l = b.
Proof.
  unfold out_neighbours. rewrite list_elem_of_bind. split.
  - intros (i & Hb & Hi). apply elem_of_seq in Hi.
    apply list_elem_of_fmap in Hb as (l & -> & Hl).
    apply list_elem_of_filter in Hl as [[? ?] ?]. exists l. repeat split; auto; lia.
  - intros (l & Hl & Ha & Hs & Hb). exists (from_socket l). split.
    + apply list_elem_of_fmap. exists l. split; [done|].
      apply list_elem_of_filter. auto.
    + apply elem_of_seq. lia.
Qed.

Lemma neighbours_universe a b : b ∈ neighbours t a → b ∈ U.
Proof.
  unfold neighbours, universe. rewrite elem_of_app, elem_of_list_to_set, !elem_of_app.
  intros [H|H].
  - apply in_neighbours_spec in H as (l & Hl & _ & _ & <-).
    right; left. apply list_elem_of_fmap. eauto.
  - apply out_neighbours_spec in H as (l & Hl & _ & _ & <-).
    right; right. apply list_elem_of_fmap. eauto.
Qed.

(** *** The loop over a list of nodes *)

Lemma visit_all_None (f : node_id → Visited → option Visited) ks :
  foldl (λ acc k, acc ≫= f k) (None : option Visited) ks = None.
Proof. induction ks; simpl; auto. Qed.

Lemma visit_all_nil f st : visit_all f [] st = Some st.
Proof. reflexivity. Qed.

Lemma visit_all_cons f k ks st :
  visit_all f (k :: ks) st = f k st ≫= visit_all f ks.
Proof.
  unfold visit_all. simpl. destruct (f k st); simpl; [done|].
  apply visit_all_None.
Qed.

(** *** What a call adds to the state *)

Lemma grows_refl st : grows [] st st.
Proof.
  split; try done.
  - inversion 1.
  - exists []. rewrite app_nil_r. split; [done|]. split; [constructor|].
    intros x. split; [inversion 1 | tauto].
Qed.

Lemma grows_trans r1 r2 st st1 st2 :
  grows r1 st st1 → grows r2 st1 st2 → grows (r1 ++ r2) st st2.
Proof.
  intros [S1 R1 (n1 & T1 & D1 & M1) C1 P1] [S2 R2 (n2 & T2 & D2 & M2) C2 P2].
  split.
  - set_solver.
  - intros r [?|?]%elem_of_app; [apply S2, R1 | apply R2]; done.
  - exists (n1 ++ n2). split; [by rewrite T2, T1, app_assoc|]. split.
    + apply NoDup_app. split; [done|]. split; [|done].
      intros x Hx1 Hx2. apply M1 in Hx1. apply M2 in Hx2. tauto.
    + intros x. rewrite elem_of_app, M1, M2. split.
      * intros [[? ?]|[? ?]]; split; auto.
      * intros [? ?]. destruct (decide (x ∈ used st1)); auto.
  - intros x y Hx Hn Hf. destruct (decide (x ∈ used st1)).
    + apply S2. eapply C1; eauto.
    + eapply C2; eauto.
  - intros x Hx Hn. destruct (decide (x ∈ used st1)).
    + destruct (P1 x) as (r & ? & ?); auto. exists r. rewrite elem_of_app. auto.
    + destruct (P2 x) as (r & ? & ?); auto. exists r. rewrite elem_of_app. auto.
Qed.

Lemma visit_all_grows f ks st0 :
  (∀ k st, k ∈ ks → used st0 ⊆ used st →
           ∃ st', f k st = Some st' ∧ grows [k] st st') →
  ∃ st', visit_all f ks st0 = Some st' ∧ grows ks st0 st'.
Proof.
  revert st0. induction ks as [|k ks IH]; intros st0 Hf.
  - exists st0. split; [done | apply grows_refl].
  - destruct (Hf k st0) as (st1 & E1 & G1); [left | done |].
    destruct (IH st1) as (st2 & E2 & G2).
    { intros k' st Hk Hs. apply Hf; [by right|].
      pose proof (grows_sub _ _ _ _ G1). set_solver. }
    exists st2. split.
    + rewrite visit_all_cons, E1. exact E2.
    + change (k :: ks) with ([k] ++ ks). eapply grows_trans; eauto.
Qed.

Lemma visit_all_mono (f g : node_id → Visited → option Visited) ks :
  (∀ k st st', f k st = Some st' → g k st = Some st') →
  ∀ st st', visit_all f ks st = Some st' → visit_all g ks st = Some st'.
Proof.
  intros Hfg. induction ks as [|k ks IH]; intros st st'; [done|].
  rewrite !visit_all_cons. destruct (f k st) as [st1|] eqn:E; [|done].
  rewrite (Hfg _ _ _ E). simpl. apply IH.
Qed.

(** *** The recursive function *)

Lemma visit_grows fuel : ∀ k st,
  k ∈ U → size (U ∖ used st) < fuel →
  ∃ st', visit fuel t k st = Some st' ∧ grows [k] st st'.
Proof.
  induction fuel as [|fuel IH]; intros k st Hk Hsz; [lia|].
  simpl. destruct (decide (k ∈ used st)) as [Hin|Hout].
  - exists st. split; [done|]. split; try done.
    + intros r Hr. apply list_elem_of_singleton in Hr. by subst.
    + exists []. rewrite app_nil_r. split; [done|]. split; [constructor|].
      intros x. split; [inversion 1 | tauto].
  - set (st1 := mkVisited ({[k]} ∪ used st) (trace st ++ [k])).
    assert (Hsz1 : size (U ∖ used st1) < fuel).
    { assert (U ∖ used st1 ⊂ U ∖ used st) as Hlt%subset_size; [|lia].
      apply strict_spec_alt. split; [set_solver|].
      intros Heq. assert (k ∈ U ∖ used st) as Hk' by set_solver.
      rewrite <- Heq in Hk'. set_solver. }
    assert (Hcall : ∀ ks stA, (∀ x, x ∈ ks → x ∈ U) → used st1 ⊆ used stA →
               ∃ st', visit_all (visit fuel t) ks stA = Some st' ∧ grows ks stA st').
    { intros ks stA HU HsA. apply visit_all_grows. intros k' st' Hk' Hs'.
      apply IH; [by apply HU|].
      assert (U ∖ used st' ⊆ U ∖ used st1) as ?%subseteq_size by set_solver. lia. }
    destruct (Hcall (in_neighbours t k) st1) as (st2 & E2 & G2); [|done|].
    { intros x Hx. apply (neighbours_universe k). unfold neighbours.
      rewrite elem_of_app; auto. }
    destruct (Hcall (out_neighbours t k) st2) as (st3 & E3 & G3).
    { intros x Hx. apply (neighbours_universe k). unfold neighbours.
      rewrite elem_of_app; auto. }
    { apply G2. }
    exists st3. rewrite E2. simpl. split; [exact E3|].
    pose proof (grows_trans _ _ _ _ _ G2 G3) as G. fold (neighbours t k) in G.
    destruct G as [S R (new & T & D & M) C P].
    assert (Hk3 : k ∈ used st3) by (apply S; set_solver).
    split.
    + set_solver.
    + intros r Hr. apply list_elem_of_singleton in Hr. by subst.
    + exists (k :: new). split; [by rewrite T; simpl; rewrite <- app_assoc|].
      split.
      * constructor; [|done]. rewrite M. set_solver.
      * intros x. rewrite elem_of_cons, M. simpl. split.
        -- intros [->|[? ?]]; [done|]. split; [done|]. set_solver.
        -- intros [? ?]. destruct (decide (x = k)); [by left|].
           right. split; [done|]. set_solver.
    + intros x y Hx Hn Hf. destruct (decide (x = k)) as [->|Hne].
      * by apply R.
      * eapply C; eauto. set_solver.
    + intros x Hx Hn. exists k. split; [by left|].
      destruct (decide (x = k)) as [->|Hne]; [done|].
      destruct (P x) as (r & Hr & Hrx); [done | set_solver |].
      eapply rtc_l; [|exact Hrx]. exact Hr.
Qed.

Lemma visit_mono fuel : ∀ fuel' k st st',
  fuel ≤ fuel' → visit fuel t k st = Some st' → visit fuel' t k st = Some st'.
Proof.
  induction fuel as [|fuel IH]; intros fuel' k st st' Hle; [done|].
  destruct fuel' as [|fuel']; [lia|]. simpl.
  destruct (decide (k ∈ used st)); [done|].
  intros H. apply bind_Some in H as (st2 & E2 & E3).
  apply bind_Some. exists st2. split.
  - eapply visit_all_mono; [|exact E2]. intros. eapply IH; [|eassumption]. lia.
  - eapply visit_all_mono; [|exact E3]. intros. eapply IH; [|eassumption]. lia.
Qed.

(** *** The traversal from the output nodes *)

Lemma output_ids_universe k : k ∈ nid <$> get_output_nodes t → k ∈ U.
Proof.
  intros (n & -> & Hn)%list_elem_of_fmap.
  apply list_elem_of_filter in Hn as [_ Hn].
  unfold universe. rewrite elem_of_list_to_set, elem_of_app. left.
  by apply list_elem_of_fmap_2.
Qed.

Lemma size_universe_lt : size (U ∖ ∅) < fuel_of t.
Proof.
  unfold fuel_of.
  assert (size (U ∖ ∅) ≤ size U) by (apply subseteq_size; set_solver).
  assert (size U ≤ length (universe t)); [|lia].
  generalize (universe t). intros l. induction l as [|x l IH].
  - by rewrite list_to_set_nil, size_empty.
  - rewrite list_to_set_cons, size_union_alt, size_singleton. simpl.
    assert (size (list_to_set l ∖ {[x]} : gset node_id)
            ≤ size (list_to_set l : gset node_id))
      by (apply subseteq_size; set_solver).
    lia.
Qed.

Lemma traverse_fuel_enough :
  ∃ st, (∀ fuel, fuel_of t ≤ fuel → traverse_fuel fuel t = Some st) ∧
        grows (nid <$> get_output_nodes t) (mkVisited ∅ []) st.
Proof.
  destruct (visit_all_grows (visit (fuel_of t) t) (nid <$> get_output_nodes t)
              (mkVisited ∅ [])) as (st & E & G).
  { intros k st Hk Hs. apply visit_grows; [by apply output_ids_universe|].
    pose proof size_universe_lt.
    assert (U ∖ used st ⊆ U ∖ ∅) as ?%subseteq_size by set_solver. lia. }
  exists st. split; [|done]. intros fuel Hle. unfold traverse_fuel.
  eapply visit_all_mono; [|exact E]. intros. eapply visit_mono; eauto.
Qed.

Lemma traverse_from_outputs_follows x :
  x ∈ traverse_from_outputs t ↔
  ∃ o, o ∈ get_output_nodes t ∧ rtc follows (nid o) x.
Proof.
  destruct traverse_fuel_enough as (st & E & [S R _ C P]).
  unfold traverse_from_outputs. rewrite (E (fuel_of t)) by lia. simpl in *.
  split.
  - intros Hx. destruct (P x Hx) as (r & Hr & Hrx); [set_solver|].
    apply list_elem_of_fmap in Hr as (o & -> & Ho). eauto.
  - intros (o & Ho & Hrx).
    assert (Hin : nid o ∈ used st) by (apply R; by apply list_elem_of_fmap_2).
    clear Ho. induction Hrx as [|a b c Hab _ IH]; [done|].
    apply IH. eapply C; eauto. set_solver.
Qed.
End traversal.

(** ** Traversal steps and links *)

Lemma n_inputs_node t k : 0 < n_inputs t k → k ∈ all_nodes t.
Proof.
  unfold n_inputs, get_node, all_nodes. rewrite elem_of_list_to_set.
  destruct (list_find _ _) as [[i n]|] eqn:E; simpl; [|lia].
  intros _. apply list_find_Some in E as (Hi & <- & _).
  apply list_elem_of_fmap_2. eapply list_elem_of_lookup_2; eauto.
Qed.

Lemma n_outputs_node t k : 0 < n_outputs t k → k ∈ all_nodes t.
Proof.
  unfold n_outputs, get_node, all_nodes. rewrite elem_of_list_to_set.
  destruct (list_find _ _) as [[i n]|] eqn:E; simpl; [|lia].
  intros _. apply list_find_Some in E as (Hi & <- & _).
  apply list_elem_of_fmap_2. eapply list_elem_of_lookup_2; eauto.
Qed.

Lemma follows_linked t a b : wf_tree t → follows t a b ↔ linked t a b.
Proof.
  intros Hwf. unfold follows, neighbours, linked.
  rewrite elem_of_app, in_neighbours_spec, out_neighbours_spec.
  unfold wf_tree in Hwf. rewrite Forall_forall in Hwf. split.
  - intros [(l & Hl & ? & _ & ?)|(l & Hl & ? & _ & ?)]; exists l; auto.
  - intros (l & Hl & [[? ?]|[? ?]]); destruct (Hwf l Hl) as [? ?]; subst.
    + right. exists l. auto.
    + left. exists l. auto.
Qed.

Lemma rtc_follows_connected t a b :
  wf_tree t → rtc (follows t) a b ↔ connected t a b.
Proof.
  intros Hwf. unfold connected.
  split; induction 1 as [|x y z Hxy _ IH]; try done;
    (eapply rtc_l; [|exact IH]); by apply (follows_linked t x y Hwf).
Qed.

Lemma linked_all_nodes t a b :
  wf_tree t → linked t a b → a ∈ all_nodes t ∧ b ∈ all_nodes t.
Proof.
  intros Hwf (l & Hl & Hab). unfold wf_tree in Hwf. rewrite Forall_forall in Hwf.
  destruct (Hwf l Hl) as [Ho Hi].
  assert (from_node l ∈ all_nodes t) by (apply n_outputs_node; lia).
  assert (to_node l ∈ all_nodes t) by (apply n_inputs_node; lia).
  destruct Hab as [[<- <-]|[<- <-]]; auto.
Qed.

Lemma output_node_all_nodes t o : o ∈ get_output_nodes t → nid o ∈ all_nodes t.
Proof.
  intros [_ Ho]%list_elem_of_filter. unfold all_nodes.
  rewrite elem_of_list_to_set. by apply list_elem_of_fmap_2.
Qed.

Lemma traverse_from_outputs_all_nodes t :
  wf_tree t → traverse_from_outputs t ⊆ all_nodes t.
Proof.
  intros Hwf x Hx. apply traverse_from_outputs_follows in Hx as (o & Ho & Hr).
  apply (rtc_follows_connected t _ _ Hwf) in Hr.
  apply output_node_all_nodes in Ho.
  induction Hr as [|a b c Hab _ IH]; [done|].
  apply IH. by destruct (linked_all_nodes t a b Hwf Hab).
Qed.

Lemma traverse_from_outputs_no_output t :
  get_output_nodes t = [] → traverse_from_outputs t = ∅.
Proof.
  intros H. unfold traverse_from_outputs, traverse_fuel. by rewrite H.
Qed.

(** ** Dictionaries *)

Lemma dict_ids_cons n i (d : Dict) : dict_ids ((n, i) :: d) = nid n :: dict_ids d.
Proof. reflexivity. Qed.

Lemma dict_ids_set d n i k :
  k ∈ dict_ids (dict_set d n i) ↔ k ∈ dict_ids d ∨ k = nid n.
Proof.
  induction d as [|[n' i'] d IH]; simpl.
  - rewrite dict_ids_cons. unfold dict_ids, dict_keys. simpl. set_solver.
  - destruct (decide (nid n' = nid n)) as [E|E]; rewrite !dict_ids_cons.
    + rewrite elem_of_cons. rewrite E. set_solver.
    + rewrite !elem_of_cons, IH. tauto.
Qed.

Lemma dict_set_NoDup d n i :
  NoDup (dict_ids d) → NoDup (dict_ids (dict_set d n i)).
Proof.
  induction d as [|[n' i'] d IH]; simpl; intros H.
  - rewrite dict_ids_cons. apply NoDup_singleton.
  - destruct (decide (nid n' = nid n)) as [E|E]; rewrite dict_ids_cons in *.
    + done.
    + apply NoDup_cons in H as [Hn Hd]. apply NoDup_cons. split; [|auto].
      rewrite dict_ids_set. intros [?|?]; [done|]. by apply E.
Qed.

Lemma dict_get_set d n i k :
  dict_get (dict_set d n i) k = if decide (nid n = k) then Some i else dict_get d k.
Proof.
  induction d as [|[n' i'] d IH]; simpl.
  - done.
  - destruct (decide (nid n' = nid n)) as [E|E]; simpl.
    + destruct (decide (nid n' = k)), (decide (nid n = k)); congruence.
    + rewrite IH. destruct (decide (nid n' = k)), (decide (nid n = k)); congruence.
Qed.

Lemma dict_get_ids d k : is_Some (dict_get d k) ↔ k ∈ dict_ids d.
Proof.
  induction d as [|[n i] d IH]; simpl.
  - split; [by intros [? ?] | inversion 1].
  - rewrite dict_ids_cons, elem_of_cons. destruct (decide (nid n = k)).
    + split; [auto | by eauto].
    + rewrite IH. split; [auto | intros [?|?]; congruence].
Qed.

Lemma dict_get_None d k : dict_get d k = None ↔ k ∉ dict_ids d.
Proof. rewrite <- dict_get_ids, eq_None_not_Some. done. Qed.

Lemma dict_update_nil d : dict_update d [] = d.
Proof. reflexivity. Qed.

Lemma dict_update_cons d n i o :
  dict_update d ((n, i) :: o) = dict_update (dict_set d n i) o.
Proof. reflexivity. Qed.

Lemma dict_ids_update d o k :
  k ∈ dict_ids (dict_update d o) ↔ k ∈ dict_ids d ∨ k ∈ dict_ids o.
Proof.
  revert d. induction o as [|[n i] o IH]; intros d.
  - rewrite dict_update_nil. unfold dict_ids at 3. simpl. set_solver.
  - rewrite dict_update_cons, IH, dict_ids_set, dict_ids_cons, elem_of_cons. tauto.
Qed.

Lemma dict_update_NoDup d o :
  NoDup (dict_ids d) → NoDup (dict_ids (dict_update d o)).
Proof.
  revert d. induction o as [|[n i] o IH]; intros d H; [done|].
  rewrite dict_update_cons. apply IH. by apply dict_set_NoDup.
Qed.

Lemma dict_get_update_other d o k :
  k ∉ dict_ids o → dict_get (dict_update d o) k = dict_get d k.
Proof.
  revert d. induction o as [|[n i] o IH]; intros d H; [done|].
  rewrite dict_ids_cons, not_elem_of_cons in H. destruct H as [H1 H2].
  rewrite dict_update_cons, IH, dict_get_set by done.
  destruct (decide (nid n = k)); congruence.
Qed.

Lemma dict_get_update d o k i :
  NoDup (dict_ids o) → dict_get o k = Some i →
  dict_get (dict_update d o) k = Some i.
Proof.
  revert d. induction o as [|[n i'] o IH]; intros d Hnd Hget; [done|].
  rewrite dict_ids_cons in Hnd. apply NoDup_cons in Hnd as [Hn Hnd].
  rewrite dict_update_cons. simpl in Hget.
  destruct (decide (nid n = k)) as [E|E].
  - inversion Hget; subst i' k.
    rewrite dict_get_update_other by done. rewrite dict_get_set.
    by destruct (decide (nid n = nid n)).
  - by apply IH.
Qed.

(** The dictionary built by the loop [unused_dict[node] = {...}]. *)
Lemma fresh_dict_ids tn l d k :
  k ∈ dict_ids (foldl (λ d n, dict_set d n (fresh_info n tn)) d l) ↔
  k ∈ dict_ids d ∨ k ∈ nid <$> l.
Proof.
  revert d. induction l as [|n l IH]; intros d; simpl.
  - set_solver.
  - rewrite IH, dict_ids_set, elem_of_cons. tauto.
Qed.

Lemma fresh_dict_NoDup tn l d :
  NoDup (dict_ids d) →
  NoDup (dict_ids (foldl (λ d n, dict_set d n (fresh_info n tn)) d l)).
Proof.
  revert d. induction l as [|n l IH]; intros d H; simpl; [done|].
  apply IH. by apply dict_set_NoDup.
Qed.

Lemma fresh_dict_get tn l d k i :
  dict_get (foldl (λ d n, dict_set d n (fresh_info n tn)) d l) k = Some i →
  dict_get d k = Some i ∨ ∃ n, n ∈ l ∧ nid n = k ∧ i = fresh_info n tn.
Proof.
  revert d. induction l as [|n l IH]; intros d; simpl; [auto|].
  intros H. apply IH in H as [H|(n' & ? & ? & ?)].
  - rewrite dict_get_set in H. destruct (decide (nid n = k)).
    + right. exists n. inversion H. split; [left|]; auto.
    + auto.
  - right. exists n'. split; [by right|]. auto.
Qed.

(** ** One tree *)

(** The name stamped on the records of a tree. *)
Lemma find_unused_nodes_NoDup node_tree p sa :
  NoDup (dict_ids (find_unused_nodes node_tree p sa)).
Proof.
  unfold find_unused_nodes. destruct node_tree as [t|]; [|constructor].
  destruct (get_output_nodes t); [constructor|].
  apply fresh_dict_NoDup. constructor.
Qed.

Lemma find_unused_nodes_get t p sa k i :
  dict_get (find_unused_nodes (Some t) p sa) k = Some i →
  parent_tree i = (if truthy p then p else tree_name t) ∧
  materials i = [] ∧ connected_to_output i = Some [] ∧
  ∃ n, n ∈ nodes t ∧ nid n = k ∧ info_type i = type n.
Proof.
  unfold find_unused_nodes. destruct (get_output_nodes t); [done|].
  intros H. apply fresh_dict_get in H as [H|(n0 & Hn & <- & ->)]; [done|].
  repeat split; auto. exists n0. split; [|done].
  destruct sa.
  - by apply list_elem_of_filter in Hn as [_ ?].
  - apply list_elem_of_filter in Hn as [_ Hn].
    by apply list_elem_of_filter in Hn as [_ ?].
Qed.

Lemma find_unused_nodes_ids t sa p k :
  get_output_nodes t ≠ [] →
  k ∈ dict_ids (find_unused_nodes (Some t) p sa) ↔
  ∃ n, n ∈ nodes t ∧ nid n = k ∧ k ∈ unused_set t ∧
       (sa = false → is_attribute n = false).
Proof.
  intros Ho. unfold find_unused_nodes.
  destruct (get_output_nodes t); [done|].
  rewrite fresh_dict_ids. unfold dict_ids at 1. simpl.
  rewrite list_elem_of_fmap. fold (unused_set t). split.
  - intros [H|(n0 & -> & Hn)]; [inversion H|]. exists n0. destruct sa.
    + apply list_elem_of_filter in Hn as [? ?]. repeat split; auto. done.
    + apply list_elem_of_filter in Hn as [? Hn].
      apply list_elem_of_filter in Hn as [? ?]. repeat split; auto.
  - intros (n0 & Hn & <- & Hu & Ha). right. exists n0. split; [done|]. destruct sa.
    + apply list_elem_of_filter. auto.
    + apply list_elem_of_filter. split; [auto|]. apply list_elem_of_filter. auto.
Qed.

Lemma find_unused_nodes_ids_independent node_tree p p' sa k :
  k ∈ dict_ids (find_unused_nodes node_tree p sa) ↔
  k ∈ dict_ids (find_unused_nodes node_tree p' sa).
Proof.
  unfold find_unused_nodes. destruct node_tree as [t|]; [|done].
  destruct (get_output_nodes t); [done|]. by rewrite !fresh_dict_ids.
Qed.

(** ** Claims about the reachability engine *)

(** The traversal, read from the nodes that [get_output_nodes]
    returns.  In a well-formed tree the traversal returns, for every
    bound of at least [fuel_of], the same state; its set [used] is the
    value of [traverse_from_outputs] and holds exactly the nodes
    connected, ignoring the direction of links, to some node of
    [get_output_nodes]; [used.add] ran once for every member of the
    set and for nothing else; and every node of [get_output_nodes] is
    in the set and not in the unused set. *)
Theorem traverse_from_outputs_connected (t : NodeTree) :
  wf_tree t →
  ∃ st,
    (∀ fuel, fuel_of t ≤ fuel → traverse_fuel fuel t = Some st) ∧
    traverse_from_outputs t = used st ∧
    (∀ x, x ∈ traverse_from_outputs t ↔
          ∃ o, o ∈ get_output_nodes t ∧ connected t (nid o) x) ∧
    NoDup (trace st) ∧
    (∀ x, x ∈ trace st ↔ x ∈ used st) ∧
    (∀ o, o ∈ get_output_nodes t →
          nid o ∈ traverse_from_outputs t ∧ nid o ∉ unused_set t).
Proof.
  intros Hwf. destruct (traverse_fuel_enough t) as (st & E & G).
  exists st. split; [exact E|].
  assert (Hval : traverse_from_outputs t = used st).
  { unfold traverse_from_outputs. by rewrite (E (fuel_of t)). }
  assert (Hconn : ∀ x, x ∈ traverse_from_outputs t ↔
            ∃ o, o ∈ get_output_nodes t ∧ connected t (nid o) x).
  { intros x. rewrite traverse_from_outputs_follows.
    split; intros (o & Ho & Hr); exists o; split; auto;
      by apply (rtc_follows_connected t _ _ Hwf). }
  destruct G as [_ _ (new & T & D & M) _ _]. simpl in T. subst new.
  split; [exact Hval|]. split; [exact Hconn|]. split; [exact D|]. split.
  - intros x. rewrite M. simpl. set_solver.
  - intros o Ho.
    assert (nid o ∈ traverse_from_outputs t).
    { apply Hconn. exists o. split; [done|]. unfold connected. done. }
    split; [done|]. unfold unused_set. set_solver.
Qed.

(** C2.  In a well-formed tree the used set and the unused set computed
    from it are disjoint and their union is the set of all nodes of the
    tree; when the tree has an output node, the unused set is the set
    of keys of the dictionary that [find_unused_nodes] returns without
    the filter on attribute nodes. *)
Theorem used_unused_partition (t : NodeTree) :
  wf_tree t →
  traverse_from_outputs t ∪ unused_set t = all_nodes t ∧
  traverse_from_outputs t ∩ unused_set t = ∅ ∧
  (get_output_nodes t ≠ [] →
   ∀ p k, k ∈ dict_ids (find_unused_nodes (Some t) p true) ↔ k ∈ unused_set t).
Proof.
  intros Hwf. pose proof (traverse_from_outputs_all_nodes t Hwf) as Hsub.
  split; [|split].
  - unfold unused_set. apply set_eq. intros x.
    rewrite elem_of_union, elem_of_difference.
    destruct (decide (x ∈ traverse_from_outputs t)); set_solver.
  - unfold unused_set. set_solver.
  - intros Ho p k. rewrite (find_unused_nodes_ids t true p k Ho). split.
    + intros (n & _ & _ & Hk & _). exact Hk.
    + intros Hk. assert (Hall : k ∈ all_nodes t) by (unfold unused_set in Hk; set_solver).
      unfold all_nodes in Hall. rewrite elem_of_list_to_set in Hall.
      apply list_elem_of_fmap in Hall as (n & -> & Hn).
      exists n. repeat split; auto. discriminate.
Qed.

Lemma traverse_from_outputs_connected_witness :
  wf_tree g_simple ∧
  ∀ x, x ∈ traverse_from_outputs g_simple ↔
       ∃ o, o ∈ get_output_nodes g_simple ∧ connected g_simple (nid o) x.
Proof.
  assert (H : wf_tree g_simple).
  { unfold wf_tree. repeat constructor. }
  split; [exact H|].
  destruct (traverse_from_outputs_connected g_simple H) as (st & _ & _ & Hc & _).
  exact Hc.
Defined.

Lemma used_unused_partition_witness :
  wf_tree g_simple ∧
  traverse_from_outputs g_simple ∪ unused_set g_simple = all_nodes g_simple ∧
  traverse_from_outputs g_simple ∩ unused_set g_simple = ∅.
Proof.
  assert (H : wf_tree g_simple).
  { unfold wf_tree. repeat constructor. }
  split; [exact H|].
  destruct (used_unused_partition g_simple H) as (H1 & H2 & _).
  split; [exact H1 | exact H2].
Defined.

(** The scenario of the specification: [O] linked from [A], and [B]
    without links. *)
Example g_simple_sets :
  elements (traverse_from_outputs g_simple) = [2; 1] ∧
  elements (unused_set g_simple) = [3].
Proof. split; by vm_compute. Qed.

(** C4, as stated, fails: without output nodes [find_unused_nodes]
    reports no node at all, although the tree has three nodes. *)
Lemma no_output_all_unused_counterexample :
  get_output_nodes g_no_output = [] ∧
  ¬ (∀ n, n ∈ nodes g_no_output →
          nid n ∈ dict_ids (find_unused_nodes (Some g_no_output) "" true)).
Proof.
  split; [reflexivity|]. intros H.
  specialize (H (nd 1 "A" "TEX_IMAGE" None 1 1)).
  assert (Hin : nd 1 "A" "TEX_IMAGE" None 1 1 ∈ nodes g_no_output) by left.
  apply H in Hin. vm_compute in Hin. inversion Hin.
Qed.

(** C4, amended.  Without output nodes the traversal returns the empty
    set, so that the complement of the used set is the set of all
    nodes; [find_unused_nodes] stops at its guard and returns the empty
    dictionary. *)
Theorem no_output_analysis (t : NodeTree) (parent_tree_name : string)
    (show_attributes : bool) :
  get_output_nodes t = [] →
  traverse_from_outputs t = ∅ ∧
  unused_set t = all_nodes t ∧
  find_unused_nodes (Some t) parent_tree_name show_attributes = [].
Proof.
  intros H. pose proof (traverse_from_outputs_no_output t H) as Hu.
  split; [exact Hu|]. split.
  - unfold unused_set. rewrite Hu. set_solver.
  - unfold find_unused_nodes. by rewrite H.
Qed.

Lemma no_output_analysis_witness :
  get_output_nodes g_no_output = [] ∧
  traverse_from_outputs g_no_output = ∅ ∧
  unused_set g_no_output = all_nodes g_no_output ∧
  find_unused_nodes (Some g_no_output) "" true = [].
Proof.
  split; [reflexivity|]. apply (no_output_analysis g_no_output "" true).
  reflexivity.
Defined.

(** ** The recursive expansion *)

Lemma foldl_ext_in {A B} (f g : A → B → A) (l : list B) :
  (∀ a b, b ∈ l → f a b = g a b) → ∀ a, foldl f a l = foldl g a l.
Proof.
  induction l as [|b l IH]; intros H a; simpl; [done|].
  rewrite H by left. apply IH. intros. apply H. by right.
Qed.

Lemma foldl_const {A B} (a : A) (l : list B) : foldl (λ a _, a) a l = a.
Proof. induction l; simpl; auto. Qed.

Lemma foldl_filter {A B} (f : A → B → A) (P : B → Prop)
    `{∀ b, Decision (P b)} (l : list B) a :
  foldl f a (filter P l) = foldl (λ a b, if decide (P b) then f a b else a) a l.
Proof.
  revert a. induction l as [|b l IH]; intros a; [done|].
  rewrite filter_cons. simpl. destruct (decide (P b)); simpl; apply IH.
Qed.

Lemma find_unused_nodes_rec_unfold t p sa :
  find_unused_nodes_rec t p sa =
  foldl (λ d n, if is_unused_group (find_unused_nodes (Some t) p sa) n
                then dict_update d (nested_unused p sa n) else d)
        (find_unused_nodes (Some t) p sa) (nodes t).
Proof.
  destruct t as [i nm ns ls]. simpl. apply foldl_ext_in. intros d n _.
  unfold is_unused_group, nested_unused.
  destruct (_ && _); [|done]. by destruct (node_tree n).
Qed.

Section expansion.
Context (p : string) (sa : bool) (unused : Dict).

Local Abbreviation step :=
  (λ d n, if is_unused_group unused n
          then dict_update d (nested_unused p sa n) else d).

Lemma expansion_NoDup l d :
  NoDup (dict_ids d) → NoDup (dict_ids (foldl step d l)).
Proof.
  revert d. induction l as [|n l IH]; intros d H; simpl; [done|].
  apply IH. destruct (is_unused_group unused n); [|done].
  by apply dict_update_NoDup.
Qed.

Lemma expansion_ids l d k :
  k ∈ dict_ids (foldl step d l) ↔
  k ∈ dict_ids d ∨
  ∃ n, n ∈ l ∧ is_unused_group unused n = true ∧
       k ∈ dict_ids (nested_unused p sa n).
Proof.
  revert d. induction l as [|n l IH]; intros d; simpl.
  - split; [auto | intros [?|(? & H & _)]; [done | inversion H]].
  - rewrite IH. destruct (is_unused_group unused n) eqn:E.
    + rewrite dict_ids_update. split.
      * intros [[?|?]|(n' & ? & ? & ?)]; auto.
        -- right. exists n. split; [left|]; auto.
        -- right. exists n'. split; [by right|]; auto.
      * intros [?|(n' & [->|?]%elem_of_cons & ? & ?)]; auto.
        right. exists n'. auto.
    + split.
      * intros [?|(n' & ? & ? & ?)]; auto.
        right. exists n'. split; [by right|]; auto.
      * intros [?|(n' & [->|?]%elem_of_cons & ? & ?)]; auto; [congruence|].
        right. exists n'. auto.
Qed.

Lemma expansion_get_other l d k :
  (∀ n, n ∈ l → is_unused_group unused n = true →
        k ∉ dict_ids (nested_unused p sa n)) →
  dict_get (foldl step d l) k = dict_get d k.
Proof.
  revert d. induction l as [|n l IH]; intros d H; simpl; [done|].
  rewrite IH by (intros; apply H; [by right | done]).
  destruct (is_unused_group unused n) eqn:E; [|done].
  apply dict_get_update_other. apply H; [left | done].
Qed.

Lemma expansion_get l d g k i :
  NoDup (nid <$> l) →
  g ∈ l → is_unused_group unused g = true →
  (∀ n, n ∈ l → nid n ≠ nid g → is_unused_group unused n = true →
        k ∉ dict_ids (nested_unused p sa n)) →
  NoDup (dict_ids (nested_unused p sa g)) →
  dict_get (nested_unused p sa g) k = Some i →
  dict_get (foldl step d l) k = Some i.
Proof.
  intros Hids Hg Hc Hother Hnd Hget.
  apply list_elem_of_split in Hg as (l1 & l2 & ->).
  rewrite fmap_app, fmap_cons in Hids.
  apply NoDup_app in Hids as (_ & _ & Hids).
  apply NoDup_cons in Hids as [Hg2 _].
  rewrite foldl_app. simpl. rewrite Hc.
  rewrite expansion_get_other.
  - by apply dict_get_update.
  - intros n Hn. apply Hother.
    + rewrite elem_of_app, elem_of_cons. auto.
    + intros E. apply Hg2. rewrite <- E. by apply list_elem_of_fmap_2.
Qed.
End expansion.

Lemma find_unused_nodes_rec_NoDup t p sa :
  NoDup (dict_ids (find_unused_nodes_rec t p sa)).
Proof.
  rewrite find_unused_nodes_rec_unfold. apply expansion_NoDup.
  apply find_unused_nodes_NoDup.
Qed.

Lemma nested_unused_NoDup p sa n : NoDup (dict_ids (nested_unused p sa n)).
Proof.
  unfold nested_unused. destruct (node_tree n); [|constructor].
  apply find_unused_nodes_rec_NoDup.
Qed.

(** *** The loop over the keys *)

Lemma dict_set_new d n i :
  nid n ∉ dict_ids d → dict_set d n i = d ++ [(n, i)].
Proof.
  induction d as [|[n' i'] d IH]; simpl; intros H; [done|].
  rewrite dict_ids_cons, not_elem_of_cons in H. destruct H as [H1 H2].
  destruct (decide (nid n' = nid n)); [congruence|]. by rewrite IH.
Qed.

Lemma fresh_dict_keys tn l d :
  NoDup (dict_ids d ++ (nid <$> l)) →
  dict_keys (foldl (λ d n, dict_set d n (fresh_info n tn)) d l) = dict_keys d ++ l.
Proof.
  revert d. induction l as [|n l IH]; intros d H; simpl.
  - by rewrite app_nil_r.
  - assert (Hn : nid n ∉ dict_ids d).
    { apply NoDup_app in H as (_ & H & _). intros Hin. apply (H _ Hin). left. }
    rewrite IH; rewrite dict_set_new by done.
    + unfold dict_keys. rewrite fmap_app. simpl. by rewrite <- app_assoc.
    + unfold dict_ids, dict_keys. rewrite !fmap_app. simpl.
      rewrite <- app_assoc. exact H.
Qed.

Lemma filter_ids_NoDup (P : Node → Prop) `{∀ n, Decision (P n)} (l : list Node) :
  NoDup (nid <$> l) → NoDup (nid <$> filter P l).
Proof.
  intros Hnd. eapply sublist_NoDup; [exact Hnd|].
  apply fmap_sublist. by apply sublist_filter.
Qed.

Lemma filter_ids_elem (P : Node → Prop) `{∀ n, Decision (P n)} (l : list Node) n :
  NoDup (nid <$> l) → n ∈ l → nid n ∈ nid <$> filter P l ↔ P n.
Proof.
  intros Hnd Hn. rewrite list_elem_of_fmap. split.
  - intros (n' & E & Hn'). apply list_elem_of_filter in Hn' as [HP Hn'].
    assert (n = n'); [|by subst].
    apply list_elem_of_lookup in Hn as [a Ha]. apply list_elem_of_lookup in Hn' as [b Hb].
    assert (a = b); [|congruence].
    eapply NoDup_lookup; [exact Hnd| |]; rewrite list_lookup_fmap.
    + by rewrite Ha.
    + rewrite Hb. simpl. by rewrite E.
  - intros HP. exists n. split; [done|]. by apply list_elem_of_filter.
Qed.

(** On a tree whose nodes have distinct identities, the structural
    loop of [find_unused_nodes_rec] is the loop of the source over the
    keys of [unused_dict]. *)
Lemma find_unused_nodes_recursive_keys t p sa :
  NoDup (nid <$> nodes t) →
  find_unused_nodes_rec t p sa =
  expand_keys p sa (find_unused_nodes (Some t) p sa).
Proof.
  intros Hnd. rewrite find_unused_nodes_rec_unfold. unfold expand_keys.
  set (Q := λ n : Node, nid n ∈ all_nodes t ∖ traverse_from_outputs t
                        ∧ (sa = false → is_attribute n = false)).
  assert (HQ : ∀ n, Decision (Q n)) by (intros n; unfold Q; apply _).
  assert (Hkeys : dict_ids (find_unused_nodes (Some t) p sa) = [] ∧
                  dict_keys (find_unused_nodes (Some t) p sa) = []
                ∨ dict_keys (find_unused_nodes (Some t) p sa) = filter Q (nodes t)).
  { unfold find_unused_nodes. destruct (get_output_nodes t); [by left|]. right.
    assert (E : (if sa then filter (λ n, nid n ∈ all_nodes t ∖ traverse_from_outputs t) (nodes t)
                 else filter (λ n, is_attribute n = false)
                        (filter (λ n, nid n ∈ all_nodes t ∖ traverse_from_outputs t) (nodes t)))
                = filter Q (nodes t)).
    { destruct sa.
      - apply list_filter_iff. intros x. unfold Q. split; [|tauto].
        intros ?. split; [done|]. discriminate.
      - rewrite list_filter_filter. apply list_filter_iff. intros x. unfold Q.
        split; [tauto|]. intros [? ?]. auto. }
    rewrite E. rewrite fresh_dict_keys; [done|].
    simpl. by apply filter_ids_NoDup. }
  destruct Hkeys as [[Hi Hk]|Hk].
  - rewrite Hk. cbn [foldl]. rewrite <- (foldl_ext_in (λ d _, d)).
    + apply foldl_const.
    + intros d n _. unfold is_unused_group. rewrite Hi.
      rewrite bool_decide_eq_false_2; [done | inversion 1].
  - rewrite Hk, foldl_filter. apply foldl_ext_in. intros d n Hn.
    unfold is_unused_group, nested_unused, dict_ids. rewrite Hk.
    destruct (decide (Q n)) as [HQn|HQn].
    + rewrite bool_decide_eq_true_2 by (by apply filter_ids_elem). simpl.
      destruct (is_group n); [|done]. by destruct (node_tree n).
    + rewrite bool_decide_eq_false_2; [done|]. by rewrite filter_ids_elem.
Qed.

Lemma nested_tree_name_truthy outer g :
  name g ≠ "" → truthy (nested_tree_name outer g) = true.
Proof.
  intros Hn. unfold nested_tree_name, truthy.
  destruct (bool_decide (outer ≠ "")) eqn:E.
  - apply bool_decide_eq_true in E. apply bool_decide_eq_true.
    destruct outer; [done|]. simpl. discriminate.
  - by apply bool_decide_eq_true.
Qed.

Lemma is_unused_group_true unused n :
  is_unused_group unused n = true ↔ nid n ∈ dict_ids unused ∧ is_group n = true.
Proof.
  unfold is_unused_group. rewrite andb_true_iff, bool_decide_eq_true. done.
Qed.

(** ** Claims about the analysis of a tree and of its groups *)

(** Two unused group nodes, [Group] and [Group.001], share a payload
    whose node [m] (identity 11) is unused.  [m] has one record only,
    stamped with the path of one of the two group nodes, the one
    handled last ([dict.update] overwrites; the order of a Python set
    decides which one that is). *)
Example shared_payload_one_record :
  let result := find_unused_nodes_recursive (Some g_two_groups) "M" true in
  length (filter (λ k, k = 11) (dict_ids result)) = 1 ∧
  ∃ i, dict_get result 11 = Some i ∧
       (parent_tree i = "M.Group" ∨ parent_tree i = "M.Group.001").
Proof.
  cbv zeta. split; [by vm_compute|].
  eexists. split; [by vm_compute|]. by right.
Qed.

(** The merge, read from what [find_unused_nodes] reports.  For a
    group node [g] among the unused nodes of tree [t], with payload
    [sub], and a node [m] among the unused nodes of [sub]: the merged
    dictionary has [g] and [m] among its keys.  When
    moreover no other unused group node of [t], and no unused group
    node of [sub], leads to [m] or to [g] again, the record of [g]
    carries the outer path (the name of [t] when the outer path is
    empty) and the record of [m] carries ["<outer>.<name of g>"] (the
    name of [g] alone when the outer path is empty). *)
Theorem find_unused_nodes_recursive_group (t : NodeTree) (outer : string)
    (sa : bool) (g : Node) (sub : NodeTree) (m : node_id) :
  let unused := find_unused_nodes (Some t) outer sa in
  let nested := nested_tree_name outer g in
  let result := find_unused_nodes_recursive (Some t) outer sa in
  g ∈ nodes t →
  nid g ∈ dict_ids unused →
  is_group g = true →
  node_tree g = Some sub →
  m ∈ dict_ids (find_unused_nodes (Some sub) nested sa) →
  (nid g ∈ dict_ids result ∧ m ∈ dict_ids result) ∧
  (NoDup (nid <$> nodes t) →
   name g ≠ "" →
   (∀ g', g' ∈ nodes t → nid g' ∈ dict_ids unused →
          ¬ found_through outer sa g' (nid g)) →
   (∀ g', g' ∈ nodes t → nid g' ≠ nid g → nid g' ∈ dict_ids unused →
          ¬ found_through outer sa g' m) →
   (∀ k, k ∈ nodes sub →
         nid k ∈ dict_ids (find_unused_nodes (Some sub) nested sa) →
         ¬ found_through nested sa k m) →
   (∃ i, dict_get result (nid g) = Some i ∧ parent_tree i = stamp outer t) ∧
   (∃ i, dict_get result m = Some i ∧ parent_tree i = nested)).
Proof.
  intros unused nested result Hg Hu Hgrp Hsub Hm.
  assert (Hsel : is_unused_group unused g = true)
    by (by apply is_unused_group_true).
  assert (Hnest : nested_unused outer sa g = find_unused_nodes_rec sub nested sa)
    by (unfold nested_unused; by rewrite Hsub).
  assert (Hres : result = foldl (λ d n, if is_unused_group unused n
                                   then dict_update d (nested_unused outer sa n) else d)
                            unused (nodes t))
    by apply find_unused_nodes_rec_unfold.
  assert (Hm' : m ∈ dict_ids (nested_unused outer sa g)).
  { rewrite Hnest, find_unused_nodes_rec_unfold, expansion_ids. by left. }
  split.
  - split; rewrite Hres, expansion_ids; [by left|].
    right. exists g. auto.
  - intros Hnd Hname Hself Hother Hdeep. split.
    + destruct (proj2 (dict_get_ids unused (nid g)) Hu) as [i Hi].
      exists i. split.
      * rewrite Hres, expansion_get_other; [done|].
        intros n Hn [Hnu Hng]%is_unused_group_true Hin.
        by apply (Hself n Hn Hnu).
      * by apply find_unused_nodes_get in Hi as [? _].
    + destruct (proj2 (dict_get_ids _ m) Hm) as [i Hi].
      exists i. split.
      * rewrite Hres. apply (expansion_get outer sa unused _ _ g); auto.
        -- intros n Hn Hne [Hnu Hng]%is_unused_group_true Hin.
           by apply (Hother n Hn Hne Hnu).
        -- apply nested_unused_NoDup.
        -- rewrite Hnest, find_unused_nodes_rec_unfold, expansion_get_other; [done|].
           intros n Hn [Hnu Hng]%is_unused_group_true Hin.
           by apply (Hdeep n Hn Hnu).
      * apply find_unused_nodes_get in Hi as [Hi _]. rewrite Hi.
        unfold nested. by rewrite (nested_tree_name_truthy outer g Hname).
Qed.

Lemma find_unused_nodes_recursive_group_witness :
  let g := nd 2 "Group" "GROUP" (Some g_payload) 0 1 in
  let result := find_unused_nodes_recursive (Some g_one_group) "M" true in
  (nid g ∈ dict_ids result ∧ 11 ∈ dict_ids result) ∧
  (∃ i, dict_get result (nid g) = Some i ∧ parent_tree i = "M") ∧
  (∃ i, dict_get result 11 = Some i ∧ parent_tree i = "M.Group").
Proof.
  intros g result.
  assert (Hg : g ∈ nodes g_one_group) by (right; left).
  assert (Hu : nid g ∈ dict_ids (find_unused_nodes (Some g_one_group) "M" true))
    by (vm_compute; left).
  assert (Hm : 11 ∈ dict_ids (find_unused_nodes (Some g_payload)
                                (nested_tree_name "M" g) true))
    by (vm_compute; left).
  destruct (find_unused_nodes_recursive_group g_one_group "M" true g g_payload 11
              Hg Hu eq_refl eq_refl Hm) as [Hkeys Hstamps].
  split; [exact Hkeys|].
  apply Hstamps.
  - apply (bool_decide_unpack _). by vm_compute.
  - done.
  - intros g' Hin _ [Hgrp Hf].
    repeat (apply elem_of_cons in Hin as [->|Hin]);
      [discriminate Hgrp | vm_compute in Hf | inversion Hin].
    repeat (apply elem_of_cons in Hf as [Hf|Hf]; [discriminate Hf|]).
    inversion Hf.
  - intros g' Hin Hne _ [Hgrp Hf].
    repeat (apply elem_of_cons in Hin as [->|Hin]);
      [discriminate Hgrp | by destruct Hne | inversion Hin].
  - intros k Hin _ [Hgrp Hf].
    repeat (apply elem_of_cons in Hin as [->|Hin]);
      [discriminate Hgrp | discriminate Hgrp | inversion Hin].
Defined.

(** The amended statement at the example: one unused group node, the
    payload node stamped ["M.Group"]. *)
Example g_one_group_records :
  (λ kv, (nid kv.1, parent_tree kv.2)) <$>
    find_unused_nodes_recursive (Some g_one_group) "M" true
  = [(2, "M"); (11, "M.Group")] ∧
  (λ kv, (nid kv.1, parent_tree kv.2)) <$>
    find_unused_nodes_recursive (Some g_one_group) "" true
  = [(2, "Mat"); (11, "Group")].
Proof. split; by vm_compute. Qed.

(** C9, as stated, fails: on a null tree both functions return the
    empty dictionary; no error is raised. *)
Lemma null_graph_counterexample :
  find_unused_nodes_call None "" true = Returned [] ∧
  find_unused_nodes_recursive_call None "" true = Returned [] ∧
  ¬ (∃ e, find_unused_nodes_call None "" true = Raised e).
Proof. repeat split. intros [e H]. discriminate. Qed.

(** C9, amended.  On a null tree, and on a tree in which nothing is
    found (its unused set is empty), both analysis functions return the
    empty dictionary and raise nothing. *)
Theorem analysis_returns_empty (node_tree : option NodeTree)
    (parent_tree_name : string) (show_attributes : bool) :
  (∀ t, node_tree = Some t → unused_set t = ∅) →
  find_unused_nodes_call node_tree parent_tree_name show_attributes
    = Returned [] ∧
  find_unused_nodes_recursive_call node_tree parent_tree_name show_attributes
    = Returned [].
Proof.
  intros H. unfold find_unused_nodes_call, find_unused_nodes_recursive_call.
  destruct node_tree as [t|]; [|done]. specialize (H t eq_refl).
  assert (E : find_unused_nodes (Some t) parent_tree_name show_attributes = []).
  { unfold find_unused_nodes. destruct (get_output_nodes t); [done|].
    fold (unused_set t). rewrite H.
    replace (filter (λ n, nid n ∈ (∅ : gset node_id)) (nodes t)) with (@nil Node).
    - by destruct show_attributes.
    - symmetry. induction (nodes t) as [|x xs IH]; [done|].
      rewrite filter_cons. destruct (decide (nid x ∈ (∅ : gset node_id))); [set_solver|].
      exact IH. }
  split; [by rewrite E|]. f_equal. simpl.
  rewrite find_unused_nodes_rec_unfold, E.
  rewrite <- (foldl_ext_in (λ d _, d)); [apply foldl_const|].
  intros d n _. unfold is_unused_group.
  rewrite bool_decide_eq_false_2; [done | inversion 1].
Qed.

Lemma analysis_returns_empty_witness :
  (find_unused_nodes_call None "" true = Returned [] ∧
   find_unused_nodes_recursive_call None "" true = Returned []) ∧
  (find_unused_nodes_call (Some g_all_used) "" true = Returned [] ∧
   find_unused_nodes_recursive_call (Some g_all_used) "" true = Returned []).
Proof.
  split.
  - apply (analysis_returns_empty None "" true). intros t H. discriminate H.
  - apply (analysis_returns_empty (Some g_all_used) "" true).
    intros t H. injection H as <-. by vm_compute.
Defined.

(** ** The usage aggregator *)

Lemma usage_entry_frame m mtree node u i :
  info_type (usage_entry m mtree node u i) = info_type i ∧
  parent_tree (usage_entry m mtree node u i) = parent_tree i.
Proof. unfold usage_entry. by destruct (_ && _). Qed.

Lemma usage_entry_wf m mtree node u i :
  wf_info i → wf_info (usage_entry m mtree node u i).
Proof.
  intros [Hm Hc]. unfold usage_entry.
  generalize (is_group_connected_to_output (Some node) (Some mtree)).
  intros linked_out.
  destruct (is_group u && same_tree (node_tree u) (node_tree node)); simpl;
    [|by split].
  destruct (bool_decide (m ∉ materials i)) eqn:E; [|by split].
  apply bool_decide_eq_true in E.
  assert (Hm' : NoDup (materials i ++ [m])).
  { apply NoDup_app. split; [done|]. split; [|apply NoDup_singleton].
    intros x Hx ->%list_elem_of_singleton. done. }
  split; [exact Hm'|]. simpl.
  assert (Hc' : NoDup (default [] (connected_to_output i)) ∧
                default [] (connected_to_output i) ⊆ materials i).
  { destruct (connected_to_output i); simpl; [done|].
    split; [constructor | set_solver]. }
  destruct Hc' as [Hnd Hsub].
  destruct (bool_decide (m ∉ default [] (connected_to_output i))) eqn:E2.
  - apply bool_decide_eq_true in E2.
    destruct linked_out.
    + split; [|set_solver]. apply NoDup_app. split; [done|].
      split; [|apply NoDup_singleton].
      intros x Hx ->%list_elem_of_singleton. done.
    + split; [done | set_solver].
  - split; [done | set_solver].
Qed.

Lemma usage_node_frame m mtree d node :
  entry_frame <$> usage_node m mtree d node = entry_frame <$> d.
Proof.
  unfold usage_node. destruct (_ && _); [|done].
  rewrite <- list_fmap_compose. apply list_fmap_ext. intros _ [u i] _.
  unfold entry_frame. simpl.
  by destruct (usage_entry_frame m mtree node u i) as [-> ->].
Qed.

Lemma usage_node_wf m mtree d node :
  Forall (λ kv, wf_info kv.2) d →
  Forall (λ kv, wf_info kv.2) (usage_node m mtree d node).
Proof.
  intros H. unfold usage_node. destruct (_ && _); [|done].
  apply Forall_fmap. eapply Forall_impl; [exact H|].
  intros [u i] Hi. simpl in *. by apply usage_entry_wf.
Qed.

Lemma usage_material_frame d material :
  entry_frame <$> usage_material d material = entry_frame <$> d.
Proof.
  unfold usage_material. destruct (use_nodes material); [|done].
  destruct (mat_node_tree material) as [mtree|]; [|done].
  generalize (nodes mtree). intros l. revert d.
  induction l as [|n l IH]; intros d; simpl; [done|].
  by rewrite IH, usage_node_frame.
Qed.

Lemma usage_material_wf d material :
  Forall (λ kv, wf_info kv.2) d →
  Forall (λ kv, wf_info kv.2) (usage_material d material).
Proof.
  unfold usage_material. destruct (use_nodes material); [|done].
  destruct (mat_node_tree material) as [mtree|]; [|done].
  generalize (nodes mtree). intros l. revert d.
  induction l as [|n l IH]; intros d H; simpl; [done|].
  apply IH. by apply usage_node_wf.
Qed.

(** C10, amended.  [collect_group_usage] keeps the entries of the
    dictionary in place, each with its key, kind and containment path;
    and when every record is well formed on entry (as the records
    built by [find_unused_nodes] are), every record is well formed on
    return: its output-connected list is contained in its list of
    materials and both lists are free of duplicates. *)
Theorem collect_group_usage_invariant (unused_dict : Dict)
    (mats : list Material) :
  entry_frame <$> collect_group_usage unused_dict mats
    = entry_frame <$> unused_dict ∧
  dict_keys (collect_group_usage unused_dict mats) = dict_keys unused_dict ∧
  (Forall (λ kv, wf_info kv.2) unused_dict →
   Forall (λ kv, wf_info kv.2) (collect_group_usage unused_dict mats)).
Proof.
  unfold collect_group_usage.
  assert (E : entry_frame <$> foldl usage_material unused_dict mats
              = entry_frame <$> unused_dict).
  { revert unused_dict. induction mats as [|mt mats IH]; intros d; simpl; [done|].
    by rewrite IH, usage_material_frame. }
  split; [exact E|]. split.
  - unfold dict_keys.
    assert (Hfst : ∀ d : Dict,
              d.*1 = (λ f : Node * string * string, f.1.1) <$> (entry_frame <$> d)).
    { intros d. rewrite <- list_fmap_compose. by apply list_fmap_ext. }
    by rewrite (Hfst (foldl _ _ _)), (Hfst unused_dict), E.
  - clear E. revert unused_dict.
    induction mats as [|mt mats IH]; intros d Hwf; simpl; [done|].
    apply IH. by apply usage_material_wf.
Qed.

Lemma fresh_info_wf n tn : wf_info (fresh_info n tn).
Proof. split; [constructor|]. simpl. split; [constructor | done]. Qed.

Lemma find_unused_nodes_wf node_tree p sa :
  Forall (λ kv, wf_info kv.2) (find_unused_nodes node_tree p sa).
Proof.
  unfold find_unused_nodes. destruct node_tree as [t|]; [|constructor].
  destruct (get_output_nodes t); [constructor|].
  match goal with |- context [foldl ?f [] ?l] => generalize l end.
  assert (G : ∀ ns d, Forall (λ kv : Node * Info, wf_info kv.2) d →
            Forall (λ kv : Node * Info, wf_info kv.2)
              (foldl (λ d n0, dict_set d n0
                 (fresh_info n0 (if truthy p then p else tree_name t))) d ns)).
  { induction ns as [|x xs IH]; intros d Hd; simpl; [done|]. apply IH.
    clear IH. induction d as [|[n' i'] d IHd]; simpl.
    - constructor; [apply fresh_info_wf | constructor].
    - apply Forall_cons in Hd as [H1 H2].
      destruct (decide (nid n' = nid x)); constructor; auto.
      apply fresh_info_wf. }
  intros ns. apply G. constructor.
Qed.

Lemma dict_set_wf d n i :
  Forall (λ kv, wf_info kv.2) d → wf_info i →
  Forall (λ kv, wf_info kv.2) (dict_set d n i).
Proof.
  intros Hd Hi. induction d as [|[n' i'] d IH]; simpl.
  - by constructor.
  - apply Forall_cons in Hd as [H1 H2].
    destruct (decide (nid n' = nid n)); constructor; auto.
Qed.

Lemma dict_update_wf d o :
  Forall (λ kv, wf_info kv.2) d → Forall (λ kv, wf_info kv.2) o →
  Forall (λ kv, wf_info kv.2) (dict_update d o).
Proof.
  revert d. induction o as [|[n i] o IH]; intros d Hd Ho; [done|].
  apply Forall_cons in Ho as [H1 H2]. rewrite dict_update_cons.
  apply IH; [|done]. by apply dict_set_wf.
Qed.

Lemma tree_depth_sub t n sub :
  n ∈ nodes t → node_tree n = Some sub → tree_depth sub < tree_depth t.
Proof.
  destruct t as [i nm ns ls]. simpl. intros Hn Hsub.
  apply Nat.lt_succ_r.
  induction ns as [|x xs IH]; [inversion Hn|]. simpl.
  apply elem_of_cons in Hn as [<-|Hn].
  - rewrite Hsub. lia.
  - specialize (IH Hn). lia.
Qed.

(** The records of the recursive analysis are well formed, whatever
    the nesting of the groups. *)
Lemma find_unused_nodes_rec_wf t p sa :
  Forall (λ kv, wf_info kv.2) (find_unused_nodes_rec t p sa).
Proof.
  remember (tree_depth t) as k eqn:Ek.
  assert (Hk : tree_depth t ≤ k) by lia. clear Ek.
  revert t p sa Hk. induction k as [|k IH]; intros t p sa Hk.
  { destruct t. simpl in Hk. lia. }
  rewrite find_unused_nodes_rec_unfold.
  assert (G : ∀ l d, (∀ n, n ∈ l → n ∈ nodes t) →
            Forall (λ kv, wf_info kv.2) d →
            Forall (λ kv, wf_info kv.2)
              (foldl (λ d n, if is_unused_group (find_unused_nodes (Some t) p sa) n
                             then dict_update d (nested_unused p sa n) else d) d l)).
  { induction l as [|n l IHl]; intros d Hl Hd; simpl; [done|].
    apply IHl; [intros; apply Hl; by right|].
    destruct (is_unused_group _ n); [|done].
    apply dict_update_wf; [done|]. unfold nested_unused.
    destruct (node_tree n) as [sub|] eqn:Esub; [|constructor].
    apply IH. assert (tree_depth sub < tree_depth t); [|lia].
    eapply tree_depth_sub; [|exact Esub]. apply Hl. left. }
  apply G; [auto|]. apply find_unused_nodes_wf.
Qed.

Lemma collect_group_usage_invariant_witness :
  let d := find_unused_nodes_recursive (Some g_two_instances) "B" true in
  Forall (λ kv, wf_info kv.2) d ∧
  Forall (λ kv, wf_info kv.2) (collect_group_usage d [mat_A; mat_B2]).
Proof.
  intros d.
  assert (H : Forall (λ kv, wf_info kv.2) d).
  { apply (bool_decide_unpack _). by vm_compute. }
  split; [exact H|].
  exact (proj2 (proj2 (collect_group_usage_invariant d [mat_A; mat_B2])) H).
Defined.

(** C5 at the failing input: in material [B] the payload is
    instantiated twice, only the second instance has a linked output.
    The record of the unused instance lists [B] among the materials,
    but not among the materials with an output-connected instance. *)
Theorem collect_group_usage_second_instance :
  let d := find_unused_nodes_recursive (Some g_two_instances) "B" true in
  let inst2 := nd 3 "Group.001" "GROUP" (Some g_payload) 0 1 in
  inst2 ∈ nodes g_two_instances ∧
  is_group_connected_to_output (Some inst2) (Some g_two_instances) = true ∧
  dict_get (collect_group_usage d [mat_B2]) 2
    = Some (mkInfo "GROUP" ["B"] (Some []) "B").
Proof.
  cbv zeta. split; [right; right; left|]. split; by vm_compute.
Qed.

(** The scenario of the specification: instances in [A] (no link) and
    in [B] (linked output), one instance per material. *)
Example collect_group_usage_A_B :
  let d := find_unused_nodes_recursive (mat_node_tree mat_A) "A" true in
  dict_get (collect_group_usage d [mat_A; mat_B]) 2
    = Some (mkInfo "GROUP" ["A"; "B"] (Some ["B"]) "A").
Proof. by vm_compute. Qed.

(** ** The delete operator *)

(** C6 at the failing input: the active tree has an unused group node
    whose payload has an unused node (identity 11).  The analysis
    finds two nodes; the operator removes the group node from the
    active tree, then asks the active tree to remove the payload's
    node, which the host refuses: the operator is cancelled, and the
    payload's node is still in its own tree. *)
Theorem delete_unused_nested_node :
  dict_ids (find_unused_nodes_recursive (Some g_one_group) "" true) = [2; 11] ∧
  delete_unused_execute ctx_one_group
    = (CANCELLED, ERROR_exception "RuntimeError",
       Some (mkNodeTree 12 "Mat" [nd 1 "O" "OUTPUT_MATERIAL" None 1 0] [])) ∧
  11 ∈ nid <$> nodes g_payload.
Proof.
  split; [by vm_compute|]. split; [by vm_compute|]. right; left.
Qed.

Lemma filter_all {A} (P : A → Prop) `{∀ x, Decision (P x)} (l : list A) :
  (∀ x, x ∈ l → P x) → filter P l = l.
Proof.
  induction l as [|x l IH]; intros HP; [done|].
  rewrite filter_cons. destruct (decide (P x)) as [|Hn].
  - f_equal. apply IH. intros. apply HP. by right.
  - destruct Hn. apply HP. left.
Qed.

(** When every node of the dictionary belongs to the active tree, the
    loop removes them all: the remaining nodes are the nodes that are
    not keys, and no remaining link has a removed node at either end. *)
Lemma remove_nodes_owned (ks : list Node) : ∀ t,
  NoDup (nid <$> ks) →
  (∀ k, k ∈ ks → nid k ∈ nid <$> nodes t) →
  remove_nodes t ks =
    (mkNodeTree (tid t) (tree_name t)
       (filter (λ n, nid n ∉ nid <$> ks) (nodes t))
       (filter (λ l, (from_node l ∉ nid <$> ks) ∧ (to_node l ∉ nid <$> ks)) (links t)),
     None).
Proof.
  induction ks as [|k ks IH]; intros t Hnd Hin; simpl.
  - destruct t as [i nm ns ls]. simpl. f_equal. f_equal.
    + symmetry. apply filter_all. intros. inversion 1.
    + symmetry. apply filter_all. intros. split; inversion 1.
  - apply NoDup_cons in Hnd as [Hk Hnd].
    unfold nodes_remove. rewrite bool_decide_eq_true_2 by (apply Hin; left).
    rewrite IH; [|done|].
    + simpl. f_equal. f_equal.
      * rewrite list_filter_filter. apply list_filter_iff. intros n.
        rewrite not_elem_of_cons. tauto.
      * rewrite list_filter_filter. apply list_filter_iff. intros l.
        rewrite !not_elem_of_cons. tauto.
    + intros k' Hk'. simpl. rewrite list_elem_of_fmap.
      specialize (Hin k' (list_elem_of_further _ _ _ Hk')).
      apply list_elem_of_fmap in Hin as (n & E & Hn). exists n. split; [done|].
      apply list_elem_of_filter. split; [|done]. rewrite <- E.
      intros E'. apply Hk. rewrite <- E'. by apply list_elem_of_fmap_2.
Qed.

(** C6 holds when the analysis finds nodes of the active tree only:
    the operator finishes, reports the number of records, removes
    exactly the nodes of the dictionary and leaves no link to them. *)
Lemma delete_unused_owned (t : NodeTree) :
  let d := find_unused_nodes_recursive (Some t) "" true in
  NoDup (nid <$> nodes t) →
  d ≠ [] →
  (∀ k, k ∈ dict_ids d → k ∈ nid <$> nodes t) →
  ∃ t',
    delete_unused_execute (mkContext (Some (mkSpaceData (Some t))))
      = (FINISHED, INFO_deleted (length d), Some t') ∧
    nodes t' = filter (λ n, nid n ∉ dict_ids d) (nodes t) ∧
    length (nodes t') + length d = length (nodes t) ∧
    (∀ l, l ∈ links t' →
          l ∈ links t ∧ (from_node l ∉ dict_ids d) ∧ (to_node l ∉ dict_ids d)).
Proof.
  intros d Hnd Hne Hown.
  assert (Hd : NoDup (dict_ids d)) by apply find_unused_nodes_rec_NoDup.
  exists (mkNodeTree (tid t) (tree_name t)
            (filter (λ n, nid n ∉ dict_ids d) (nodes t))
            (filter (λ l, (from_node l ∉ dict_ids d) ∧ (to_node l ∉ dict_ids d)) (links t))).
  split; [|split; [done|split]].
  - unfold delete_unused_execute. cbn [get_active_node_tree space_data sd_node_tree].
    fold d. destruct d as [|kv d'] eqn:Ed; [done|]. rewrite <- Ed in *.
    rewrite remove_nodes_owned; [done | exact Hd |].
    intros k Hk. apply Hown. by apply list_elem_of_fmap_2.
  - cbn [nodes].
    pose proof (filter_app_complement (λ n, nid n ∉ dict_ids d) (nodes t)) as Hp.
    apply Permutation_length in Hp. rewrite length_app in Hp. rewrite <- Hp.
    f_equal.
    assert (Hq : nid <$> filter (λ n, ¬ (nid n ∉ dict_ids d)) (nodes t) ≡ₚ dict_ids d).
    { apply NoDup_Permutation; [by apply filter_ids_NoDup | done |].
      intros x. rewrite list_elem_of_fmap. split.
      - intros (n & -> & Hn). apply list_elem_of_filter in Hn as [Hn _].
        destruct (decide (nid n ∈ dict_ids d)); [done | by destruct Hn].
      - intros Hx. specialize (Hown x Hx).
        apply list_elem_of_fmap in Hown as (n & -> & Hn). exists n. split; [done|].
        apply list_elem_of_filter. split; [|done]. tauto. }
    apply Permutation_length in Hq. unfold dict_ids, dict_keys in Hq.
    by rewrite !length_fmap in Hq.
  - intros l Hl. cbn [links] in Hl. apply list_elem_of_filter in Hl. tauto.
Qed.

(** ** The layout engine *)

(** *** Sorting *)

Lemma insert_by_perm s k l : insert_by s k l ≡ₚ k :: l.
Proof.
  induction l as [|j l IH]; simpl; [done|].
  destruct (key_lt _ _); [|done].
  rewrite IH. apply Permutation_swap.
Qed.

Lemma sorted_by_key_perm s l : sorted_by_key s l ≡ₚ l.
Proof.
  induction l as [|k l IH]; simpl; [done|].
  by rewrite insert_by_perm, IH.
Qed.

Lemma key_lt_le a b : key_lt a b = true → key_le a b = true.
Proof.
  unfold key_le, key_lt. destruct a as [a1 a2], b as [b1 b2]. simpl.
  intros H. apply negb_true_iff.
  apply orb_true_iff in H. apply orb_false_iff. split.
  - apply Z.ltb_ge. destruct H as [H|[H _]%andb_true_iff]; lia.
  - apply andb_false_iff.
    destruct H as [H|[H1 H2]%andb_true_iff]; [left | right]; lia.
Qed.

Lemma key_le_trans a b c :
  key_le a b = true → key_le b c = true → key_le a c = true.
Proof.
  unfold key_le, key_lt. destruct a as [a1 a2], b as [b1 b2], c as [c1 c2].
  simpl. rewrite !negb_true_iff, !orb_false_iff, !andb_false_iff.
  rewrite !Z.ltb_ge, !Z.eqb_neq. lia.
Qed.

Lemma insert_by_sorted s k l :
  StronglySorted (key_ordered s) l → StronglySorted (key_ordered s) (insert_by s k l).
Proof.
  induction l as [|j l IH]; simpl; intros H.
  - repeat constructor.
  - apply StronglySorted_inv in H as [Hl Hj].
    destruct (key_lt (sort_key s j) (sort_key s k)) eqn:E.
    + constructor; [auto|]. rewrite insert_by_perm. constructor; [|done].
      by apply key_lt_le.
    + assert (Hkj : key_ordered s k j) by (unfold key_ordered, key_le; by rewrite E).
      constructor; [by constructor|]. constructor; [done|].
      eapply Forall_impl; [exact Hj|]. intros x Hx.
      unfold key_ordered in *. eapply key_le_trans; eauto.
Qed.

Lemma sorted_by_key_sorted s l : StronglySorted (key_ordered s) (sorted_by_key s l).
Proof.
  induction l as [|k l IH]; simpl; [constructor|]. by apply insert_by_sorted.
Qed.

(** *** Minimum, maximum and sum *)

Lemma foldl_min_spec l : ∀ x,
  (foldl Z.min x l = x ∨ foldl Z.min x l ∈ l) ∧
  (foldl Z.min x l ≤ x)%Z ∧ ∀ y, y ∈ l → (foldl Z.min x l ≤ y)%Z.
Proof.
  induction l as [|z l IH]; intros x; simpl.
  - split; [by left|]. split; [lia|]. intros y Hy. inversion Hy.
  - destruct (IH (Z.min x z)) as (H1 & H2 & H3). split; [|split].
    + destruct H1 as [H1|H1]; [|right; by right].
      rewrite H1. destruct (Z.min_spec x z) as [[_ ->]|[_ ->]]; [by left|right; left].
    + lia.
    + intros y [->|Hy]%elem_of_cons; [lia | auto].
Qed.

Lemma min_of_spec d l :
  l ≠ [] → min_of d l ∈ l ∧ ∀ y, y ∈ l → (min_of d l ≤ y)%Z.
Proof.
  destruct l as [|x l]; [done|]. intros _. simpl.
  destruct (foldl_min_spec l x) as (H1 & H2 & H3). split.
  - destruct H1 as [->|H1]; [left | by right].
  - intros y [->|Hy]%elem_of_cons; auto.
Qed.

Lemma foldl_max_spec l : ∀ x,
  (foldl Z.max x l = x ∨ foldl Z.max x l ∈ l) ∧
  (x ≤ foldl Z.max x l)%Z ∧ ∀ y, y ∈ l → (y ≤ foldl Z.max x l)%Z.
Proof.
  induction l as [|z l IH]; intros x; simpl.
  - split; [by left|]. split; [lia|]. intros y Hy. inversion Hy.
  - destruct (IH (Z.max x z)) as (H1 & H2 & H3). split; [|split].
    + destruct H1 as [H1|H1]; [|right; by right].
      rewrite H1. destruct (Z.max_spec x z) as [[_ ->]|[_ ->]]; [right; left|by left].
    + lia.
    + intros y [->|Hy]%elem_of_cons; [lia | auto].
Qed.

Lemma max_of_spec d l :
  l ≠ [] → max_of d l ∈ l ∧ ∀ y, y ∈ l → (y ≤ max_of d l)%Z.
Proof.
  destruct l as [|x l]; [done|]. intros _. simpl.
  destruct (foldl_max_spec l x) as (H1 & H2 & H3). split.
  - destruct H1 as [->|H1]; [left | by right].
  - intros y [->|Hy]%elem_of_cons; auto.
Qed.

Lemma min_of_perm d l l' : l ≡ₚ l' → min_of d l = min_of d l'.
Proof.
  intros Hp. destruct l as [|x l].
  - apply Permutation_nil_l in Hp. by subst.
  - assert (x :: l ≠ []) as Hl by done.
    assert (l' ≠ []) as Hl'.
    { intros ->. by apply Permutation_nil_r in Hp. }
    assert (Hiff : ∀ y, y ∈ x :: l ↔ y ∈ l') by (intros y; by rewrite Hp).
    destruct (min_of_spec d _ Hl) as [H1 H2], (min_of_spec d _ Hl') as [H3 H4].
    apply Hiff in H1. apply Hiff in H3.
    specialize (H2 _ H3). specialize (H4 _ H1). lia.
Qed.

Lemma max_of_perm d l l' : l ≡ₚ l' → max_of d l = max_of d l'.
Proof.
  intros Hp. destruct l as [|x l].
  - apply Permutation_nil_l in Hp. by subst.
  - assert (x :: l ≠ []) as Hl by done.
    assert (l' ≠ []) as Hl'.
    { intros ->. by apply Permutation_nil_r in Hp. }
    assert (Hiff : ∀ y, y ∈ x :: l ↔ y ∈ l') by (intros y; by rewrite Hp).
    destruct (max_of_spec d _ Hl) as [H1 H2], (max_of_spec d _ Hl') as [H3 H4].
    apply Hiff in H1. apply Hiff in H3.
    specialize (H2 _ H3). specialize (H4 _ H1). lia.
Qed.


Lemma max_list_snoc l x : max_list (l ++ [x]) = Z.max x (max_list l).
Proof.
  unfold max_list. induction l as [|y l IH]; simpl; [lia|]. rewrite IH. lia.
Qed.

(** *** Positions in a row-major grid *)

Lemma select_snoc (P : nat → Prop) `{∀ i, Decision (P i)} l n :
  select P (l ++ [n]) = select P l ++ (if decide (P (length l)) then [n] else []).
Proof.
  unfold select. rewrite length_app. simpl.
  replace (length l + 1) with (S (length l)) by lia.
  rewrite seq_S, filter_app, omap_app. simpl. f_equal.
  - apply list_omap_ext. apply Forall2_same_length_lookup. split; [done|].
    intros i x y Hx Hy. assert (x = y) as <- by congruence.
    apply list_elem_of_lookup_2 in Hx. apply list_elem_of_filter in Hx as [_ Hx].
    apply elem_of_seq in Hx. apply lookup_app_l. lia.
  - rewrite filter_cons, filter_nil. destruct (decide (P (length l))); [|done].
    simpl. by rewrite list_lookup_middle.
Qed.

Lemma select_nil (P : nat → Prop) `{∀ i, Decision (P i)} l :
  (∀ i, i < length l → ¬ P i) → select P l = [].
Proof.
  induction l as [|n l IH] using rev_ind; intros Hn; [done|].
  rewrite select_snoc. rewrite length_app in Hn. simpl in Hn.
  rewrite IH by (intros; apply Hn; lia).
  destruct (decide (P (length l))) as [HP|]; [|done].
  destruct (Hn (length l)); [lia | done].
Qed.

Section grid_arith.
Context (cols : nat) (Hcols : cols ≠ 0).

Lemma div_eq_iff i r : i / cols = r ↔ r * cols ≤ i < r * cols + cols.
Proof.
  pose proof (Nat.div_mod_eq i cols) as E.
  pose proof (Nat.mod_upper_bound i cols Hcols) as Hm.
  split.
  - intros <-. nia.
  - intros [H1 H2]. symmetry. apply (Nat.div_unique i cols r (i - r * cols)); lia.
Qed.

Lemma div_mod_S k :
  (S k mod cols = 0 ∧ S k / cols = S (k / cols)) ∨
  (S k mod cols ≠ 0 ∧ S k / cols = k / cols).
Proof.
  pose proof (Nat.div_mod_eq k cols) as E.
  pose proof (Nat.mod_upper_bound k cols Hcols) as Hm.
  destruct (decide (S (k mod cols) = cols)) as [Hc|Hc].
  - left. split.
    + symmetry. apply (Nat.mod_unique (S k) cols (S (k / cols)) 0); lia.
    + symmetry. apply (Nat.div_unique (S k) cols (S (k / cols)) 0); lia.
  - right. split.
    + rewrite <- (Nat.mod_unique (S k) cols (k / cols) (S (k mod cols))); lia.
    + symmetry. apply (Nat.div_unique (S k) cols (k / cols) (S (k mod cols))); lia.
Qed.

Lemma row_nodes_take_drop r l :
  row_nodes cols r l = take cols (drop (r * cols) l).
Proof.
  unfold row_nodes. induction l as [|n l IH] using rev_ind.
  - by rewrite drop_nil, take_nil.
  - rewrite select_snoc, IH.
    destruct (decide (length l / cols = r)) as [E|E].
    + apply div_eq_iff in E as [E1 E2].
      rewrite drop_app_le by lia.
      rewrite (take_ge (drop _ l)) by (rewrite length_drop; lia).
      rewrite take_ge; [done|]. rewrite length_app, length_drop. simpl. lia.
    + rewrite app_nil_r.
      destruct (decide (length l < r * cols)) as [Hlt|Hge].
      * rewrite !drop_ge; [done | | lia]. rewrite length_app. simpl. lia.
      * assert (r * cols + cols ≤ length l).
        { destruct (decide (r * cols + cols ≤ length l)); [done|].
          destruct E. apply div_eq_iff. lia. }
        rewrite drop_app_le by lia.
        rewrite take_app_le; [done|]. rewrite length_drop. lia.
Qed.

Lemma row_nodes_lookup l i n :
  l !! i = Some n → row_nodes cols (i / cols) l !! (i mod cols) = Some n.
Proof.
  intros Hi. rewrite row_nodes_take_drop.
  pose proof (Nat.mod_upper_bound i cols Hcols) as Hm.
  rewrite lookup_take_lt by done. rewrite lookup_drop.
  pose proof (Nat.div_mod_eq i cols) as E.
  replace (i / cols * cols + i mod cols) with i by lia. done.
Qed.

Lemma row_nodes_lookup_inv l r c n :
  row_nodes cols r l !! c = Some n → c < cols ∧ l !! (r * cols + c) = Some n.
Proof.
  rewrite row_nodes_take_drop. intros H.
  rewrite lookup_take in H. destruct (decide (c < cols)); [|done].
  by rewrite lookup_drop in H.
Qed.

Local Abbreviation nrows := (nrows cols).

Lemma nrows_S k : nrows (S k) = S (k / cols).
Proof.
  unfold nrows. destruct (div_mod_S k) as [[H1 H2]|[H1 H2]].
  - rewrite decide_True by done. done.
  - rewrite decide_False by done. by rewrite H2.
Qed.

Lemma nrows_le k : nrows k ≤ k / cols ↔ k mod cols = 0.
Proof. unfold nrows. destruct (decide (k mod cols = 0)); split; intros; lia. Qed.

Lemma div_lt_nrows i k : i < k → i / cols < nrows k.
Proof.
  intros Hik. destruct k as [|k]; [lia|]. rewrite nrows_S.
  assert (i / cols ≤ k / cols); [|lia]. apply Nat.Div0.div_le_mono. lia.
Qed.

End grid_arith.

(** *** The first loop: column widths, row heights and rows *)

Section grid_loop.
Context (s : Store) (cols : nat) (Hcols : cols ≠ 0).

Lemma grid_inv_init : grid_inv s cols [] (mkGrid (replicate cols 0%Z) [] []).
Proof.
  assert (Hn : nrows cols 0 = 0).
  { unfold nrows. rewrite Nat.Div0.mod_0_l, Nat.Div0.div_0_l. by case_decide. }
  split; simpl; rewrite ?Hn; try done.
  - apply length_replicate.
  - intros c Hc. by rewrite lookup_replicate_2.
  - intros r Hr. lia.
  - intros r Hr. lia.
Qed.

Lemma grid_step_inv done g n :
  grid_inv s cols done g →
  grid_inv s cols (done ++ [n]) (grid_step s cols g (length done) n).
Proof.
  intros [Hcl Hc Hrl Hhl Hr Hh].
  set (k := length done) in *. set (r := k / cols). set (c := k mod cols).
  assert (Hlen : length (done ++ [n]) = S k) by (rewrite length_app; simpl; lia).
  assert (Hnr : nrows cols (length (done ++ [n])) = S r)
    by (rewrite Hlen; by apply nrows_S).
  assert (Hcc : c < cols) by (by apply Nat.mod_upper_bound).
  assert (Hrow : ∀ r', row_nodes cols r' (done ++ [n])
                       = row_nodes cols r' done ++ (if decide (r = r') then [n] else [])).
  { intros r'. unfold row_nodes. rewrite select_snoc. fold k. fold r.
    by destruct (decide (r = r')). }
  assert (Hcol : ∀ c', column_nodes cols c' (done ++ [n])
                       = column_nodes cols c' done ++ (if decide (c = c') then [n] else [])).
  { intros c'. unfold column_nodes. rewrite select_snoc. fold k. fold c.
    by destruct (decide (c = c')). }
  (* the state after the test on the number of rows *)
  set (g1 := if decide (length (grid g) ≤ r)
             then mkGrid (col_w g) (row_h g ++ [0%Z]) (grid g ++ [[]]) else g).
  assert (H1 : col_w g1 = col_w g ∧
               length (grid g1) = S r ∧ length (row_h g1) = S r ∧
               (∀ r', r' < r → grid g1 !! r' = Some (row_nodes cols r' done)) ∧
               (∀ r', r' < r → row_h g1 !! r' = Some (row_height s cols done r')) ∧
               grid g1 !! r = Some (row_nodes cols r done) ∧
               row_h g1 !! r = Some (row_height s cols done r)).
  { unfold g1. destruct (decide (length (grid g) ≤ r)) as [Hle|Hgt]; simpl.
    - rewrite Hrl in Hle. apply (nrows_le cols Hcols) in Hle.
      assert (Hk : nrows cols k = r) by (unfold nrows; by rewrite decide_True).
      assert (Hempty : row_nodes cols r done = []).
      { unfold row_nodes. apply select_nil. intros i Hi E.
        apply (div_eq_iff cols Hcols) in E.
        pose proof (Nat.div_mod_eq k cols). fold k in Hi. fold r in H. lia. }
      rewrite !length_app, Hrl, Hhl, Hk. simpl.
      split; [done|]. split; [lia|]. split; [lia|].
      split; [|split; [|split]].
      + intros r' Hr'. rewrite lookup_app_l by (rewrite Hrl, Hk; lia).
        apply Hr. rewrite Hk. lia.
      + intros r' Hr'. rewrite lookup_app_l by (rewrite Hhl, Hk; lia).
        apply Hh. rewrite Hk. lia.
      + rewrite Hempty. rewrite lookup_app_r by (rewrite Hrl, Hk; lia).
        rewrite Hrl, Hk. by replace (r - r) with 0 by lia.
      + unfold row_height. rewrite Hempty. simpl.
        rewrite lookup_app_r by (rewrite Hhl, Hk; lia).
        rewrite Hhl, Hk. by replace (r - r) with 0 by lia.
    - assert (Hk : nrows cols k = S r).
      { unfold nrows. fold r. case_decide; [|done].
        rewrite Hrl in Hgt. unfold nrows in Hgt. rewrite decide_True in Hgt by done.
        fold r in Hgt. lia. }
      rewrite Hrl, Hhl, Hk. split; [done|]. split; [done|]. split; [done|].
      split; [|split; [|split]].
      + intros r' Hr'. apply Hr. rewrite Hk. lia.
      + intros r' Hr'. apply Hh. rewrite Hk. lia.
      + apply Hr. rewrite Hk. lia.
      + apply Hh. rewrite Hk. lia. }
  destruct H1 as (Hcw & Hgl & Hrhl & Hlow & Hlowh & Hat & Hath).
  unfold grid_step. fold k. fold r. fold c. fold g1.
  split; cbn [col_w row_h grid].
  - by rewrite length_alter, Hcw.
  - intros c' Hc'. rewrite Hcw. unfold column_width. rewrite Hcol.
    destruct (decide (c = c')) as [<-|Hne].
    + rewrite list_lookup_alter_eq, Hc by done. simpl.
      rewrite fmap_app. simpl. by rewrite max_list_snoc.
    + rewrite list_lookup_alter_ne by done. rewrite app_nil_r. by apply Hc.
  - by rewrite length_alter, Hnr.
  - by rewrite length_alter, Hnr.
  - intros r' Hr'. rewrite Hnr in Hr'. rewrite Hrow.
    destruct (decide (r = r')) as [<-|Hne].
    + by rewrite list_lookup_alter_eq, Hat.
    + rewrite list_lookup_alter_ne by done. rewrite app_nil_r. apply Hlow. lia.
  - intros r' Hr'. rewrite Hnr in Hr'. unfold row_height. rewrite Hrow.
    destruct (decide (r = r')) as [<-|Hne].
    + rewrite list_lookup_alter_eq, Hath. simpl.
      rewrite fmap_app. simpl. by rewrite max_list_snoc.
    + rewrite list_lookup_alter_ne by done. rewrite app_nil_r. apply Hlowh. lia.
Qed.

Lemma grid_loop_inv rest : ∀ done g,
  grid_inv s cols done g →
  grid_inv s cols (done ++ rest) (grid_loop s cols g (length done) rest).
Proof.
  induction rest as [|n rest IH]; intros done g Hg; simpl.
  - by rewrite app_nil_r.
  - replace (done ++ n :: rest) with ((done ++ [n]) ++ rest)
      by (by rewrite <- app_assoc).
    replace (S (length done)) with (length (done ++ [n]))
      by (rewrite length_app; simpl; lia).
    apply IH. by apply grid_step_inv.
Qed.

Lemma grid_loop_spec l :
  grid_inv s cols l (grid_loop s cols (mkGrid (replicate cols 0%Z) [] []) 0 l).
Proof. apply (grid_loop_inv l [] _ grid_inv_init). Qed.

End grid_loop.

(** *** Updates of the store *)

Lemma update_eq s k f : update s k f k = f (s k).
Proof. unfold update. by rewrite decide_True. Qed.

Lemma update_ne s k f j : j ≠ k → update s k f j = s j.
Proof. intros H. unfold update. by rewrite decide_False. Qed.

(** *** The second loop: placing the rows *)

Section placing.
Context (origin_x origin_y gap_x gap_y : Z).

Lemma place_row_other y colw row : ∀ s c0 n,
  n ∉ row → place_row origin_x gap_x y colw s c0 row n = s n.
Proof.
  induction row as [|m row IH]; intros s c0 n Hn; simpl; [done|].
  apply not_elem_of_cons in Hn as [Hne Hn].
  rewrite IH by done. unfold set_location. by rewrite update_ne.
Qed.

Lemma place_row_at y colw row : ∀ s c0 j n,
  row !! j = Some n →
  (∀ j', row !! j' = Some n → j' = j) →
  location_x (place_row origin_x gap_x y colw s c0 row n)
    = (origin_x + sum (take (c0 + j) colw) + Z.of_nat (c0 + j) * gap_x)%Z ∧
  location_y (place_row origin_x gap_x y colw s c0 row n) = y.
Proof.
  induction row as [|m row IH]; intros s c0 j n Hj Huniq; [done|].
  simpl. destruct j as [|j].
  - simpl in Hj. injection Hj as ->.
    rewrite place_row_other.
    + unfold set_location. rewrite update_eq. simpl.
      by replace (c0 + 0) with c0 by lia.
    + intros Hin. apply list_elem_of_lookup in Hin as [j' Hj'].
      specialize (Huniq (S j') Hj'). lia.
  - simpl in Hj. replace (c0 + S j) with (S c0 + j) by lia.
    apply IH; [done|]. intros j' Hj'.
    specialize (Huniq (S j') Hj'). lia.
Qed.

Lemma place_rows_other g rows : ∀ s r0 n,
  (∀ row, row ∈ rows → n ∉ row) →
  place_rows origin_x origin_y gap_x gap_y g s r0 rows n = s n.
Proof.
  induction rows as [|row rows IH]; intros s r0 n Hn; simpl; [done|].
  rewrite IH by (intros; apply Hn; by right).
  apply place_row_other. apply Hn. left.
Qed.

Lemma place_rows_at g rows : ∀ s r0 i row j n,
  rows !! i = Some row →
  row !! j = Some n →
  (∀ i' row' j', rows !! i' = Some row' → row' !! j' = Some n → i' = i ∧ j' = j) →
  location_x (place_rows origin_x origin_y gap_x gap_y g s r0 rows n)
    = (origin_x + sum (take j (col_w g)) + Z.of_nat j * gap_x)%Z ∧
  location_y (place_rows origin_x origin_y gap_x gap_y g s r0 rows n)
    = (origin_y - sum (take (r0 + i) (row_h g)) - Z.of_nat (r0 + i) * gap_y)%Z.
Proof.
  induction rows as [|row0 rows IH]; intros s r0 i row j n Hi Hj Huniq; [done|].
  simpl. destruct i as [|i].
  - simpl in Hi. injection Hi as ->.
    rewrite place_rows_other.
    + replace (r0 + 0) with r0 by lia.
      apply (place_row_at _ _ row s 0 j n Hj).
      intros j' Hj'. by destruct (Huniq 0 row j' eq_refl Hj').
    + intros row' Hrow' Hin.
      apply list_elem_of_lookup in Hrow' as [i' Hi'].
      apply list_elem_of_lookup in Hin as [j' Hj'].
      destruct (Huniq (S i') row' j' Hi' Hj'). lia.
  - simpl in Hi. replace (r0 + S i) with (S r0 + i) by lia.
    apply (IH _ _ i row j n Hi Hj).
    intros i' row' j' Hi' Hj'.
    destruct (Huniq (S i') row' j' Hi' Hj'). split; [lia | done].
Qed.

End placing.

(** *** The columns and rows of the final grid *)

Section final_grid.
Context (s : Store) (cols : nat) (Hcols : cols ≠ 0) (l : list node_id) (g : Grid).
Context (Hg : grid_inv s cols l g).

Lemma col_w_final c :
  c ≤ cols → take c (col_w g) = column_width s cols l <$> seq 0 c.
Proof.
  intros Hc. destruct Hg as [Hcl Hcw _ _ _ _].
  apply list_eq. intros i. rewrite lookup_take, list_lookup_fmap.
  destruct (decide (i < c)) as [Hi|Hi].
  - rewrite lookup_seq_lt by done. simpl. apply Hcw. lia.
  - rewrite lookup_seq_ge by lia. done.
Qed.

Lemma row_h_final r :
  r ≤ nrows cols (length l) → take r (row_h g) = row_height s cols l <$> seq 0 r.
Proof.
  intros Hr. destruct Hg as [_ _ _ Hhl _ Hh].
  apply list_eq. intros i. rewrite lookup_take, list_lookup_fmap.
  destruct (decide (i < r)) as [Hi|Hi].
  - rewrite lookup_seq_lt by done. simpl. apply Hh. lia.
  - rewrite lookup_seq_ge by lia. done.
Qed.

Lemma grid_position i n :
  NoDup l → l !! i = Some n →
  grid g !! (i / cols) = Some (row_nodes cols (i / cols) l) ∧
  row_nodes cols (i / cols) l !! (i mod cols) = Some n ∧
  ∀ r' row' c', grid g !! r' = Some row' → row' !! c' = Some n →
                r' = i / cols ∧ c' = i mod cols.
Proof.
  intros Hnd Hi. destruct Hg as [_ _ Hrl _ Hr _].
  assert (Hlt : i < length l) by (by eapply lookup_lt_Some).
  split; [apply Hr; by apply div_lt_nrows|].
  split; [by apply row_nodes_lookup|].
  intros r' row' c' Hr' Hc'.
  assert (r' < nrows cols (length l)).
  { rewrite <- Hrl. by eapply lookup_lt_Some. }
  rewrite Hr in Hr' by done. injection Hr' as <-.
  apply (row_nodes_lookup_inv cols Hcols) in Hc' as [Hc' Hl'].
  assert (E : r' * cols + c' = i) by (eapply NoDup_lookup; eauto).
  split.
  - symmetry. apply (div_eq_iff cols Hcols). lia.
  - apply (Nat.mod_unique i cols r' c'); lia.
Qed.

End final_grid.

(** *** The pass over the attribute nodes *)

Lemma assoc_set_keys d a p k :
  k ∈ (assoc_set d a p).*1 → k ∈ d.*1 ∨ k = a.
Proof.
  induction d as [|[a' p'] d IH]; simpl.
  - intros ->%list_elem_of_singleton. by right.
  - destruct (decide (a' = a)); simpl; rewrite !elem_of_cons; [tauto|].
    intros [?|?]; [tauto|]. destruct IH; auto.
Qed.

Lemma attr_parents_keys s attrs regs k :
  k ∈ (attr_parents s attrs regs).*1 → k ∈ attrs.
Proof.
  unfold attr_parents.
  assert (G : ∀ d, k ∈ (foldl (λ d attr,
              match list_find (λ p, name (s p) = replace_Attr (name (s attr))) regs with
              | Some (_, p) => assoc_set d attr p
              | None => d
              end) d attrs).*1 → k ∈ d.*1 ∨ k ∈ attrs).
  { induction attrs as [|a attrs IH]; intros d; simpl; [auto|].
    intros H. apply IH in H as [H|H]; [|right; by right].
    destruct (list_find _ regs) as [[i p]|]; [|by left].
    apply assoc_set_keys in H as [?| ->]; [by left | right; left]. }
  intros H. apply G in H as [H|H]; [inversion H | done].
Qed.

Lemma place_attr_other s ap n : n ≠ ap.1 → place_attr s ap n = s n.
Proof. intros H. unfold place_attr. by rewrite !update_ne. Qed.

Lemma place_attrs_other d : ∀ s n,
  n ∉ d.*1 → foldl place_attr s d n = s n.
Proof.
  induction d as [|ap d IH]; intros s n Hn; simpl; [done|].
  rewrite fmap_cons in Hn. apply not_elem_of_cons in Hn as [Hne Hn].
  rewrite IH by done. by apply place_attr_other.
Qed.

(** *** A loop of updates over a list of nodes *)

Lemma foldl_update_other (f : Node → Node) l : ∀ s n,
  n ∉ l → foldl (λ s k, update s k f) s l n = s n.
Proof.
  induction l as [|k l IH]; intros s n Hn; simpl; [done|].
  apply not_elem_of_cons in Hn as [Hne Hn].
  rewrite IH by done. by apply update_ne.
Qed.

Lemma foldl_update_in (f : Node → Node) l : ∀ s n,
  NoDup l → n ∈ l → foldl (λ s k, update s k f) s l n = f (s n).
Proof.
  induction l as [|k l IH]; intros s n Hnd Hn; [inversion Hn|].
  apply NoDup_cons in Hnd as [Hk Hnd]. simpl.
  apply elem_of_cons in Hn as [->|Hn].
  - rewrite foldl_update_other by done. apply update_eq.
  - rewrite IH by done. rewrite update_ne; [done|]. intros ->. done.
Qed.

Lemma fresh_id_fresh ids : fresh_id ids ∉ ids.
Proof.
  unfold fresh_id. intros H.
  assert (G : ∀ x, x ∈ ids → x ≤ foldr max 0 ids).
  { clear H. induction ids as [|y ids IH]; intros x Hx; [inversion Hx|].
    simpl. apply elem_of_cons in Hx as [->|Hx]; [lia|].
    specialize (IH x Hx). lia. }
  specialize (G _ H). lia.
Qed.

(** *** [layout_nodes_grid] *)

Lemma regular_not_attr s nodes n :
  n ∈ regular_nodes s nodes → n ∉ filter (λ k, is_tmp_attr s k = true) nodes.
Proof.
  intros [H1 _]%list_elem_of_filter [H2 _]%list_elem_of_filter. congruence.
Qed.

(** The nodes outside the list are left as they are. *)
Lemma layout_nodes_grid_other s nodes cols gap_x gap_y s' n :
  layout_nodes_grid s nodes cols gap_x gap_y = Returned s' →
  n ∉ nodes → s' n = s n.
Proof.
  unfold layout_nodes_grid. destruct nodes as [|n0 nodes0] eqn:En.
  { intros H. by injection H as <-. }
  rewrite <- En. clear En n0 nodes0.
  destruct (filter (λ k, is_tmp_attr s k = false) nodes) as [|r0 regs] eqn:Er.
  { intros H. by injection H as <-. }
  rewrite <- Er. destruct (decide (cols = 0)); [done|].
  intros H Hn. injection H as <-.
  rewrite place_attrs_other.
  - apply place_rows_other. intros row Hrow Hin.
    set (L := sorted_by_key s (filter (λ k, is_tmp_attr s k = false) nodes)) in *.
    pose proof (grid_loop_spec s cols ltac:(done) L) as Hg.
    apply list_elem_of_lookup in Hrow as [r Hr].
    assert (r < nrows cols (length L)).
    { rewrite <- (gi_rows _ _ _ _ Hg). by eapply lookup_lt_Some. }
    rewrite (gi_row _ _ _ _ Hg) in Hr by done. injection Hr as <-.
    apply list_elem_of_lookup in Hin as [c Hc].
    apply (row_nodes_lookup_inv cols ltac:(done)) in Hc as [_ Hc].
    apply list_elem_of_lookup_2 in Hc. unfold L in Hc.
    rewrite sorted_by_key_perm in Hc.
    apply list_elem_of_filter in Hc as [_ Hc]. done.
  - intros Hin. apply attr_parents_keys in Hin.
    apply list_elem_of_filter in Hin as [_ Hin]. done.
Qed.

(** C8, amended.  For a column count other than zero and a list whose
    regular nodes (those not labelled [_tmp_attr]) are distinct,
    [layout_nodes_grid] returns; the regular nodes are sorted by
    descending vertical, then ascending horizontal position; the node
    at position [i] of the sorted list, that is at row [i / cols] and
    column [i mod cols], is placed at
    [x = origin_x + sum of the widths of the columns before it + c * gap_x],
    [y = origin_y - sum of the heights of the rows before it - r * gap_y],
    where the width of a column (the height of a row) is the largest
    width (height) of its nodes and [origin_x], [origin_y] are the
    smallest x and the largest y of the regular nodes before the call. *)
Theorem layout_nodes_grid_positions (s : Store) (nodes : list node_id)
    (cols : nat) (gap_x gap_y : Z) :
  let regular := regular_nodes s nodes in
  let sorted := sorted_by_key s regular in
  let origin_x := min_of 0 ((λ n, location_x (s n)) <$> regular) in
  let origin_y := max_of 0 ((λ n, location_y (s n)) <$> regular) in
  cols ≠ 0 →
  NoDup regular →
  sorted ≡ₚ regular ∧
  StronglySorted (key_ordered s) sorted ∧
  ∃ s', layout_nodes_grid s nodes cols gap_x gap_y = Returned s' ∧
    ∀ i n, sorted !! i = Some n →
      location_x (s' n) = grid_x s cols gap_x sorted origin_x (i mod cols) ∧
      location_y (s' n) = grid_y s cols gap_y sorted origin_y (i / cols).
Proof.
  cbv zeta. intros Hcols Hnd.
  split; [apply sorted_by_key_perm|]. split; [apply sorted_by_key_sorted|].
  unfold layout_nodes_grid. destruct nodes as [|n0 nodes0] eqn:En.
  { exists s. split; [done|]. intros i n Hi. destruct i; inversion Hi. }
  rewrite <- En in *. clear En n0 nodes0.
  fold (regular_nodes s nodes).
  set (regular := regular_nodes s nodes) in *.
  set (sorted := sorted_by_key s regular).
  assert (Hperm : sorted ≡ₚ regular) by apply sorted_by_key_perm.
  destruct (decide (regular = [])) as [Er|Er].
  { exists s. unfold sorted. rewrite Er. split; [done|].
    intros i n Hi. destruct i; inversion Hi. }
  assert (Hmatch : ∀ (A : Type) (a b : A),
            match regular with [] => a | _ :: _ => b end = b)
    by (intros; by destruct regular).
  rewrite Hmatch. rewrite decide_False by done. fold sorted.
  eexists. split; [reflexivity|]. intros i n Hi.
  set (g := grid_loop s cols (mkGrid (replicate cols 0%Z) [] []) 0 sorted).
  pose proof (grid_loop_spec s cols Hcols sorted) as Hg. fold g in Hg.
  assert (Hsnd : NoDup sorted) by (by rewrite Hperm).
  assert (Hreg : n ∈ regular).
  { rewrite <- Hperm. by eapply list_elem_of_lookup_2. }
  rewrite place_attrs_other.
  2:{ intros Hin. apply attr_parents_keys in Hin.
      by apply (regular_not_attr s nodes n). }
  destruct (grid_position s cols Hcols sorted g Hg i n Hsnd Hi) as (Hrow & Hcol & Huniq).
  destruct (place_rows_at
              (min_of 0 ((λ n, location_x (s n)) <$> sorted))
              (max_of 0 ((λ n, location_y (s n)) <$> sorted))
              gap_x gap_y g (grid g) s 0 _ _ _ n Hrow Hcol Huniq) as [Hx Hy].
  rewrite Nat.add_0_l in Hy. rewrite Hx, Hy. unfold grid_x, grid_y.
  pose proof (Nat.mod_upper_bound i cols Hcols) as Hm.
  assert (Hlt : i < length sorted) by (by eapply lookup_lt_Some).
  rewrite (col_w_final s cols Hcols sorted g Hg) by lia.
  rewrite (row_h_final s cols Hcols sorted g Hg)
    by (simpl; pose proof (div_lt_nrows cols Hcols i _ Hlt); lia).
  rewrite (min_of_perm 0 _ ((λ n, location_x (s n)) <$> regular))
    by (by apply fmap_Permutation).
  rewrite (max_of_perm 0 _ ((λ n, location_y (s n)) <$> regular))
    by (by apply fmap_Permutation).
  done.
Qed.

(** C8, as stated, fails when the list holds an attribute node: the
    attribute node 4 is the first of all the nodes in sorted order and
    has the smallest x, yet it is not placed at the origin of the
    grid; it is put 150 to the left of the node it was generated for. *)
Lemma layout_attribute_node_counterexample :
  let nodes := [1; 2; 3; 4] in
  let sorted := sorted_by_key s_layout nodes in
  let origin_x := min_of 0 ((λ n, location_x (s_layout n)) <$> nodes) in
  sorted !! 0 = Some 4 ∧
  ∃ s', layout_nodes_grid s_layout nodes 2 120 80 = Returned s' ∧
        location_x (s' 4) ≠ grid_x s_layout 2 120 sorted origin_x (0 mod 2).
Proof.
  cbv zeta. split; [by vm_compute|].
  eexists. split; [reflexivity|]. vm_compute. discriminate.
Qed.

Lemma layout_nodes_grid_positions_witness :
  let regular := regular_nodes s_layout [1; 2; 3; 4] in
  sorted_by_key s_layout regular ≡ₚ regular ∧
  StronglySorted (key_ordered s_layout) (sorted_by_key s_layout regular).
Proof.
  cbv zeta.
  assert (Hc : 2 ≠ 0) by done.
  assert (Hnd : NoDup (regular_nodes s_layout [1; 2; 3; 4])).
  { apply (bool_decide_unpack _). by vm_compute. }
  destruct (layout_nodes_grid_positions s_layout [1; 2; 3; 4] 2 120 80 Hc Hnd)
    as (H1 & H2 & _).
  split; [exact H1 | exact H2].
Defined.

(** The layout of the example: nodes 2 and 1 in the first row, node 3
    in the second row, the attribute node 150 to the left of node 2. *)
Example layout_example :
  ∃ s', layout_nodes_grid s_layout [1; 2; 3; 4] 2 120 80 = Returned s' ∧
        locations s' [1; 2; 3; 4]
        = [(1, 260%Z, 50%Z); (2, 0%Z, 50%Z); (3, 0%Z, (-110)%Z); (4, (-150)%Z, 50%Z)].
Proof. eexists. split; [reflexivity|]. by vm_compute. Qed.

Example layout_zero_columns :
  layout_nodes_grid s_layout [1; 2; 3; 4] 0 120 80 = Raised "ZeroDivisionError".
Proof. by vm_compute. Qed.

(** *** [place_group_left_of_used] *)

Lemma layout_nodes_grid_returns s nodes cols gap_x gap_y :
  cols ≠ 0 → ∃ s', layout_nodes_grid s nodes cols gap_x gap_y = Returned s'.
Proof.
  intros Hc. unfold layout_nodes_grid. destruct nodes; [by eexists|].
  destruct (filter _ _); [by eexists|]. rewrite decide_False by done. by eexists.
Qed.

(** ** Further properties of the usage aggregator *)

Lemma fmap_entry_id (d : Dict) : (λ kv : Node * Info, (kv.1, kv.2)) <$> d = d.
Proof. induction d as [|[u i] d IH]; [done|]. rewrite fmap_cons. by f_equal. Qed.

Lemma usage_node_entrywise m mtree d node :
  usage_node m mtree d node =
  (λ kv, (kv.1, if is_group node && bool_decide (is_Some (node_tree node))
                then usage_entry m mtree node kv.1 kv.2 else kv.2)) <$> d.
Proof.
  unfold usage_node. destruct (_ && _); [done|].
  by rewrite fmap_entry_id.
Qed.

Lemma usage_material_entrywise d material :
  usage_material d material =
  (λ kv, (kv.1, usage_of_entry (instances_of material) kv.1 kv.2)) <$> d.
Proof.
  unfold usage_material, instances_of. destruct (use_nodes material).
  2:{ simpl. by rewrite fmap_entry_id. }
  destruct (mat_node_tree material) as [mtree|].
  2:{ simpl. by rewrite fmap_entry_id. }
  generalize (nodes mtree). intros l. revert d.
  induction l as [|n l IH]; intros d.
  - simpl. by rewrite fmap_entry_id.
  - simpl. rewrite IH, usage_node_entrywise, <- list_fmap_compose.
    apply list_fmap_ext. intros _ [u i] _. simpl. f_equal.
    rewrite filter_cons. unfold usage_of_entry.
    destruct (is_group n && bool_decide (is_Some (node_tree n))) eqn:E.
    + rewrite decide_True by done. done.
    + rewrite decide_False by (by rewrite not_true_iff_false). done.
Qed.

Lemma collect_group_usage_entrywise d mats :
  collect_group_usage d mats =
  (λ kv, (kv.1, usage_of_entry (instances mats) kv.1 kv.2)) <$> d.
Proof.
  unfold collect_group_usage, instances. revert d.
  induction mats as [|mt mats IH]; intros d; simpl.
  - by rewrite fmap_entry_id.
  - rewrite IH, usage_material_entrywise, <- list_fmap_compose.
    apply list_fmap_ext. intros _ [u i] _. simpl. f_equal.
    unfold usage_of_entry. by rewrite foldl_app.
Qed.

Lemma usage_entry_unmatched v u i :
  matches u v = false → usage_entry v.1.1 v.1.2 v.2 u i = i.
Proof. unfold matches, usage_entry. by intros ->. Qed.

Lemma usage_entry_present v u i :
  v.1.1 ∈ materials i → usage_entry v.1.1 v.1.2 v.2 u i = i.
Proof.
  intros H. unfold usage_entry.
  rewrite (bool_decide_eq_false_2 (v.1.1 ∉ materials i)) by tauto.
  by rewrite andb_false_r.
Qed.

Lemma usage_entry_materials v u i :
  materials (usage_entry v.1.1 v.1.2 v.2 u i) =
  if matches u v && bool_decide (v.1.1 ∉ materials i)
  then materials i ++ [v.1.1] else materials i.
Proof.
  unfold matches, usage_entry.
  by destruct (is_group u && same_tree (node_tree u) (node_tree v.2)
               && bool_decide (v.1.1 ∉ materials i)).
Qed.

Lemma usage_entry_matched_in v u i :
  matches u v = true → v.1.1 ∈ materials (usage_entry v.1.1 v.1.2 v.2 u i).
Proof.
  intros H. rewrite usage_entry_materials, H. simpl.
  destruct (bool_decide (v.1.1 ∉ materials i)) eqn:E.
  - rewrite elem_of_app. right. left.
  - apply bool_decide_eq_false in E.
    by destruct (decide (v.1.1 ∈ materials i)).
Qed.

Lemma usage_entry_prefix v u i :
  materials i `prefix_of` materials (usage_entry v.1.1 v.1.2 v.2 u i).
Proof.
  rewrite usage_entry_materials. destruct (_ && _); [|done].
  by apply prefix_app_r.
Qed.

Lemma usage_of_entry_prefix insts u : ∀ i,
  materials i `prefix_of` materials (usage_of_entry insts u i).
Proof.
  induction insts as [|v insts IH]; intros i; simpl; [done|].
  etrans; [apply (usage_entry_prefix v u i)|]. apply IH.
Qed.

Lemma usage_of_entry_materials insts u : ∀ i m,
  m ∈ materials (usage_of_entry insts u i) ↔
  m ∈ materials i ∨ ∃ v, v ∈ insts ∧ matches u v = true ∧ v.1.1 = m.
Proof.
  induction insts as [|v insts IH]; intros i m; simpl.
  - split; [auto | intros [?|(? & H & _)]; [done | inversion H]].
  - rewrite IH, usage_entry_materials. split.
    + intros [H|(v' & Hv' & Hm & E)].
      * destruct (matches u v) eqn:Em; simpl in H; [|by left].
        destruct (bool_decide _); [|by left].
        apply elem_of_app in H as [H|H]; [by left|].
        apply list_elem_of_singleton in H. right. exists v. split; [left|]. auto.
      * right. exists v'. split; [by right|]. auto.
    + intros [H|(v' & Hv' & Hm & E)].
      * left. destruct (_ && _); [|done]. rewrite elem_of_app. by left.
      * apply elem_of_cons in Hv' as [->|Hv'].
        -- left. rewrite Hm. simpl. subst m.
           destruct (bool_decide (v.1.1 ∉ materials i)) eqn:E.
           ++ rewrite elem_of_app. right. left.
           ++ apply bool_decide_eq_false in E.
              by destruct (decide (v.1.1 ∈ materials i)).
        -- right. exists v'. auto.
Qed.

Lemma usage_of_entry_fixed insts u : ∀ i,
  (∀ v, v ∈ insts → matches u v = true → v.1.1 ∈ materials i) →
  usage_of_entry insts u i = i.
Proof.
  induction insts as [|v insts IH]; intros i H; simpl; [done|].
  assert (E : usage_entry v.1.1 v.1.2 v.2 u i = i).
  { destruct (matches u v) eqn:Em.
    - apply usage_entry_present. apply H; [left | done].
    - by apply usage_entry_unmatched. }
  rewrite E. apply IH. intros v' Hv'. apply H. by right.
Qed.

Lemma usage_of_entry_idempotent insts u i :
  usage_of_entry insts u (usage_of_entry insts u i) = usage_of_entry insts u i.
Proof.
  apply usage_of_entry_fixed. intros v Hv Hm.
  apply usage_of_entry_materials. right. exists v. auto.
Qed.

Lemma elem_of_instances v mats :
  v ∈ instances mats ↔
  ∃ mt, mt ∈ mats ∧ use_nodes mt = true ∧ mat_node_tree mt = Some v.1.2 ∧
        mat_name mt = v.1.1 ∧ v.2 ∈ nodes v.1.2 ∧
        is_group v.2 = true ∧ is_Some (node_tree v.2).
Proof.
  unfold instances. rewrite list_elem_of_bind. split.
  - intros (mt & Hv & Hmt). exists mt. split; [done|].
    unfold instances_of in Hv. destruct (use_nodes mt); [|inversion Hv].
    destruct (mat_node_tree mt) as [mtree|]; [|inversion Hv].
    apply list_elem_of_fmap in Hv as (node & -> & Hn).
    apply list_elem_of_filter in Hn as [Hc Hn]. simpl.
    apply andb_true_iff in Hc as [Hg Hs]. apply bool_decide_eq_true in Hs.
    repeat split; auto.
  - intros (mt & Hmt & Hu & Ht & Hname & Hn & Hg & Hs). exists mt. split; [|done].
    unfold instances_of. rewrite Hu, Ht. apply list_elem_of_fmap.
    exists v.2. split.
    + destruct v as [[m t] n]. simpl in *. by subst.
    + apply list_elem_of_filter. split; [|done].
      rewrite Hg. simpl. by apply bool_decide_eq_true.
Qed.

Lemma collect_group_usage_lookup d mats j u info :
  d !! j = Some (u, info) →
  collect_group_usage d mats !! j
  = Some (u, usage_of_entry (instances mats) u info).
Proof.
  intros Hj. rewrite collect_group_usage_entrywise.
  apply list_lookup_fmap_Some. exists (u, info). by split.
Qed.

(** X1.  After [collect_group_usage] the record of an unused node
    still holds the materials it held, in their place, followed by new
    ones; a material is listed exactly when it was listed before or
    the node is a group node and the material uses nodes and has, in
    its tree, a group node with the same payload. *)
Theorem collect_group_usage_materials (d : Dict) (mats : list Material)
    (j : nat) (u : Node) (info : Info) :
  d !! j = Some (u, info) →
  ∃ info',
    collect_group_usage d mats !! j = Some (u, info') ∧
    materials info `prefix_of` materials info' ∧
    ∀ m, m ∈ materials info' ↔
         m ∈ materials info ∨
         (is_group u = true ∧
          ∃ mt mtree node,
            mt ∈ mats ∧ use_nodes mt = true ∧ mat_node_tree mt = Some mtree ∧
            mat_name mt = m ∧ node ∈ nodes mtree ∧ is_group node = true ∧
            is_Some (node_tree node) ∧
            same_tree (node_tree u) (node_tree node) = true).
Proof.
  intros Hj. exists (usage_of_entry (instances mats) u info).
  split; [|split].
  - by apply collect_group_usage_lookup.
  - apply usage_of_entry_prefix.
  - intros m. rewrite usage_of_entry_materials. split.
    + intros [?|(v & Hv & Hm & E)]; [by left|]. right.
      apply andb_true_iff in Hm as [Hg Hs]. split; [done|].
      apply elem_of_instances in Hv as (mt & ? & ? & ? & ? & ? & ? & ?).
      exists mt, v.1.2, v.2. repeat split; auto. congruence.
    + intros [?|(Hg & mt & mtree & node & ? & ? & ? & ? & ? & ? & ? & Hs)]; [by left|].
      right. exists (m, mtree, node). split; [|split; [|done]].
      * apply elem_of_instances. exists mt. simpl. repeat split; auto.
      * unfold matches. simpl. by rewrite Hg, Hs.
Qed.

Lemma collect_group_usage_materials_witness :
  let u := nd 2 "Group" "GROUP" (Some g_payload) 0 1 in
  let d : Dict := [(u, fresh_info u "Mat")] in
  d !! 0 = Some (u, fresh_info u "Mat") ∧
  ∃ info', collect_group_usage d [mat_A; mat_B] !! 0 = Some (u, info') ∧
           materials (fresh_info u "Mat") `prefix_of` materials info'.
Proof.
  intros u d. split; [reflexivity|].
  destruct (collect_group_usage_materials d [mat_A; mat_B] 0 u
              (fresh_info u "Mat") eq_refl) as (info' & H1 & H2 & _).
  exists info'. split; [exact H1 | exact H2].
Defined.

(** X2.  [collect_group_usage] leaves alone the record of a node that
    is not a group node, and the record of a group node whose payload
    no group node of the node-using materials has. *)
Theorem collect_group_usage_untouched (d : Dict) (mats : list Material)
    (j : nat) (u : Node) (info : Info) :
  d !! j = Some (u, info) →
  (is_group u = false ∨
   ∀ mt mtree node,
     mt ∈ mats → use_nodes mt = true → mat_node_tree mt = Some mtree →
     node ∈ nodes mtree → is_group node = true → is_Some (node_tree node) →
     same_tree (node_tree u) (node_tree node) = false) →
  collect_group_usage d mats !! j = Some (u, info).
Proof.
  intros Hj Hno.
  rewrite (collect_group_usage_lookup d mats j u info Hj).
  do 2 f_equal. unfold usage_of_entry.
  assert (H : ∀ v, v ∈ instances mats → matches u v = false).
  { intros v Hv. unfold matches. destruct Hno as [Hg|H]; [by rewrite Hg|].
    apply elem_of_instances in Hv as (mt & ? & ? & ? & ? & ? & ? & ?).
    rewrite (H mt v.1.2 v.2) by done. apply andb_false_r. }
  revert H. generalize (instances mats). intros l.
  induction l as [|v l IH]; intros H; simpl; [done|].
  rewrite usage_entry_unmatched by (apply H; left).
  apply IH. intros v' Hv'. apply H. by right.
Qed.

Lemma collect_group_usage_untouched_witness :
  let u := nd 3 "B" "TEX_IMAGE" None 1 1 in
  let d : Dict := [(u, fresh_info u "Material")] in
  collect_group_usage d [mat_A; mat_B] !! 0 = Some (u, fresh_info u "Material").
Proof.
  intros u d.
  apply (collect_group_usage_untouched d [mat_A; mat_B] 0 u
           (fresh_info u "Material")); [reflexivity|].
  left. reflexivity.
Defined.

(** X3.  A second call of [collect_group_usage] with the same materials
    changes nothing. *)
Theorem collect_group_usage_idempotent (d : Dict) (mats : list Material) :
  collect_group_usage (collect_group_usage d mats) mats
  = collect_group_usage d mats.
Proof.
  rewrite !collect_group_usage_entrywise, <- list_fmap_compose.
  apply list_fmap_ext. intros _ [u i] _. simpl.
  by rewrite usage_of_entry_idempotent.
Qed.

(** X4.  [is_group_connected_to_output] answers [True] exactly when a
    link leaves one of the output sockets of the node, wherever that
    link leads; a missing node or tree gives [False]. *)
Theorem is_group_connected_to_output_spec (g : Node) (t : NodeTree) :
  (is_group_connected_to_output (Some g) (Some t) = true ↔
   ∃ l, l ∈ links t ∧ from_node l = nid g ∧ from_socket l < outputs g) ∧
  is_group_connected_to_output None (Some t) = false ∧
  is_group_connected_to_output (Some g) None = false.
Proof.
  split; [|done]. unfold is_group_connected_to_output.
  destruct (decide (outputs g = 0)) as [E|E].
  { split; [done|]. intros (l & _ & _ & H). lia. }
  rewrite existsb_exists. split.
  - intros (i & Hi & Hl). apply in_seq in Hi.
    unfold is_linked in Hl. apply bool_decide_eq_true in Hl.
    destruct (output_links t (nid g) i) as [|l ls] eqn:El; [done|].
    assert (Hin : l ∈ output_links t (nid g) i) by (rewrite El; left).
    apply list_elem_of_filter in Hin as [[H1 H2] H3].
    exists l. repeat split; auto. lia.
  - intros (l & Hl & H1 & H2). exists (from_socket l). split.
    + apply in_seq. lia.
    + unfold is_linked. apply bool_decide_eq_true.
      assert (Hin : l ∈ output_links t (nid g) (from_socket l))
        by (apply list_elem_of_filter; auto).
      intros E'. rewrite E' in Hin. inversion Hin.
Qed.

Lemma usage_entry_connected v u i m :
  m ∈ default [] (connected_to_output (usage_entry v.1.1 v.1.2 v.2 u i)) →
  m ∈ default [] (connected_to_output i) ∨
  (matches u v = true ∧ v.1.1 = m ∧
   is_group_connected_to_output (Some v.2) (Some v.1.2) = true).
Proof.
  unfold usage_entry, matches.
  destruct (is_group u && same_tree (node_tree u) (node_tree v.2)) eqn:Em;
    cbn [andb]; [|by left].
  destruct (bool_decide (v.1.1 ∉ materials i)); [|by left].
  cbn [connected_to_output default from_option].
  destruct (bool_decide (v.1.1 ∉ default [] (connected_to_output i)));
    [|by left].
  destruct (is_group_connected_to_output (Some v.2) (Some v.1.2)) eqn:Ec;
    [|by left].
  unfold id. rewrite elem_of_app. intros [H|H]; [by left|].
  apply list_elem_of_singleton in H. by right.
Qed.

Lemma usage_of_entry_connected insts u : ∀ i m,
  m ∈ default [] (connected_to_output (usage_of_entry insts u i)) →
  m ∈ default [] (connected_to_output i) ∨
  ∃ v, v ∈ insts ∧ matches u v = true ∧ v.1.1 = m ∧
       is_group_connected_to_output (Some v.2) (Some v.1.2) = true.
Proof.
  induction insts as [|v insts IH]; intros i m; simpl; [by left|].
  intros H. apply IH in H as [H|(v' & Hv' & H)].
  - apply usage_entry_connected in H as [H|H]; [by left|].
    right. exists v. split; [left | done].
  - right. exists v'. split; [by right | done].
Qed.

(** X5.  [collect_group_usage] never lists a material as connected to
    the output without cause: a name in the output-connected list of a
    record was there before the call, or it is the name of a
    node-using material whose tree holds a group node with the payload
    of the record's node and with a linked output socket. *)
Theorem collect_group_usage_connected_sound (d : Dict) (mats : list Material)
    (j : nat) (u : Node) (info : Info) :
  d !! j = Some (u, info) →
  ∃ info',
    collect_group_usage d mats !! j = Some (u, info') ∧
    ∀ m, m ∈ default [] (connected_to_output info') →
         m ∈ default [] (connected_to_output info) ∨
         (is_group u = true ∧
          ∃ mt mtree node,
            mt ∈ mats ∧ use_nodes mt = true ∧ mat_node_tree mt = Some mtree ∧
            mat_name mt = m ∧ node ∈ nodes mtree ∧ is_group node = true ∧
            same_tree (node_tree u) (node_tree node) = true ∧
            is_group_connected_to_output (Some node) (Some mtree) = true).
Proof.
  intros Hj. exists (usage_of_entry (instances mats) u info).
  split; [by apply collect_group_usage_lookup|].
  intros m Hm. apply usage_of_entry_connected in Hm as [?|(v & Hv & Hma & E & Hc)];
    [by left|].
  right. apply andb_true_iff in Hma as [Hg Hs]. split; [done|].
  apply elem_of_instances in Hv as (mt & ? & ? & ? & ? & ? & ? & ?).
  exists mt, v.1.2, v.2. repeat split; auto. congruence.
Qed.

Lemma collect_group_usage_connected_sound_witness :
  let u := nd 2 "Group" "GROUP" (Some g_payload) 0 1 in
  let d : Dict := [(u, fresh_info u "Mat")] in
  ∃ info', collect_group_usage d [mat_A; mat_B] !! 0 = Some (u, info').
Proof.
  intros u d.
  destruct (collect_group_usage_connected_sound d [mat_A; mat_B] 0 u
              (fresh_info u "Mat") eq_refl) as (info' & H1 & _).
  exists info'. exact H1.
Defined.

(** ** Further properties of the analysis of one tree *)

(** X6.  In a tree with an output node, [find_unused_nodes] reports a
    node exactly when it is a node of the tree that no chain of links
    joins to an output node and, when attributes are hidden, that is
    not an attribute node. *)
Theorem find_unused_nodes_reported (t : NodeTree) (p : string) (sa : bool)
    (k : node_id) :
  wf_tree t →
  get_output_nodes t ≠ [] →
  k ∈ dict_ids (find_unused_nodes (Some t) p sa) ↔
  ∃ n, n ∈ nodes t ∧ nid n = k ∧
       (∀ o, o ∈ get_output_nodes t → ¬ connected t (nid o) k) ∧
       (sa = false → is_attribute n = false).
Proof.
  intros Hwf Hout. rewrite find_unused_nodes_ids by done.
  assert (Hu : ∀ n, n ∈ nodes t → nid n = k →
            k ∈ unused_set t ↔
            ∀ o, o ∈ get_output_nodes t → ¬ connected t (nid o) k).
  { intros n Hn Ek. unfold unused_set. rewrite elem_of_difference.
    rewrite traverse_from_outputs_follows. split.
    - intros [_ Hno] o Ho Hc. apply Hno. exists o. split; [done|].
      by apply rtc_follows_connected.
    - intros Hno. split.
      + unfold all_nodes. rewrite elem_of_list_to_set, <- Ek.
        by apply list_elem_of_fmap_2.
      + intros (o & Ho & Hc). apply (Hno o Ho).
        by apply rtc_follows_connected. }
  split.
  - intros (n & Hn & Ek & Hk & Ha). exists n. repeat split; auto.
    by apply (Hu n).
  - intros (n & Hn & Ek & Hk & Ha). exists n. repeat split; auto.
    by apply (Hu n).
Qed.

Lemma find_unused_nodes_reported_witness :
  3 ∈ dict_ids (find_unused_nodes (Some g_simple) "" false) ↔
  ∃ n, n ∈ nodes g_simple ∧ nid n = 3 ∧
       (∀ o, o ∈ get_output_nodes g_simple → ¬ connected g_simple (nid o) 3) ∧
       (false = false → is_attribute n = false).
Proof.
  apply (find_unused_nodes_reported g_simple "" false 3).
  - unfold wf_tree. apply (bool_decide_unpack _). by vm_compute.
  - by vm_compute.
Defined.

(** ** Further properties of the recursive analysis *)

Lemma dict_set_Forall (P : Info → Prop) d n i :
  Forall (λ kv, P kv.2) d → P i → Forall (λ kv, P kv.2) (dict_set d n i).
Proof.
  intros Hd Hi. induction d as [|[n' i'] d IH]; simpl.
  - by constructor.
  - apply Forall_cons in Hd as [H1 H2].
    destruct (decide (nid n' = nid n)); constructor; auto.
Qed.

Lemma dict_update_Forall (P : Info → Prop) o : ∀ d,
  Forall (λ kv, P kv.2) d → Forall (λ kv, P kv.2) o →
  Forall (λ kv, P kv.2) (dict_update d o).
Proof.
  unfold dict_update. induction o as [|[n i] o IH]; intros d Hd Ho; simpl; [done|].
  apply Forall_cons in Ho as [H1 H2]. apply IH; [|done].
  by apply dict_set_Forall.
Qed.

Lemma find_unused_nodes_fresh node_tree p sa :
  Forall (λ kv, is_fresh kv.2) (find_unused_nodes node_tree p sa).
Proof.
  unfold find_unused_nodes. destruct node_tree as [t|]; [|constructor].
  destruct (get_output_nodes t); [constructor|].
  match goal with |- context [foldl ?f [] ?l] => generalize l end.
  assert (G : ∀ ns d, Forall (λ kv : Node * Info, is_fresh kv.2) d →
            Forall (λ kv : Node * Info, is_fresh kv.2)
              (foldl (λ d n0, dict_set d n0
                 (fresh_info n0 (if truthy p then p else tree_name t))) d ns)).
  { induction ns as [|x xs IH]; intros d Hd; simpl; [done|]. apply IH.
    by apply (dict_set_Forall is_fresh). }
  intros ns. apply G. constructor.
Qed.

Lemma find_unused_nodes_rec_fresh t p sa :
  Forall (λ kv, is_fresh kv.2) (find_unused_nodes_rec t p sa).
Proof.
  remember (tree_depth t) as k eqn:Ek.
  assert (Hk : tree_depth t ≤ k) by lia. clear Ek.
  revert t p sa Hk. induction k as [|k IH]; intros t p sa Hk.
  { destruct t. simpl in Hk. lia. }
  rewrite find_unused_nodes_rec_unfold.
  assert (G : ∀ l d, (∀ n, n ∈ l → n ∈ nodes t) →
            Forall (λ kv, is_fresh kv.2) d →
            Forall (λ kv, is_fresh kv.2)
              (foldl (λ d n, if is_unused_group (find_unused_nodes (Some t) p sa) n
                             then dict_update d (nested_unused p sa n) else d) d l)).
  { induction l as [|n l IHl]; intros d Hl Hd; simpl; [done|].
    apply IHl; [intros; apply Hl; by right|].
    destruct (is_unused_group _ n); [|done].
    apply (dict_update_Forall is_fresh); [done|]. unfold nested_unused.
    destruct (node_tree n) as [sub|] eqn:Esub; [|constructor].
    apply IH. assert (tree_depth sub < tree_depth t); [|lia].
    eapply tree_depth_sub; [|exact Esub]. apply Hl. left. }
  apply G; [auto|]. apply find_unused_nodes_fresh.
Qed.

(** X7.  Every record the recursive analysis returns is as
    [find_unused_nodes] created it, whatever the nesting of the groups
    and the merging of their dictionaries: no material and no
    output-connected material is listed yet. *)
Theorem find_unused_nodes_recursive_fresh (node_tree : option NodeTree)
    (p : string) (sa : bool) :
  Forall (λ kv, materials kv.2 = [] ∧ connected_to_output kv.2 = Some [])
         (find_unused_nodes_recursive node_tree p sa).
Proof.
  destruct node_tree as [t|]; [|constructor].
  apply find_unused_nodes_rec_fresh.
Qed.

(** One level of the recursion, on the reported identities. *)
Lemma find_unused_nodes_rec_ids t p sa k :
  k ∈ dict_ids (find_unused_nodes_rec t p sa) ↔
  k ∈ dict_ids (find_unused_nodes (Some t) p sa) ∨
  ∃ g sub, g ∈ nodes t ∧
           nid g ∈ dict_ids (find_unused_nodes (Some t) p sa) ∧
           is_group g = true ∧ node_tree g = Some sub ∧
           k ∈ dict_ids (find_unused_nodes_rec sub (nested_tree_name p g) sa).
Proof.
  rewrite find_unused_nodes_rec_unfold, expansion_ids. split.
  - intros [?|(g & Hg & Hu & Hk)]; [by left|]. right.
    apply is_unused_group_true in Hu as [Hu Hgr].
    unfold nested_unused in Hk.
    destruct (node_tree g) as [sub|] eqn:Es; [|inversion Hk].
    exists g, sub. auto.
  - intros [?|(g & sub & Hg & Hu & Hgr & Es & Hk)]; [by left|]. right.
    exists g. split; [done|]. split; [by apply is_unused_group_true|].
    unfold nested_unused. by rewrite Es.
Qed.

Lemma find_unused_nodes_rec_reported sa : ∀ k t p x,
  tree_depth t ≤ k →
  x ∈ dict_ids (find_unused_nodes_rec t p sa) ↔ reported sa t x.
Proof.
  induction k as [|k IH]; intros t p x Hk.
  { destruct t. simpl in Hk. lia. }
  rewrite find_unused_nodes_rec_ids. split.
  - intros [H|(g & sub & Hg & Hu & Hgr & Es & Hx)].
    + apply reported_here. by apply (find_unused_nodes_ids_independent _ p "").
    + apply (reported_nested sa t g sub); auto.
      * by apply (find_unused_nodes_ids_independent _ p "").
      * apply (IH sub (nested_tree_name p g)); [|done].
        pose proof (tree_depth_sub t g sub Hg Es). lia.
  - intros H. inversion H as [t' k' Hx|t' g sub k' Hg Hu Hgr Es Hx]; subst.
    + left. by apply (find_unused_nodes_ids_independent _ "" p).
    + right. exists g, sub. repeat split; auto.
      * by apply (find_unused_nodes_ids_independent _ "" p).
      * apply (IH sub (nested_tree_name p g)); [|done].
        pose proof (tree_depth_sub t g sub Hg Es). lia.
Qed.

(** X8.  The recursive analysis reports a node exactly when a chain of
    unused group nodes leads to it: the node is unused in the tree, or
    it is reported for the payload of a group node that is unused in
    the tree.  The payload of a group node that is in use is never
    examined, and the containment path has no part in the choice. *)
Theorem find_unused_nodes_recursive_reported (t : NodeTree) (p : string)
    (sa : bool) (k : node_id) :
  k ∈ dict_ids (find_unused_nodes_recursive (Some t) p sa) ↔ reported sa t k.
Proof. apply (find_unused_nodes_rec_reported sa (tree_depth t)). lia. Qed.

(** X9.  When no unused group node of the tree has a payload with
    findings, the recursive analysis returns the dictionary of
    [find_unused_nodes], records and order included. *)
Theorem find_unused_nodes_recursive_flat (t : NodeTree) (p : string) (sa : bool) :
  (∀ g sub, g ∈ nodes t →
            nid g ∈ dict_ids (find_unused_nodes (Some t) p sa) →
            is_group g = true → node_tree g = Some sub →
            find_unused_nodes_recursive (Some sub) (nested_tree_name p g) sa = []) →
  find_unused_nodes_recursive (Some t) p sa = find_unused_nodes (Some t) p sa.
Proof.
  intros H. cbn [find_unused_nodes_recursive].
  rewrite find_unused_nodes_rec_unfold.
  rewrite (foldl_ext_in _ (λ d _, d)); [apply foldl_const|].
  intros d g Hg.
  destruct (is_unused_group _ g) eqn:Eu; [|done].
  apply is_unused_group_true in Eu as [Hu Hgr].
  unfold nested_unused. destruct (node_tree g) as [sub|] eqn:Es; [|done].
  specialize (H g sub Hg Hu Hgr Es). cbn [find_unused_nodes_recursive] in H.
  by rewrite H.
Qed.

Lemma find_unused_nodes_recursive_flat_witness :
  find_unused_nodes_recursive (Some g_simple) "" true
  = find_unused_nodes (Some g_simple) "" true.
Proof.
  apply (find_unused_nodes_recursive_flat g_simple "" true).
  intros g sub Hg _ _ Es. exfalso.
  cbn [g_simple nodes] in Hg.
  repeat (apply elem_of_cons in Hg as [-> |Hg]; [discriminate Es|]).
  inversion Hg.
Defined.

Lemma find_unused_nodes_hidden t p k :
  k ∈ dict_ids (find_unused_nodes (Some t) p false) →
  k ∈ dict_ids (find_unused_nodes (Some t) p true).
Proof.
  destruct (get_output_nodes t) as [|o os] eqn:Eo.
  { unfold find_unused_nodes. by rewrite Eo. }
  rewrite !find_unused_nodes_ids by (by rewrite Eo).
  intros (n & ? & ? & ? & _). exists n. repeat split; auto. done.
Qed.

Lemma reported_hidden t k : reported false t k → reported true t k.
Proof.
  induction 1 as [t k H|t g sub k Hg Hu Hgr Es _ IH].
  - apply reported_here. by apply find_unused_nodes_hidden.
  - apply (reported_nested true t g sub); auto.
    by apply find_unused_nodes_hidden.
Qed.

(** X10.  Hiding the attribute nodes never adds a finding: every node
    the recursive analysis reports with [show_attributes=False] it
    reports with [show_attributes=True] too. *)
Theorem find_unused_nodes_recursive_hidden (node_tree : option NodeTree)
    (p : string) :
  dict_ids (find_unused_nodes_recursive node_tree p false)
  ⊆ dict_ids (find_unused_nodes_recursive node_tree p true).
Proof.
  destruct node_tree as [t|]; [|done]. intros k.
  cbn [find_unused_nodes_recursive].
  rewrite !(find_unused_nodes_rec_reported _ (tree_depth t)) by lia.
  apply reported_hidden.
Qed.

(** ** Cleaning up the nodes of an earlier run *)

Lemma filter_ext_in {A} (P Q : A → Prop) `{∀ x, Decision (P x)}
    `{∀ x, Decision (Q x)} (l : list A) :
  (∀ x, x ∈ l → P x ↔ Q x) → filter P l = filter Q l.
Proof.
  induction l as [|x l IH]; intros HPQ; [done|].
  rewrite !filter_cons.
  assert (E : P x ↔ Q x) by (apply HPQ; left).
  rewrite IH by (intros y Hy; apply HPQ; by right).
  destruct (decide (P x)), (decide (Q x)); tauto.
Qed.

(** What the loop of removals leaves when it runs to its end. *)
Lemma remove_nodes_returned (ks : list Node) : ∀ t t',
  remove_nodes t ks = (t', None) →
  tid t' = tid t ∧ tree_name t' = tree_name t ∧
  nodes t' = filter (λ n, nid n ∉ nid <$> ks) (nodes t) ∧
  links t' = filter (λ l, (from_node l ∉ nid <$> ks) ∧ (to_node l ∉ nid <$> ks))
                    (links t).
Proof.
  induction ks as [|k ks IH]; intros t t' H; simpl in H.
  - injection H as <-. repeat split.
    + symmetry. apply filter_all. intros. inversion 1.
    + symmetry. apply filter_all. intros. split; inversion 1.
  - unfold nodes_remove in H.
    destruct (bool_decide (nid k ∈ nid <$> nodes t)); [|done].
    apply IH in H as (H1 & H2 & H3 & H4). cbn [tid tree_name nodes links] in *.
    repeat split; auto.
    + rewrite H3, list_filter_filter. apply list_filter_iff. intros n.
      rewrite fmap_cons, not_elem_of_cons. tauto.
    + rewrite H4, list_filter_filter. apply list_filter_iff. intros l.
      rewrite fmap_cons, !not_elem_of_cons. tauto.
Qed.

(** X11.  In a tree whose nodes are distinct objects,
    [remove_tmp_attribute_nodes] returns without an exception; it keeps
    the name of the tree, the nodes that are not attribute nodes
    labelled [_tmp_attr], in their order, and the links with no end at
    a removed node. *)
Theorem remove_tmp_attribute_nodes_spec (t : NodeTree) :
  let removed := nid <$> filter (λ n, is_tmp_attribute n = true) (nodes t) in
  NoDup (nid <$> nodes t) →
  ∃ t',
    remove_tmp_attribute_nodes t = (t', None) ∧
    tid t' = tid t ∧ tree_name t' = tree_name t ∧
    nodes t' = filter (λ n, is_tmp_attribute n = false) (nodes t) ∧
    links t' = filter (λ l, (from_node l ∉ removed) ∧ (to_node l ∉ removed))
                      (links t).
Proof.
  intros removed Hnd. unfold remove_tmp_attribute_nodes.
  rewrite remove_nodes_owned.
  - eexists. split; [reflexivity|]. cbn [tid tree_name nodes links].
    repeat split. apply filter_ext_in. intros n Hn.
    rewrite (filter_ids_elem (λ n, is_tmp_attribute n = true) (nodes t) n Hnd Hn).
    by destruct (is_tmp_attribute n).
  - by apply filter_ids_NoDup.
  - intros k Hk. apply list_elem_of_filter in Hk as [_ Hk].
    by apply list_elem_of_fmap_2.
Qed.

Lemma remove_tmp_attribute_nodes_spec_witness :
  ∃ t', remove_tmp_attribute_nodes g_tmp = (t', None) ∧
        nodes t' = filter (λ n, is_tmp_attribute n = false) (nodes g_tmp).
Proof.
  destruct (remove_tmp_attribute_nodes_spec g_tmp) as (t' & H1 & _ & _ & H2 & _).
  - apply (bool_decide_unpack _). by vm_compute.
  - exists t'. split; [exact H1 | exact H2].
Defined.

(** X12.  After a call of [remove_tmp_attribute_nodes] that returned,
    no attribute node labelled [_tmp_attr] is left in the tree, and a
    second call changes nothing. *)
Theorem remove_tmp_attribute_nodes_idempotent (t t' : NodeTree) :
  remove_tmp_attribute_nodes t = (t', None) →
  Forall (λ n, is_tmp_attribute n = false) (nodes t') ∧
  remove_tmp_attribute_nodes t' = (t', None).
Proof.
  intros H. unfold remove_tmp_attribute_nodes in H.
  apply remove_nodes_returned in H as (_ & _ & Hn & _).
  assert (Hall : Forall (λ n, is_tmp_attribute n = false) (nodes t')).
  { rewrite Hn. apply Forall_forall. intros n Hin.
    apply list_elem_of_filter in Hin as [Hnot Hin].
    destruct (is_tmp_attribute n) eqn:E; [|done]. destruct Hnot.
    apply list_elem_of_fmap_2. by apply list_elem_of_filter. }
  split; [done|]. unfold remove_tmp_attribute_nodes.
  assert (E : filter (λ n, is_tmp_attribute n = true) (nodes t') = []).
  { clear Hn. induction Hall as [|n l Hn Hl IH]; [done|].
    rewrite filter_cons, decide_False by (by rewrite Hn). done. }
  by rewrite E.
Qed.

Lemma remove_tmp_attribute_nodes_idempotent_witness :
  let t' := mkNodeTree 30 "Material"
              [ nd 1 "O" "OUTPUT_MATERIAL" None 1 0;
                nd 2 "A" "BSDF_PRINCIPLED" None 1 1;
                nd 3 "B" "TEX_IMAGE" None 1 1 ]
              [ mkLink 2 0 1 0 ] in
  Forall (λ n, is_tmp_attribute n = false) (nodes t') ∧
  remove_tmp_attribute_nodes t' = (t', None).
Proof.
  intros t'.
  apply (remove_tmp_attribute_nodes_idempotent g_tmp t').
  by vm_compute.
Defined.

(** ** The delete operator, run twice *)

Lemma find_unused_nodes_nil t p sa :
  (∀ n, n ∈ nodes t → nid n ∈ traverse_from_outputs t) →
  find_unused_nodes (Some t) p sa = [].
Proof.
  intros H. unfold find_unused_nodes.
  destruct (get_output_nodes t) as [|o os]; [done|].
  replace (filter (λ n, nid n ∈ all_nodes t ∖ traverse_from_outputs t) (nodes t))
    with (@nil Node).
  - by destruct sa.
  - symmetry. assert (G : ∀ l, (∀ n, n ∈ l → n ∈ nodes t) →
      filter (λ n, nid n ∈ all_nodes t ∖ traverse_from_outputs t) l = []).
    { induction l as [|x xs IH]; intros Hl; [done|].
      rewrite filter_cons, decide_False.
      - apply IH. intros. apply Hl. by right.
      - rewrite elem_of_difference. intros [_ Hx]. apply Hx, H, Hl. left. }
    by apply G.
Qed.

Lemma find_unused_nodes_rec_nil t p sa :
  find_unused_nodes (Some t) p sa = [] → find_unused_nodes_rec t p sa = [].
Proof.
  intros E. rewrite find_unused_nodes_rec_unfold, E.
  rewrite <- (foldl_ext_in (λ d _, d)); [apply foldl_const|].
  intros d n _. unfold is_unused_group.
  rewrite bool_decide_eq_false_2; [done | inversion 1].
Qed.

Section pruning.
Context (t : NodeTree) (ks : list node_id).
Context (Hks : ∀ k, k ∈ ks → k ∉ traverse_from_outputs t).

Lemma get_node_without k :
  k ∉ ks → get_node (without t ks) k = get_node t k.
Proof.
  intros Hk. unfold get_node, without. cbn [nodes].
  induction (nodes t) as [|n l IH]; [done|].
  rewrite filter_cons. destruct (decide (nid n ∉ ks)) as [Hn|Hn].
  - cbn [list_find]. destruct (decide (nid n = k)); [done|].
    destruct (list_find _ (filter _ l)) as [[i x]|] eqn:E1;
      destruct (list_find _ l) as [[i' x']|] eqn:E2; simpl in *; done.
  - cbn [list_find]. destruct (decide (nid n = k)) as [E|E].
    + subst k. by destruct Hn.
    + rewrite IH. by destruct (list_find _ l) as [[i x]|].
Qed.

Lemma follows_without a b :
  a ∉ ks → b ∉ ks → follows t a b → follows (without t ks) a b.
Proof.
  intros Ha Hb. unfold follows, neighbours. rewrite !elem_of_app.
  rewrite !in_neighbours_spec, !out_neighbours_spec.
  unfold n_inputs, n_outputs. rewrite !get_node_without by done.
  intros [(l & Hl & E1 & Hs & E2)|(l & Hl & E1 & Hs & E2)]; [left|right];
    (exists l; split; [|done]); cbn [without links];
    apply list_elem_of_filter; (split; [|done]); rewrite E1, E2; done.
Qed.

Lemma n_inputs_without k : n_inputs (without t ks) k ≤ n_inputs t k.
Proof.
  destruct (decide (k ∈ ks)) as [Hk|Hk].
  - unfold n_inputs at 1, get_node.
    destruct (list_find _ (nodes (without t ks))) as [[i x]|] eqn:E; simpl; [|lia].
    apply list_find_Some in E as (Hx & <- & _).
    apply list_elem_of_lookup_2 in Hx. cbn [without nodes] in Hx.
    apply list_elem_of_filter in Hx as [Hx _]. by destruct Hx.
  - unfold n_inputs. by rewrite get_node_without.
Qed.

Lemma n_outputs_without k : n_outputs (without t ks) k ≤ n_outputs t k.
Proof.
  destruct (decide (k ∈ ks)) as [Hk|Hk].
  - unfold n_outputs at 1, get_node.
    destruct (list_find _ (nodes (without t ks))) as [[i x]|] eqn:E; simpl; [|lia].
    apply list_find_Some in E as (Hx & <- & _).
    apply list_elem_of_lookup_2 in Hx. cbn [without nodes] in Hx.
    apply list_elem_of_filter in Hx as [Hx _]. by destruct Hx.
  - unfold n_outputs. by rewrite get_node_without.
Qed.

Lemma follows_without_inv a b : follows (without t ks) a b → follows t a b.
Proof.
  unfold follows, neighbours. rewrite !elem_of_app.
  rewrite !in_neighbours_spec, !out_neighbours_spec.
  intros [(l & Hl & E1 & Hs & E2)|(l & Hl & E1 & Hs & E2)]; [left|right];
    (exists l; cbn [without links] in Hl;
     apply list_elem_of_filter in Hl as [_ Hl]; repeat split; auto).
  - pose proof (n_inputs_without a). lia.
  - pose proof (n_outputs_without a). lia.
Qed.

Lemma get_output_nodes_without :
  get_output_nodes (without t ks) = get_output_nodes t.
Proof.
  unfold get_output_nodes, without. cbn [nodes].
  rewrite list_filter_filter. apply filter_ext_in. intros n Hn. split; [tauto|].
  intros Ho. split; [done|]. intros Hk. apply (Hks _ Hk).
  apply traverse_from_outputs_follows. exists n. split; [|done].
  by apply list_elem_of_filter.
Qed.

Lemma traverse_from_outputs_without :
  traverse_from_outputs (without t ks) = traverse_from_outputs t.
Proof.
  apply set_eq. intros x. rewrite !traverse_from_outputs_follows.
  rewrite get_output_nodes_without. split.
  - intros (o & Ho & Hr). exists o. split; [done|].
    eapply rtc_subrel; [|exact Hr]. intros a b. apply follows_without_inv.
  - intros (o & Ho & Hr). exists o. split; [done|].
    assert (G : ∀ x, rtc (follows t) (nid o) x →
                rtc (follows (without t ks)) (nid o) x ∧
                x ∈ traverse_from_outputs t).
    { apply (rtc_ind_r (λ x, rtc (follows (without t ks)) (nid o) x ∧
                             x ∈ traverse_from_outputs t)).
      - split; [done|]. apply traverse_from_outputs_follows. by exists o.
      - intros y z Hoy Hyz [IH Hy].
        assert (Hz : z ∈ traverse_from_outputs t).
        { apply traverse_from_outputs_follows. exists o. split; [done|].
          by eapply rtc_r. }
        split; [|done]. eapply rtc_r; [exact IH|].
        apply follows_without; [| |done]; intros Hk; by apply (Hks _ Hk). }
    by apply G.
Qed.

End pruning.

Lemma remove_findings t :
  let d := find_unused_nodes_recursive (Some t) "" true in
  NoDup (nid <$> nodes t) →
  (∀ k, k ∈ dict_ids d → k ∈ unused_set t) →
  remove_nodes t (dict_keys d) = (without t (dict_ids d), None).
Proof.
  intros d Hnd Hun. rewrite remove_nodes_owned; [done | |].
  - apply find_unused_nodes_rec_NoDup.
  - intros k Hk. assert (Hk' : nid k ∈ dict_ids d) by (by apply list_elem_of_fmap_2).
    apply Hun in Hk'. unfold unused_set, all_nodes in Hk'.
    apply elem_of_difference in Hk' as [Hk' _].
    by rewrite elem_of_list_to_set in Hk'.
Qed.

(** The findings are all the unused nodes of the tree when they are
    unused nodes of the tree. *)
Lemma findings_unused_set t :
  let d := find_unused_nodes_recursive (Some t) "" true in
  d ≠ [] →
  (∀ k, k ∈ dict_ids d → k ∈ unused_set t) →
  ∀ n, n ∈ nodes t → nid n ∉ dict_ids d ↔ nid n ∈ traverse_from_outputs t.
Proof.
  intros d Hne Hun n Hn.
  assert (Hout : get_output_nodes t ≠ []).
  { intros E. apply Hne. unfold d. cbn [find_unused_nodes_recursive].
    apply find_unused_nodes_rec_nil. unfold find_unused_nodes. by rewrite E. }
  split.
  - intros Hk. destruct (decide (nid n ∈ traverse_from_outputs t)); [done|].
    destruct Hk. unfold d. cbn [find_unused_nodes_recursive].
    apply find_unused_nodes_rec_ids. left.
    apply find_unused_nodes_ids; [done|]. exists n. repeat split; auto; [|done].
    unfold unused_set. apply elem_of_difference.
    split; [|done]. unfold all_nodes. rewrite elem_of_list_to_set.
    by apply list_elem_of_fmap_2.
  - intros Hu Hk. apply Hun in Hk. unfold unused_set in Hk.
    apply elem_of_difference in Hk. tauto.
Qed.

Lemma without_findings_clean t :
  let d := find_unused_nodes_recursive (Some t) "" true in
  d ≠ [] →
  (∀ k, k ∈ dict_ids d → k ∈ unused_set t) →
  find_unused_nodes_recursive (Some (without t (dict_ids d))) "" true = [].
Proof.
  intros d Hne Hun.
  assert (Hks : ∀ k, k ∈ dict_ids d → k ∉ traverse_from_outputs t).
  { intros k Hk. specialize (Hun k Hk). unfold unused_set in Hun.
    apply elem_of_difference in Hun. tauto. }
  cbn [find_unused_nodes_recursive]. apply find_unused_nodes_rec_nil.
  apply find_unused_nodes_nil. intros n Hn.
  rewrite (traverse_from_outputs_without t (dict_ids d) Hks).
  cbn [without nodes] in Hn. apply list_elem_of_filter in Hn as [Hk Hn].
  by apply (findings_unused_set t Hne Hun).
Qed.



(** ** The delete operator for all materials *)

Lemma findings_cleaned m : own_findings m → findings (cleaned m) = [].
Proof.
  unfold own_findings, findings, cleaned.
  destruct (if use_nodes m then mat_node_tree m else None) as [tree|] eqn:E;
    [|by rewrite E].
  intros [Hnd Hun].
  destruct (find_unused_nodes_recursive (Some tree) "" true) as [|kv d] eqn:Ed.
  { by rewrite E. }
  rewrite <- Ed in *.
  assert (Eu : use_nodes m = true) by (by destruct (use_nodes m)).
  cbn [with_tree use_nodes mat_node_tree]. rewrite Eu.
  apply without_findings_clean; [by rewrite Ed | done].
Qed.

(** The loop on materials whose findings are their own. *)
Lemma delete_all_loop_own ms : ∀ a b,
  Forall own_findings ms →
  delete_all_loop ms a b =
    (cleaned <$> ms,
     (a + sum_list ((λ m, length (findings m)) <$> ms),
      b + length (filter (λ m, is_Some (if use_nodes m then mat_node_tree m
                                        else None)) ms)),
     None).
Proof.
  induction ms as [|m ms IH]; intros a b Hms.
  { simpl. by rewrite !Nat.add_0_r. }
  apply Forall_cons in Hms as [Hm Hms].
  cbn [delete_all_loop fmap list_fmap]. rewrite filter_cons.
  destruct (decide (is_Some (if use_nodes m then mat_node_tree m else None)))
    as [Hs|Hs].
  - unfold own_findings in Hm. unfold findings at 1, cleaned at 1.
    destruct (if use_nodes m then mat_node_tree m else None) as [tree|];
      [|by destruct Hs].
    destruct Hm as [Hnd Hun].
    destruct (find_unused_nodes_recursive (Some tree) "" true) as [|kv d] eqn:Ed.
    + rewrite IH by done. simpl. by rewrite Nat.add_succ_r.
    + rewrite <- Ed in *. rewrite remove_findings by done.
      rewrite IH by done. cbn [sum_list sum_list_with length].
      by rewrite Nat.add_succ_r, Nat.add_assoc.
  - unfold findings at 1, cleaned at 1.
    destruct (if use_nodes m then mat_node_tree m else None) as [tree|];
      [destruct Hs; done|].
    rewrite IH by done. simpl. done.
Qed.

(** The loop on materials without findings. *)
Lemma delete_all_loop_none ms : ∀ a b,
  Forall (λ m, findings m = []) ms →
  ∃ b', delete_all_loop ms a b = (ms, (a, b'), None).
Proof.
  induction ms as [|m ms IH]; intros a b Hms.
  { by exists b. }
  apply Forall_cons in Hms as [Hm Hms].
  cbn [delete_all_loop]. unfold findings in Hm.
  destruct (if use_nodes m then mat_node_tree m else None) as [tree|] eqn:E.
  - rewrite Hm. destruct (IH a (S b) Hms) as [b' ->]. by exists b'.
  - destruct (IH a b Hms) as [b' ->]. by exists b'.
Qed.

(** X14.  When the findings in every material are unused nodes of the
    material's own tree, [NODE_OT_DeleteAllUnusedNodes] finishes: it
    leaves every tree without its findings, reports the total number of
    findings and the number of node-using materials (or that nothing
    was found when the total is zero), and a second run finds nothing
    and changes no material. *)
Theorem delete_all_unused_twice (materials : list Material) :
  let total := sum_list ((λ m, length (findings m)) <$> materials) in
  let processed :=
    length (filter (λ m, is_Some (if use_nodes m then mat_node_tree m else None))
                   materials) in
  Forall own_findings materials →
  delete_all_unused_execute materials
    = (FINISHED,
       (if decide (total = 0) then ALL_none_found
        else ALL_deleted total processed),
       cleaned <$> materials) ∧
  delete_all_unused_execute (cleaned <$> materials)
    = (FINISHED, ALL_none_found, cleaned <$> materials).
Proof.
  intros total processed Hms. split.
  - unfold delete_all_unused_execute. rewrite delete_all_loop_own by done.
    cbn [Nat.add]. fold total.
    fold processed. by destruct (decide (total = 0)).
  - unfold delete_all_unused_execute.
    destruct (delete_all_loop_none (cleaned <$> materials) 0 0) as [b' ->]; [|done].
    apply Forall_fmap. eapply Forall_impl; [exact Hms|].
    intros m Hm. by apply findings_cleaned.
Qed.

Lemma delete_all_unused_twice_witness :
  let materials := [mkMaterial "M" true (Some g_simple);
                    mkMaterial "N" false None] in
  delete_all_unused_execute materials
    = (FINISHED, ALL_deleted 1 1, cleaned <$> materials) ∧
  delete_all_unused_execute (cleaned <$> materials)
    = (FINISHED, ALL_none_found, cleaned <$> materials).
Proof.
  intros materials.
  assert (H : Forall own_findings materials).
  { apply Forall_cons. split.
    - unfold own_findings. cbn [use_nodes mat_node_tree]. split.
      + apply (bool_decide_unpack _). by vm_compute.
      + apply Forall_forall. apply (bool_decide_unpack _). by vm_compute.
    - apply Forall_cons. split; [exact I | apply Forall_nil_2]. }
  exact (delete_all_unused_twice materials H).
Defined.

(** ** Further properties of the layout engine *)

Lemma with_location_id (o : Node) :
  with_location o (location_x o) (location_y o) = o.
Proof. by destruct o. Qed.

Lemma moved_refl s : moved s s.
Proof. intros n. by rewrite with_location_id. Qed.

Lemma moved_update s s' k x y :
  moved s s' → moved s (update s' k (λ o, with_location o (x o) (y o))).
Proof.
  intros H n. unfold update. destruct (decide (n = k)); [|apply H].
  rewrite (H n) at 1. done.
Qed.

Lemma moved_place_row ox gx y colw row : ∀ s s' c,
  moved s s' → moved s (place_row ox gx y colw s' c row).
Proof.
  induction row as [|n row IH]; intros s s' c H; simpl; [done|].
  apply IH. unfold set_location.
  by apply (moved_update s s' n (λ _, _) (λ _, _)).
Qed.

Lemma moved_place_rows ox oy gx gy g rows : ∀ s s' r,
  moved s s' → moved s (place_rows ox oy gx gy g s' r rows).
Proof.
  induction rows as [|row rows IH]; intros s s' r H; simpl; [done|].
  apply IH. by apply moved_place_row.
Qed.

Lemma moved_place_attrs d : ∀ s s',
  moved s s' → moved s (foldl place_attr s' d).
Proof.
  induction d as [|ap d IH]; intros s s' H; simpl; [done|].
  apply IH. unfold place_attr.
  apply (moved_update s _ ap.1 (λ o, location_x o) (λ _, _)).
  by apply (moved_update s s' ap.1 (λ _, _) (λ o, location_y o)).
Qed.

(** X15.  [layout_nodes_grid] moves nodes and does nothing else: in
    the store it returns every node has the fields it had, its
    position apart, and a node that is not in the list has its
    position too. *)
Theorem layout_nodes_grid_moves_only (s : Store) (nodes : list node_id)
    (cols : nat) (gap_x gap_y : Z) (s' : Store) :
  layout_nodes_grid s nodes cols gap_x gap_y = Returned s' →
  ∀ n, s' n = with_location (s n) (location_x (s' n)) (location_y (s' n)) ∧
       (n ∉ nodes → s' n = s n).
Proof.
  intros H n. split; [|by apply (layout_nodes_grid_other _ _ _ _ _ _ _ H)].
  revert n. fold (moved s s'). unfold layout_nodes_grid in H.
  destruct nodes as [|n0 nodes0]; [injection H as <-; apply moved_refl|].
  destruct (filter (λ n, is_tmp_attr s n = false) (n0 :: nodes0));
    [injection H as <-; apply moved_refl|].
  destruct (decide (cols = 0)); [done|]. injection H as <-.
  apply moved_place_attrs, moved_place_rows, moved_refl.
Qed.

Lemma layout_nodes_grid_moves_only_witness :
  ∃ s', layout_nodes_grid s_layout [1; 2; 3; 4] 2 120 80 = Returned s' ∧
        ∀ n, s' n = with_location (s_layout n) (location_x (s' n)) (location_y (s' n)) ∧
             (n ∉ [1; 2; 3; 4] → s' n = s_layout n).
Proof.
  eexists. split; [reflexivity|].
  apply (layout_nodes_grid_moves_only s_layout [1; 2; 3; 4] 2 120 80).
  reflexivity.
Defined.

(** The shape of the store [layout_nodes_grid] returns. *)
Lemma layout_nodes_grid_shape s nodes cols gap_x gap_y s' :
  layout_nodes_grid s nodes cols gap_x gap_y = Returned s' →
  (regular_nodes s nodes = [] ∧ s' = s) ∨
  (regular_nodes s nodes ≠ [] ∧ cols ≠ 0 ∧
   let sorted := sorted_by_key s (regular_nodes s nodes) in
   let g := grid_loop s cols (mkGrid (replicate cols 0%Z) [] []) 0 sorted in
   s' = foldl place_attr
          (place_rows (min_of 0 ((λ n, location_x (s n)) <$> sorted))
                      (max_of 0 ((λ n, location_y (s n)) <$> sorted))
                      gap_x gap_y g s 0 (grid g))
          (attr_parents s (filter (λ n, is_tmp_attr s n = true) nodes)
                        (regular_nodes s nodes))).
Proof.
  unfold layout_nodes_grid, regular_nodes.
  destruct nodes as [|n0 nodes0] eqn:En.
  { intros H. injection H as <-. by left. }
  rewrite <- En. clear En n0 nodes0.
  destruct (filter (λ k, is_tmp_attr s k = false) nodes) as [|r0 regs] eqn:Er.
  { intros H. injection H as <-. by left. }
  rewrite <- Er. destruct (decide (cols = 0)); [done|].
  intros H. injection H as <-. right. split; [by rewrite Er|]. done.
Qed.

(** The rows of the grid hold nodes of the sorted list only. *)
Lemma grid_rows_members s cols l row n :
  cols ≠ 0 →
  row ∈ grid (grid_loop s cols (mkGrid (replicate cols 0%Z) [] []) 0 l) →
  n ∈ row → n ∈ l.
Proof.
  intros Hcols Hrow Hin.
  pose proof (grid_loop_spec s cols Hcols l) as Hg.
  apply list_elem_of_lookup in Hrow as [r Hr].
  assert (r < nrows cols (length l)).
  { rewrite <- (gi_rows _ _ _ _ Hg). by eapply lookup_lt_Some. }
  rewrite (gi_row _ _ _ _ Hg) in Hr by done. injection Hr as <-.
  apply list_elem_of_lookup in Hin as [c Hc].
  apply (row_nodes_lookup_inv cols Hcols) in Hc as [_ Hc].
  by apply list_elem_of_lookup_2 in Hc.
Qed.

Lemma assoc_set_NoDup d k v : NoDup d.*1 → NoDup (assoc_set d k v).*1.
Proof.
  induction d as [|[k' v'] d IH]; intros Hnd; simpl.
  - apply NoDup_singleton.
  - apply NoDup_cons in Hnd as [Hk Hnd]. simpl in Hk.
    destruct (decide (k' = k)) as [->|Hne]; simpl.
    + by apply NoDup_cons.
    + apply NoDup_cons. split; [|by apply IH].
      intros Hin. apply assoc_set_keys in Hin as [Hin|Hin]; [done|]. congruence.
Qed.

Lemma assoc_set_elem d k v k' v' :
  NoDup d.*1 →
  (k', v') ∈ assoc_set d k v ↔ (k' = k ∧ v' = v) ∨ (k' ≠ k ∧ (k', v') ∈ d).
Proof.
  induction d as [|[k0 v0] d IH]; intros Hnd; simpl.
  - rewrite list_elem_of_singleton. split.
    + intros H. injection H as -> ->. by left.
    + intros [[-> ->]|[_ H]]; [done | inversion H].
  - apply NoDup_cons in Hnd as [Hk Hnd]. simpl in Hk.
    destruct (decide (k0 = k)) as [->|Hne].
    + rewrite !elem_of_cons. split.
      * intros [H|H]; [injection H as -> ->; by left|].
        right. split; [|by right]. intros ->. apply Hk.
        by apply (list_elem_of_fmap_2 fst _ (k, v')).
      * intros [[-> ->]|[Hne [H|H]]]; [by left | | by right].
        injection H as -> ->. done.
    + rewrite !elem_of_cons, IH by done. split.
      * intros [H|[H|[H1 H2]]].
        -- injection H as -> ->. right. split; [done | by left].
        -- by left.
        -- right. split; [done | by right].
      * intros [H|[H1 [H|H]]].
        -- right. by left.
        -- by left.
        -- right. right. done.
Qed.

Lemma attr_parents_spec s nodes attrs :
  let regs := regular_nodes s nodes in
  NoDup (attr_parents s attrs regs).*1 ∧
  ∀ a p, (a, p) ∈ attr_parents s attrs regs ↔
         a ∈ attrs ∧ parent_of s nodes a = Some p.
Proof.
  intros regs. unfold attr_parents.
  set (step := λ (d : list (node_id * node_id)) (attr : node_id),
         match list_find (λ p, name (s p) = replace_Attr (name (s attr))) regs with
         | Some (_, p) => assoc_set d attr p
         | None => d
         end).
  assert (G : ∀ l d done,
            NoDup d.*1 →
            (∀ a p, (a, p) ∈ d ↔ a ∈ done ∧ parent_of s nodes a = Some p) →
            NoDup (foldl step d l).*1 ∧
            ∀ a p, (a, p) ∈ foldl step d l ↔
                   a ∈ done ++ l ∧ parent_of s nodes a = Some p).
  { induction l as [|x l IH]; intros d done Hnd Hd; simpl.
    - rewrite app_nil_r. done.
    - replace (done ++ x :: l) with ((done ++ [x]) ++ l)
        by (by rewrite <- app_assoc).
      apply IH.
      + unfold step. destruct (list_find _ regs) as [[i p]|]; [|done].
        by apply assoc_set_NoDup.
      + intros a p. unfold step.
        destruct (list_find _ regs) as [[i q]|] eqn:Ef.
        * rewrite assoc_set_elem by done. rewrite Hd, elem_of_app.
          rewrite list_elem_of_singleton. split.
          -- intros [[-> ->]|[Hne [Ha Hp]]].
             ++ split; [by right|]. unfold parent_of. fold regs. by rewrite Ef.
             ++ split; [by left | done].
          -- intros [[Ha| ->] Hp].
             ++ destruct (decide (a = x)) as [->|Hne].
                ** left. split; [done|]. unfold parent_of in Hp. fold regs in Hp.
                   rewrite Ef in Hp. by injection Hp.
                ** right. done.
             ++ left. split; [done|]. unfold parent_of in Hp. fold regs in Hp.
                rewrite Ef in Hp. by injection Hp.
        * rewrite Hd, elem_of_app, list_elem_of_singleton. split.
          -- intros [Ha Hp]. split; [by left | done].
          -- intros [[Ha| ->] Hp]; [done|].
             unfold parent_of in Hp. fold regs in Hp. by rewrite Ef in Hp. }
  destruct (G attrs [] []) as [H1 H2].
  - constructor.
  - intros a p. split; [inversion 1 | intros [H _]; inversion H].
  - split; [done|]. intros a p. by rewrite H2.
Qed.

Lemma place_attrs_at d : ∀ s a p,
  NoDup d.*1 → (a, p) ∈ d → (∀ k v, (k, v) ∈ d → v ∉ d.*1) →
  foldl place_attr s d a
  = with_location (s a) (location_x (s p) - 150) (location_y (s p)).
Proof.
  induction d as [|[k v] d IH]; intros s a p Hnd Hin Hval; [inversion Hin|].
  apply NoDup_cons in Hnd as [Hk Hnd]. simpl in Hk. simpl.
  assert (Hp : p ∉ ((k, v) :: d).*1) by (by apply (Hval a p)).
  rewrite fmap_cons, not_elem_of_cons in Hp. destruct Hp as [Hpk Hpd]. simpl in Hpk.
  apply elem_of_cons in Hin as [Hin|Hin].
  - injection Hin as -> ->. rewrite place_attrs_other by done.
    unfold place_attr. cbn [fst snd]. rewrite update_eq.
    rewrite (update_ne _ _ _ v) by done. rewrite update_eq. done.
  - assert (Hak : a ≠ k).
    { intros ->. apply Hk. by apply (list_elem_of_fmap_2 fst _ (k, p)). }
    rewrite (IH _ a p); [|done|done|].
    + rewrite !place_attr_other by done. done.
    + intros k' v' Hin' Hv'. apply (Hval k' v'); [by right|].
      rewrite fmap_cons. by right.
Qed.

Lemma layout_attribute_cases (s : Store) (nodes : list node_id)
    (cols : nat) (gap_x gap_y : Z) (s' : Store) (a : node_id) :
  layout_nodes_grid s nodes cols gap_x gap_y = Returned s' →
  a ∈ nodes →
  is_tmp_attr s a = true →
  match parent_of s nodes a with
  | Some p =>
      p ∈ nodes ∧ is_tmp_attr s p = false ∧
      name (s p) = replace_Attr (name (s a)) ∧
      location_x (s' a) = (location_x (s' p) - 150)%Z ∧
      location_y (s' a) = location_y (s' p)
  | None => s' a = s a
  end.
Proof.
  intros H Ha Hattr.
  pose proof (attr_parents_spec s nodes (filter (λ n, is_tmp_attr s n = true) nodes))
    as [Hnd Hd]. cbv zeta in Hnd, Hd.
  assert (Hkeys : ∀ k, k ∈ (attr_parents s (filter (λ n, is_tmp_attr s n = true) nodes)
                              (regular_nodes s nodes)).*1 →
                       is_tmp_attr s k = true).
  { intros k Hk. apply attr_parents_keys in Hk.
    by apply list_elem_of_filter in Hk as [Hk _]. }
  assert (Hpar : ∀ x q, parent_of s nodes x = Some q →
            q ∈ regular_nodes s nodes ∧ name (s q) = replace_Attr (name (s x))).
  { intros x q Hq. unfold parent_of in Hq.
    destruct (list_find _ (regular_nodes s nodes)) as [[i q']|] eqn:Ef; [|done].
    injection Hq as ->. apply list_find_Some in Ef as (Hq & Hn & _).
    split; [by eapply list_elem_of_lookup_2 | done]. }
  assert (Hrows : ∀ n, is_tmp_attr s n = true → cols ≠ 0 →
            ∀ row, row ∈ grid (grid_loop s cols (mkGrid (replicate cols 0%Z) [] []) 0
                                 (sorted_by_key s (regular_nodes s nodes))) →
                   n ∉ row).
  { intros n Hn Hcols row Hrow Hin.
    apply (grid_rows_members s cols _ row n Hcols Hrow) in Hin.
    rewrite sorted_by_key_perm in Hin.
    apply list_elem_of_filter in Hin as [Hin _]. congruence. }
  destruct (parent_of s nodes a) as [p|] eqn:Ep.
  - destruct (Hpar a p Ep) as [Hreg Hname].
    assert (Hreg' := Hreg). apply list_elem_of_filter in Hreg' as [Hpa Hpn].
    split; [done|]. split; [done|]. split; [done|].
    apply layout_nodes_grid_shape in H as [[E _]|(_ & Hcols & ->)].
    { rewrite E in Hreg. inversion Hreg. }
    rewrite (place_attrs_at _ _ a p); [| done | |].
    + rewrite (place_attrs_other _ _ p).
      * done.
      * intros Hk. apply Hkeys in Hk. congruence.
    + apply Hd. split; [|done]. by apply list_elem_of_filter.
    + intros k v Hkv Hv. apply Hkeys in Hv. apply Hd in Hkv as [_ Hkv].
      apply Hpar in Hkv as [Hkv _].
      apply list_elem_of_filter in Hkv as [Hkv _]. congruence.
  - apply layout_nodes_grid_shape in H as [[_ ->]|(_ & Hcols & ->)]; [done|].
    rewrite place_attrs_other.
    + apply place_rows_other. by apply Hrows.
    + intros Hk. apply list_elem_of_fmap in Hk as ([a' p] & -> & Hin).
      apply Hd in Hin as [_ Hin]. simpl in *. congruence.
Qed.

(** X16.  Among the nodes handed to [layout_nodes_grid], the node
    labelled [_tmp_attr] that has a partner (the first regular node of
    the list named like it without the prefix [Attr_]) ends 150 to the
    left of the partner's new position, at the partner's height; the
    one that has no partner stays where it was. *)
Theorem layout_nodes_grid_attribute (s : Store) (nodes : list node_id)
    (cols : nat) (gap_x gap_y : Z) (s' : Store) (a : node_id) :
  layout_nodes_grid s nodes cols gap_x gap_y = Returned s' →
  a ∈ nodes →
  is_tmp_attr s a = true →
  match parent_of s nodes a with
  | Some p =>
      p ∈ nodes ∧ is_tmp_attr s p = false ∧
      name (s p) = replace_Attr (name (s a)) ∧
      location_x (s' a) = (location_x (s' p) - 150)%Z ∧
      location_y (s' a) = location_y (s' p)
  | None => s' a = s a
  end.
Proof. exact (layout_attribute_cases s nodes cols gap_x gap_y s' a). Qed.

Lemma layout_nodes_grid_attribute_witness :
  ∃ s', layout_nodes_grid s_layout [1; 2; 3; 4] 2 120 80 = Returned s' ∧
        location_x (s' 4) = Z.sub (location_x (s' 2)) 150 ∧
        location_y (s' 4) = location_y (s' 2).
Proof.
  eexists. split; [reflexivity|].
  assert (Ha : 4 ∈ [1; 2; 3; 4]) by (apply (bool_decide_unpack _); by vm_compute).
  pose proof (layout_nodes_grid_attribute s_layout [1; 2; 3; 4] 2 120 80 _ 4
                eq_refl Ha eq_refl) as H.
  exact (proj2 (proj2 (proj2 H))).
Defined.

(** *** The cells of the grid do not overlap *)

(** The position of the node at place [i] of the sorted regular nodes. *)
Lemma layout_nodes_grid_cell s nodes cols gap_x gap_y s' i n :
  let sorted := sorted_by_key s (regular_nodes s nodes) in
  NoDup (regular_nodes s nodes) →
  layout_nodes_grid s nodes cols gap_x gap_y = Returned s' →
  sorted !! i = Some n →
  cols ≠ 0 ∧
  location_x (s' n)
    = grid_x s cols gap_x sorted
        (min_of 0 ((λ n, location_x (s n)) <$> sorted)) (i mod cols) ∧
  location_y (s' n)
    = grid_y s cols gap_y sorted
        (max_of 0 ((λ n, location_y (s n)) <$> sorted)) (i / cols).
Proof.
  intros sorted Hnd H Hi.
  assert (Hperm : sorted ≡ₚ regular_nodes s nodes) by apply sorted_by_key_perm.
  assert (Hreg : n ∈ regular_nodes s nodes).
  { rewrite <- Hperm. by eapply list_elem_of_lookup_2. }
  apply layout_nodes_grid_shape in H as [[E _]|(_ & Hcols & ->)].
  { rewrite E in Hreg. inversion Hreg. }
  split; [done|]. fold sorted.
  set (g := grid_loop s cols (mkGrid (replicate cols 0%Z) [] []) 0 sorted).
  pose proof (grid_loop_spec s cols Hcols sorted) as Hg. fold g in Hg.
  assert (Hsnd : NoDup sorted) by (by rewrite Hperm).
  rewrite place_attrs_other.
  2:{ intros Hin. apply attr_parents_keys in Hin.
      by apply (regular_not_attr s nodes n). }
  destruct (grid_position s cols Hcols sorted g Hg i n Hsnd Hi) as (Hrow & Hcol & Huniq).
  destruct (place_rows_at
              (min_of 0 ((λ n, location_x (s n)) <$> sorted))
              (max_of 0 ((λ n, location_y (s n)) <$> sorted))
              gap_x gap_y g (grid g) s 0 _ _ _ n Hrow Hcol Huniq) as [Hx Hy].
  rewrite Nat.add_0_l in Hy. rewrite Hx, Hy. unfold grid_x, grid_y.
  pose proof (Nat.mod_upper_bound i cols Hcols) as Hm.
  assert (Hlt : i < length sorted) by (by eapply lookup_lt_Some).
  rewrite (col_w_final s cols Hcols sorted g Hg) by lia.
  rewrite (row_h_final s cols Hcols sorted g Hg)
    by (simpl; pose proof (div_lt_nrows cols Hcols i _ Hlt); lia).
  done.
Qed.

Lemma foldl_add a l : foldl Z.add a l = (a + sum l)%Z.
Proof.
  unfold sum. revert a. induction l as [|x l IH]; intros a; simpl; [lia|].
  rewrite IH, (IH (0 + x)%Z). lia.
Qed.

Lemma sum_app l1 l2 : sum (l1 ++ l2) = (sum l1 + sum l2)%Z.
Proof. unfold sum at 1. rewrite foldl_app, foldl_add. fold (sum l1). lia. Qed.

Lemma sum_cons x l : sum (x :: l) = (x + sum l)%Z.
Proof. unfold sum at 1. simpl. rewrite foldl_add. lia. Qed.

Lemma sum_nonneg l : Forall (λ x, 0 ≤ x)%Z l → (0 ≤ sum l)%Z.
Proof.
  induction 1 as [|x l Hx Hl IH]; [done|]. rewrite sum_cons. lia.
Qed.

Lemma max_list_nonneg l : (0 ≤ max_list l)%Z.
Proof. induction l as [|x l IH]; simpl; lia. Qed.

Lemma max_list_ge l x : x ∈ l → (x ≤ max_list l)%Z.
Proof.
  induction l as [|y l IH]; intros Hx; [inversion Hx|]. simpl.
  apply elem_of_cons in Hx as [->|Hx]; [lia|]. specialize (IH Hx). lia.
Qed.

Lemma elem_of_select (P : nat → Prop) `{∀ i, Decision (P i)} l i n :
  l !! i = Some n → P i → n ∈ select P l.
Proof.
  intros Hi HP. unfold select. apply list_elem_of_omap. exists i. split; [|done].
  apply list_elem_of_filter. split; [done|].
  apply elem_of_seq. apply lookup_lt_Some in Hi. lia.
Qed.

(** The sum of the sizes of the cells from [c] up to [c'], the gaps
    included, is at least the size of cell [c] and one gap. *)
Lemma sum_cells (f : nat → Z) (gap : Z) c c' :
  (∀ k, 0 ≤ f k)%Z → (0 ≤ gap)%Z → c < c' →
  (sum (f <$> seq 0 c) + Z.of_nat c * gap + f c + gap
   ≤ sum (f <$> seq 0 c') + Z.of_nat c' * gap)%Z.
Proof.
  intros Hf Hgap Hc.
  replace c' with (c + S (c' - S c)) at 1 by lia.
  rewrite seq_app, fmap_app, sum_app. cbn [seq fmap list_fmap].
  rewrite sum_cons. cbn [Nat.add].
  assert (0 ≤ sum (f <$> seq (S c) (c' - S c)))%Z.
  { apply sum_nonneg, Forall_fmap, Forall_forall. intros k _. apply Hf. }
  nia.
Qed.

(** X17.  The grid of [layout_nodes_grid] keeps its nodes apart when
    the gaps are not negative: of two regular nodes in the same row the
    later one starts at least a gap beyond the right edge of the
    earlier one, at the same height, and a node in a later row starts
    at least a gap below the bottom of every node of an earlier row. *)
Theorem layout_nodes_grid_no_overlap (s : Store) (nodes : list node_id)
    (cols : nat) (gap_x gap_y : Z) (s' : Store) (i j : nat) (a b : node_id) :
  let sorted := sorted_by_key s (regular_nodes s nodes) in
  NoDup (regular_nodes s nodes) →
  (0 ≤ gap_x)%Z → (0 ≤ gap_y)%Z →
  layout_nodes_grid s nodes cols gap_x gap_y = Returned s' →
  sorted !! i = Some a →
  sorted !! j = Some b →
  i < j →
  (i / cols = j / cols →
   (location_x (s' a) + width (s a) + gap_x ≤ location_x (s' b))%Z ∧
   location_y (s' a) = location_y (s' b)) ∧
  (i / cols ≠ j / cols →
   (location_y (s' b) + dimensions_y (s a) + gap_y ≤ location_y (s' a))%Z).
Proof.
  intros sorted Hnd Hgx Hgy H Hi Hj Hij.
  destruct (layout_nodes_grid_cell s nodes cols gap_x gap_y s' i a Hnd H Hi)
    as (Hcols & Hxa & Hya).
  destruct (layout_nodes_grid_cell s nodes cols gap_x gap_y s' j b Hnd H Hj)
    as (_ & Hxb & Hyb).
  fold sorted in Hxa, Hya, Hxb, Hyb.
  rewrite Hxa, Hya, Hxb, Hyb. unfold grid_x, grid_y.
  assert (Hw : (width (s a) ≤ column_width s cols sorted (i mod cols))%Z).
  { unfold column_width. apply max_list_ge.
    apply (list_elem_of_fmap_2 (λ n, width (s n))).
    unfold column_nodes. by apply (elem_of_select _ _ i). }
  assert (Hh : (dimensions_y (s a) ≤ row_height s cols sorted (i / cols))%Z).
  { unfold row_height. apply max_list_ge.
    apply (list_elem_of_fmap_2 (λ n, dimensions_y (s n))).
    unfold row_nodes. by apply (elem_of_select _ _ i). }
  pose proof (Nat.div_mod i cols Hcols) as Ei.
  pose proof (Nat.div_mod j cols Hcols) as Ej.
  pose proof (Nat.mod_upper_bound i cols Hcols) as Hmi.
  pose proof (Nat.mod_upper_bound j cols Hcols) as Hmj.
  split.
  - intros Er. split; [|by rewrite Er].
    assert (Hc : i mod cols < j mod cols) by (rewrite Er in Ei; lia).
    pose proof (sum_cells (column_width s cols sorted) gap_x _ _
                  (λ k, max_list_nonneg _) Hgx Hc).
    lia.
  - intros Er.
    assert (Hr : i / cols < j / cols).
    { pose proof (Nat.Div0.div_le_mono i j cols ltac:(lia)). lia. }
    pose proof (sum_cells (row_height s cols sorted) gap_y _ _
                  (λ k, max_list_nonneg _) Hgy Hr).
    lia.
Qed.

Lemma layout_nodes_grid_no_overlap_witness :
  ∃ s', layout_nodes_grid s_layout [1; 2; 3; 4] 2 120 80 = Returned s' ∧
        Z.le (Z.add (Z.add (location_x (s' 2)) (width (s_layout 2))) 120)
             (location_x (s' 1)) ∧
        location_y (s' 2) = location_y (s' 1).
Proof.
  eexists. split; [reflexivity|].
  assert (Hnd : NoDup (regular_nodes s_layout [1; 2; 3; 4])).
  { apply (bool_decide_unpack _). by vm_compute. }
  assert (H0 : (0 ≤ 120)%Z) by lia.
  assert (H1 : (0 ≤ 80)%Z) by lia.
  assert (Hlt : 0 < 1) by lia.
  pose proof (layout_nodes_grid_no_overlap s_layout [1; 2; 3; 4] 2 120 80 _ 0 1 2 1
                Hnd H0 H1 eq_refl eq_refl eq_refl Hlt) as [H _].
  exact (H eq_refl).
Defined.

(** ** The records of the report *)

Lemma all_unused_Forall (P : Info → Prop) sa :
  (∀ t p, Forall (λ kv, P kv.2) (find_unused_nodes_rec t p sa)) →
  ∀ mats, Forall (λ kv, P kv.2) (all_unused mats sa).
Proof.
  intros HP mats. unfold all_unused.
  assert (G : ∀ d, Forall (λ kv, P kv.2) d →
            Forall (λ kv, P kv.2)
              (foldl (λ d material,
                        match mat_node_tree material with
                        | Some t => dict_update d
                            (find_unused_nodes_recursive (Some t) (mat_name material) sa)
                        | None => d
                        end) d mats)).
  { induction mats as [|m mats IH]; intros d Hd; simpl; [done|].
    apply IH. destruct (mat_node_tree m) as [t|]; [|done].
    apply dict_update_Forall; [done | apply HP]. }
  apply G. constructor.
Qed.

Lemma usage_of_entry_wf insts u : ∀ i,
  wf_info i → wf_info (usage_of_entry insts u i).
Proof.
  induction insts as [|v insts IH]; intros i Hi; simpl; [done|].
  apply IH. by apply usage_entry_wf.
Qed.

Lemma same_tree_refl o : same_tree o o = true.
Proof. destruct o; simpl; [by apply bool_decide_eq_true | done]. Qed.

(** X20.  In the dictionary that [build_report] prints, every record
    is well formed (no material listed twice, the output-connected
    materials among the listed ones), and its list of materials holds
    exactly the names of the analysed materials whose tree has a group
    node with the payload of the record's group node; the record of a
    node that is not a group node lists none. *)
Theorem report_records_materials (data_materials : list Material) (sa : bool) :
  Forall (λ kv,
            wf_info kv.2 ∧
            ∀ m, m ∈ materials kv.2 ↔
                 is_group kv.1 = true ∧
                 ∃ mt mtree node,
                   mt ∈ data_materials ∧ use_nodes mt = true ∧
                   mat_node_tree mt = Some mtree ∧ mat_name mt = m ∧
                   node ∈ nodes mtree ∧ is_group node = true ∧
                   is_Some (node_tree node) ∧
                   same_tree (node_tree kv.1) (node_tree node) = true)
         (report_records data_materials sa).
Proof.
  unfold report_records. rewrite collect_group_usage_entrywise.
  apply Forall_fmap.
  pose proof (all_unused_Forall wf_info sa
                (λ t p, find_unused_nodes_rec_wf t p sa)
                (report_materials data_materials)) as Hwf.
  pose proof (all_unused_Forall is_fresh sa
                (λ t p, find_unused_nodes_rec_fresh t p sa)
                (report_materials data_materials)) as Hfr.
  rewrite Forall_forall in Hwf, Hfr. apply Forall_forall.
  intros [u i] Hin. specialize (Hwf _ Hin). specialize (Hfr _ Hin).
  simpl in *. destruct Hfr as [Hm _]. split; [by apply usage_of_entry_wf|].
  intros m. rewrite usage_of_entry_materials, Hm. split.
  - intros [H|(v & Hv & Hma & E)]; [inversion H|].
    apply andb_true_iff in Hma as [Hg Hs]. split; [done|].
    apply elem_of_instances in Hv as (mt & Hmt & ? & ? & ? & ? & ? & ?).
    apply list_elem_of_filter in Hmt as [_ Hmt].
    exists mt, v.1.2, v.2. repeat split; auto. congruence.
  - intros (Hg & mt & mtree & node & Hmt & Hu & Ht & Hn & Hnode & Hgn & Hsn & Hs).
    right. exists (m, mtree, node). split; [|split; [|done]].
    + apply elem_of_instances. exists mt. simpl. repeat split; auto.
      apply list_elem_of_filter. split; [|done]. split; [done|]. by rewrite Ht.
    + unfold matches. simpl. by rewrite Hg, Hs.
Qed.

(** X21.  A group node with a payload that is reported and sits in
    the tree of an analysed material is listed as used in that
    material: the unused instance itself counts as a use. *)
Theorem report_records_own_material (data_materials : list Material)
    (sa : bool) (u : Node) (info : Info) (mt : Material) (mtree : NodeTree) :
  (u, info) ∈ report_records data_materials sa →
  mt ∈ data_materials →
  use_nodes mt = true →
  mat_node_tree mt = Some mtree →
  u ∈ nodes mtree →
  is_group u = true →
  is_Some (node_tree u) →
  mat_name mt ∈ materials info.
Proof.
  intros Hin Hmt Hu Ht Hn Hg Hs.
  unfold report_records in Hin. rewrite collect_group_usage_entrywise in Hin.
  apply list_elem_of_fmap in Hin as ([u' i] & E & Hin). simpl in E.
  injection E as -> ->.
  apply usage_of_entry_materials. right. exists (mat_name mt, mtree, u').
  split; [|split; [|done]].
  - apply elem_of_instances. exists mt. simpl. repeat split; auto.
    apply list_elem_of_filter. split; [|done]. split; [done|]. by rewrite Ht.
  - unfold matches. simpl. by rewrite Hg, same_tree_refl.
Qed.

Lemma report_records_own_material_witness :
  let u := nd 2 "Group" "GROUP" (Some g_payload) 0 1 in
  let info := mkInfo "GROUP" ["A"; "B"] (Some ["B"]) "A" in
  (u, info) ∈ report_records [mat_A; mat_B] true ∧
  mat_name mat_A ∈ materials info.
Proof.
  intros u info.
  set (mtree := mkNodeTree 21 "A" [ nd 1 "O" "OUTPUT_MATERIAL" None 1 0; u ] []).
  assert (Hin : (u, info) ∈ report_records [mat_A; mat_B] true).
  { assert (E : report_records [mat_A; mat_B] true
                = [(u, info);
                   (nd 11 "m" "MATH" None 2 1, mkInfo "MATH" [] (Some []) "A.Group")])
      by (by vm_compute).
    rewrite E. left. }
  assert (Hmt : mat_A ∈ [mat_A; mat_B]) by left.
  assert (Hn : u ∈ nodes mtree) by (right; left).
  assert (Hs : is_Some (node_tree u)) by (by eexists).
  split; [exact Hin|].
  exact (report_records_own_material [mat_A; mat_B] true u info mat_A mtree
           Hin Hmt eq_refl eq_refl Hn eq_refl Hs).
Defined.

(** ** Islands of nodes *)

(** X22.  In a well-formed tree with an output node the two ends of a
    link are reported together or not at all: [find_unused_nodes], with
    attributes shown, never reports one end of a link and keeps the
    other. *)
Theorem find_unused_nodes_linked (t : NodeTree) (p : string) (a b : node_id) :
  wf_tree t →
  get_output_nodes t ≠ [] →
  linked t a b →
  a ∈ dict_ids (find_unused_nodes (Some t) p true) ↔
  b ∈ dict_ids (find_unused_nodes (Some t) p true).
Proof.
  intros Hwf Hout Hab.
  assert (G : ∀ x y, linked t x y →
            x ∈ dict_ids (find_unused_nodes (Some t) p true) →
            y ∈ dict_ids (find_unused_nodes (Some t) p true)).
  { intros x y Hxy. rewrite !find_unused_nodes_ids by done.
    intros (n & Hn & Ex & Hu & _).
    destruct (linked_all_nodes t x y Hwf Hxy) as [_ Hy].
    unfold all_nodes in Hy. rewrite elem_of_list_to_set in Hy.
    apply list_elem_of_fmap in Hy as (m & Ey & Hm).
    exists m. repeat split; auto; [|done].
    unfold unused_set in *. rewrite elem_of_difference in *.
    destruct Hu as [_ Hu]. split.
    - unfold all_nodes. rewrite elem_of_list_to_set, Ey.
      by apply list_elem_of_fmap_2.
    - intros Hy. apply Hu.
      apply traverse_from_outputs_follows in Hy as (o & Ho & Hr).
      apply traverse_from_outputs_follows. exists o. split; [done|].
      eapply rtc_r; [exact Hr|]. apply follows_linked; [done|].
      destruct Hxy as (l & Hl & [[H1 H2]|[H1 H2]]); exists l; split; auto. }
  split; apply G; [done|].
  destruct Hab as (l & Hl & [[H1 H2]|[H1 H2]]); exists l; split; auto.
Qed.

Lemma find_unused_nodes_linked_witness :
  2 ∈ dict_ids (find_unused_nodes (Some g_simple) "" true) ↔
  1 ∈ dict_ids (find_unused_nodes (Some g_simple) "" true).
Proof.
  apply (find_unused_nodes_linked g_simple "" 2 1).
  - unfold wf_tree. apply (bool_decide_unpack _). by vm_compute.
  - by vm_compute.
  - exists (mkLink 2 0 1 0). split; [left | left; split; reflexivity].
Defined.

(** ** The names of the attribute nodes in the layout *)

Lemma drop_pattern_absent pat s :
  occurs pat s = false → drop_pattern pat 0 s = s.
Proof.
  induction s as [|c s IH]; intros H; [done|].
  cbn [occurs] in H. apply orb_false_iff in H as [H1 H2].
  cbn [drop_pattern]. rewrite H1. by rewrite IH.
Qed.

Lemma drop_pattern_length pat s : ∀ k,
  String.length (drop_pattern pat k s) ≤ String.length s.
Proof.
  induction s as [|c s IH]; intros k; [done|]. cbn [drop_pattern].
  destruct k as [|k].
  - destruct (String.prefix pat (String c s)); simpl.
    + specialize (IH (String.length pat - 1)). lia.
    + specialize (IH 0). lia.
  - specialize (IH k). simpl. lia.
Qed.

Lemma drop_pattern_present pat s :
  pat ≠ EmptyString → occurs pat s = true →
  String.length (drop_pattern pat 0 s) < String.length s.
Proof.
  intros Hpat. induction s as [|c s IH]; intros H.
  - destruct pat; [done | discriminate H].
  - cbn [occurs] in H. cbn [drop_pattern].
    destruct (String.prefix pat (String c s)) eqn:E.
    + pose proof (drop_pattern_length pat s (String.length pat - 1)).
      simpl. lia.
    + simpl in H. specialize (IH H). simpl. lia.
Qed.

(** ** A second run of the layout *)

Lemma grid_cells_strict s nodes cols gap_x gap_y s' i j a b :
  let sorted := sorted_by_key s (regular_nodes s nodes) in
  NoDup (regular_nodes s nodes) →
  (0 < gap_x)%Z → (0 < gap_y)%Z →
  layout_nodes_grid s nodes cols gap_x gap_y = Returned s' →
  sorted !! i = Some a →
  sorted !! j = Some b →
  i < j →
  key_lt (sort_key s' a) (sort_key s' b) = true.
Proof.
  intros sorted Hnd Hgx Hgy H Hi Hj Hij.
  destruct (layout_nodes_grid_cell s nodes cols gap_x gap_y s' i a Hnd H Hi)
    as (Hcols & Hxa & Hya).
  destruct (layout_nodes_grid_cell s nodes cols gap_x gap_y s' j b Hnd H Hj)
    as (_ & Hxb & Hyb).
  fold sorted in Hxa, Hya, Hxb, Hyb.
  unfold key_lt, sort_key. cbn [fst snd].
  rewrite Hxa, Hya, Hxb, Hyb. unfold grid_x, grid_y.
  pose proof (Nat.div_mod i cols Hcols) as Ei.
  pose proof (Nat.div_mod j cols Hcols) as Ej.
  pose proof (Nat.mod_upper_bound i cols Hcols) as Hmi.
  pose proof (Nat.mod_upper_bound j cols Hcols) as Hmj.
  destruct (decide (i / cols = j / cols)) as [Er|Er].
  - assert (Hc : i mod cols < j mod cols) by (rewrite Er in Ei; lia).
    pose proof (sum_cells (column_width s cols sorted) gap_x _ _
                  (λ k, max_list_nonneg _) ltac:(lia) Hc) as Hs.
    pose proof (max_list_nonneg
                  ((λ n, width (s n)) <$> column_nodes cols (i mod cols) sorted)).
    fold (column_width s cols sorted (i mod cols)) in *.
    rewrite Er. apply orb_true_iff. right. apply andb_true_iff. split.
    + apply Z.eqb_eq. done.
    + apply Z.ltb_lt. lia.
  - assert (Hr : i / cols < j / cols).
    { pose proof (Nat.Div0.div_le_mono i j cols ltac:(lia)). lia. }
    pose proof (sum_cells (row_height s cols sorted) gap_y _ _
                  (λ k, max_list_nonneg _) ltac:(lia) Hr) as Hs.
    pose proof (max_list_nonneg
                  ((λ n, dimensions_y (s n)) <$> row_nodes cols (i / cols) sorted)).
    fold (row_height s cols sorted (i / cols)) in *.
    apply orb_true_iff. left. apply Z.ltb_lt. lia.
Qed.

Lemma StronglySorted_lookup {A} (R : relation A) (l : list A) :
  (∀ i j a b, i < j → l !! i = Some a → l !! j = Some b → R a b) →
  StronglySorted R l.
Proof.
  induction l as [|x l IH]; intros H; constructor.
  - apply IH. intros i j a b Hij Hi Hj. apply (H (S i) (S j)); [lia|done|done].
  - apply Forall_forall. intros y Hy.
    apply list_elem_of_lookup in Hy as [j Hj].
    apply (H 0 (S j)); [lia|done|done].
Qed.

(** A list in strictly increasing order of the keys is what the sort
    returns for each of its permutations. *)
Lemma sorted_by_key_strict s l l' :
  (∀ i j a b, i < j → l !! i = Some a → l !! j = Some b →
              key_lt (sort_key s a) (sort_key s b) = true) →
  l' ≡ₚ l → sorted_by_key s l' = l.
Proof.
  intros Hl Hp.
  apply (StronglySorted_unique_strong (key_ordered s)).
  - intros x1 x2 H1 H2 H12 H21.
    rewrite sorted_by_key_perm, Hp in H1.
    apply list_elem_of_lookup in H1 as [i Hi].
    apply list_elem_of_lookup in H2 as [j Hj].
    destruct (decide (i = j)) as [->|Hne]; [congruence|].
    unfold key_ordered, key_le in H12, H21.
    destruct (decide (i < j)).
    + rewrite (Hl i j x1 x2) in H21 by (done || lia). done.
    + rewrite (Hl j i x2 x1) in H12 by (done || lia). done.
  - apply sorted_by_key_sorted.
  - apply StronglySorted_lookup. intros i j a b Hij Hi Hj.
    unfold key_ordered. apply key_lt_le. by apply (Hl i j).
  - by rewrite sorted_by_key_perm.
Qed.

Lemma moved_fields s s' n :
  moved s s' →
  name (s' n) = name (s n) ∧ label (s' n) = label (s n) ∧
  width (s' n) = width (s n) ∧ dimensions_y (s' n) = dimensions_y (s n).
Proof. intros H. rewrite (H n). done. Qed.

Lemma moved_same s s' n :
  moved s s' →
  location_x (s' n) = location_x (s n) →
  location_y (s' n) = location_y (s n) →
  s' n = s n.
Proof. intros H Hx Hy. rewrite (H n), Hx, Hy. apply with_location_id. Qed.

Lemma layout_nodes_grid_moved s nodes cols gap_x gap_y s' :
  layout_nodes_grid s nodes cols gap_x gap_y = Returned s' → moved s s'.
Proof.
  intros H. unfold layout_nodes_grid in H.
  destruct nodes as [|n0 nodes0]; [injection H as <-; apply moved_refl|].
  destruct (filter (λ n, is_tmp_attr s n = false) (n0 :: nodes0));
    [injection H as <-; apply moved_refl|].
  destruct (decide (cols = 0)); [done|]. injection H as <-.
  apply moved_place_attrs, moved_place_rows, moved_refl.
Qed.

Lemma regular_nodes_moved s s' nodes :
  moved s s' → regular_nodes s' nodes = regular_nodes s nodes.
Proof.
  intros H. unfold regular_nodes. apply filter_ext_in. intros n _.
  unfold is_tmp_attr. destruct (moved_fields s s' n H) as (_ & -> & _). done.
Qed.

Lemma parent_of_moved s s' nodes a :
  moved s s' → parent_of s' nodes a = parent_of s nodes a.
Proof.
  intros H. unfold parent_of. rewrite (regular_nodes_moved s s') by done.
  f_equal. apply list_find_ext. intros p.
  destruct (moved_fields s s' p H) as (-> & _).
  destruct (moved_fields s s' a H) as (-> & _). done.
Qed.

Lemma min_of_attained d l x :
  x ∈ l → (∀ y, y ∈ l → (x ≤ y)%Z) → min_of d l = x.
Proof.
  intros Hx Hmin.
  destruct (min_of_spec d l) as [Hin Hle]; [by intros ->; inversion Hx|].
  specialize (Hle x Hx). specialize (Hmin _ Hin). lia.
Qed.

Lemma max_of_attained d l x :
  x ∈ l → (∀ y, y ∈ l → (y ≤ x)%Z) → max_of d l = x.
Proof.
  intros Hx Hmax.
  destruct (max_of_spec d l) as [Hin Hle]; [by intros ->; inversion Hx|].
  specialize (Hle x Hx). specialize (Hmax _ Hin). lia.
Qed.

Lemma sum_seq_nonneg (f : nat → Z) c :
  (∀ k, 0 ≤ f k)%Z → (0 ≤ sum (f <$> seq 0 c))%Z.
Proof.
  intros Hf. apply sum_nonneg, Forall_fmap, Forall_forall. intros k _. apply Hf.
Qed.

(** X25.  With positive gaps a second run of [layout_nodes_grid] on
    the same list, whose regular nodes are distinct, changes nothing:
    the grid it computes from the positions the first run left is the
    grid of the first run, and the attribute nodes are already beside
    their partners. *)
Theorem layout_nodes_grid_idempotent (s : Store) (nodes : list node_id)
    (cols : nat) (gap_x gap_y : Z) (s' : Store) :
  NoDup (regular_nodes s nodes) →
  (0 < gap_x)%Z → (0 < gap_y)%Z →
  layout_nodes_grid s nodes cols gap_x gap_y = Returned s' →
  ∃ s'', layout_nodes_grid s' nodes cols gap_x gap_y = Returned s'' ∧
         ∀ n, s'' n = s' n.
Proof.
  intros Hnd Hgx Hgy H.
  pose proof (layout_nodes_grid_moved _ _ _ _ _ _ H) as Hmv.
  pose proof (regular_nodes_moved s s' nodes Hmv) as HR.
  destruct (layout_nodes_grid_shape _ _ _ _ _ _ H) as [[E Es]|(Hne & Hcols & _)].
  { exists s'. split; [|done]. unfold layout_nodes_grid.
    destruct nodes as [|n0 nodes0]; [done|].
    fold (regular_nodes s' (n0 :: nodes0)). by rewrite HR, E. }
  destruct (layout_nodes_grid_returns s' nodes cols gap_x gap_y Hcols) as [s'' H2].
  exists s''. split; [done|].
  pose proof (layout_nodes_grid_moved _ _ _ _ _ _ H2) as Hmv2.
  set (L := sorted_by_key s (regular_nodes s nodes)).
  set (ox := min_of 0 ((λ n, location_x (s n)) <$> L)).
  set (oy := max_of 0 ((λ n, location_y (s n)) <$> L)).
  assert (HLp : L ≡ₚ regular_nodes s nodes) by apply sorted_by_key_perm.
  assert (HL : sorted_by_key s' (regular_nodes s' nodes) = L).
  { rewrite HR. apply sorted_by_key_strict; [|done].
    intros i j a b Hij Hi Hj.
    by apply (grid_cells_strict s nodes cols gap_x gap_y s' i j a b). }
  assert (Hcw : ∀ c, column_width s' cols L c = column_width s cols L c).
  { intros c. unfold column_width. f_equal. apply list_fmap_ext. intros i n _.
    by destruct (moved_fields s s' n Hmv) as (_ & _ & -> & _). }
  assert (Hrh : ∀ r, row_height s' cols L r = row_height s cols L r).
  { intros r. unfold row_height. f_equal. apply list_fmap_ext. intros i n _.
    by destruct (moved_fields s s' n Hmv) as (_ & _ & _ & ->). }
  assert (Hcell : ∀ i n, L !! i = Some n →
            location_x (s' n) = grid_x s cols gap_x L ox (i mod cols) ∧
            location_y (s' n) = grid_y s cols gap_y L oy (i / cols)).
  { intros i n Hi.
    by destruct (layout_nodes_grid_cell s nodes cols gap_x gap_y s' i n Hnd H Hi)
      as (_ & ? & ?). }
  assert (H0 : ∃ n0, L !! 0 = Some n0).
  { destruct L as [|n0 L0] eqn:EL; [|by exists n0].
    apply Permutation_nil_l in HLp. by destruct Hne. }
  destruct H0 as [n0 Hn0].
  assert (Hox : min_of 0 ((λ n, location_x (s' n)) <$> L) = ox).
  { apply min_of_attained.
    - apply list_elem_of_fmap. exists n0. split; [|by eapply list_elem_of_lookup_2].
      destruct (Hcell 0 n0 Hn0) as [-> _]. rewrite Nat.Div0.mod_0_l.
      unfold grid_x. cbn [seq fmap list_fmap]. unfold sum. simpl. lia.
    - intros y Hy. apply list_elem_of_fmap in Hy as (n & -> & Hn).
      apply list_elem_of_lookup in Hn as [i Hi].
      destruct (Hcell i n Hi) as [-> _]. unfold grid_x.
      pose proof (sum_seq_nonneg (column_width s cols L) (i mod cols)
                    (λ k, max_list_nonneg _)).
      nia. }
  assert (Hoy : max_of 0 ((λ n, location_y (s' n)) <$> L) = oy).
  { apply max_of_attained.
    - apply list_elem_of_fmap. exists n0. split; [|by eapply list_elem_of_lookup_2].
      destruct (Hcell 0 n0 Hn0) as [_ ->]. rewrite Nat.Div0.div_0_l.
      unfold grid_y. cbn [seq fmap list_fmap]. unfold sum. simpl. lia.
    - intros y Hy. apply list_elem_of_fmap in Hy as (n & -> & Hn).
      apply list_elem_of_lookup in Hn as [i Hi].
      destruct (Hcell i n Hi) as [_ ->]. unfold grid_y.
      pose proof (sum_seq_nonneg (row_height s cols L) (i / cols)
                    (λ k, max_list_nonneg _)).
      nia. }
  assert (Hreg : ∀ n, n ∈ regular_nodes s nodes → s'' n = s' n).
  { intros n Hn. rewrite <- HLp in Hn.
    apply list_elem_of_lookup in Hn as [i Hi].
    assert (Hnd' : NoDup (regular_nodes s' nodes)) by (by rewrite HR).
    assert (Hi' : sorted_by_key s' (regular_nodes s' nodes) !! i = Some n)
      by (by rewrite HL).
    destruct (layout_nodes_grid_cell s' nodes cols gap_x gap_y s'' i n Hnd' H2 Hi')
      as (_ & Hx & Hy).
    rewrite HL, Hox in Hx. rewrite HL, Hoy in Hy.
    destruct (Hcell i n Hi) as [Hx' Hy'].
    apply (moved_same s' s'' n Hmv2).
    - rewrite Hx, Hx'. unfold grid_x. do 2 f_equal. f_equal.
      apply list_fmap_ext. intros ? c _. apply Hcw.
    - rewrite Hy, Hy'. unfold grid_y. do 2 f_equal. f_equal.
      apply list_fmap_ext. intros ? r _. apply Hrh. }
  intros n. destruct (decide (n ∈ nodes)) as [Hin|Hin];
    [|by apply (layout_nodes_grid_other _ _ _ _ _ _ _ H2)].
  destruct (is_tmp_attr s n) eqn:Ea.
  - assert (Ea' : is_tmp_attr s' n = true).
    { unfold is_tmp_attr in *.
      by destruct (moved_fields s s' n Hmv) as (_ & -> & _). }
    pose proof (layout_attribute_cases s nodes cols gap_x gap_y s' n H Hin Ea) as C1.
    pose proof (layout_attribute_cases s' nodes cols gap_x gap_y s'' n H2 Hin Ea') as C2.
    rewrite (parent_of_moved s s') in C2 by done.
    destruct (parent_of s nodes n) as [p|]; [|done].
    destruct C1 as (Hp & Hpa & _ & Hx1 & Hy1).
    destruct C2 as (_ & _ & _ & Hx2 & Hy2).
    assert (Ep : s'' p = s' p).
    { apply Hreg. by apply list_elem_of_filter. }
    apply (moved_same s' s'' n Hmv2).
    + by rewrite Hx2, Ep, Hx1.
    + by rewrite Hy2, Ep, Hy1.
  - apply Hreg. by apply list_elem_of_filter.
Qed.

Lemma layout_nodes_grid_idempotent_witness :
  ∃ s' s'',
    layout_nodes_grid s_layout [1; 2; 3; 4] 2 120 80 = Returned s' ∧
    layout_nodes_grid s' [1; 2; 3; 4] 2 120 80 = Returned s'' ∧
    ∀ n, s'' n = s' n.
Proof.
  assert (Hnd : NoDup (regular_nodes s_layout [1; 2; 3; 4])).
  { apply (bool_decide_unpack _). by vm_compute. }
  assert (H0 : (0 < 120)%Z) by lia.
  assert (H1 : (0 < 80)%Z) by lia.
  eexists.
  destruct (layout_nodes_grid_idempotent s_layout [1; 2; 3; 4] 2 120 80 _
              Hnd H0 H1 eq_refl) as (s'' & H2 & H3).
  exists s''. split; [reflexivity|]. split; [exact H2 | exact H3].
Defined.

(** ** The delete operator and the nodes of payloads *)

Lemma remove_nodes_app l1 : ∀ t l2,
  remove_nodes t (l1 ++ l2) =
  match remove_nodes t l1 with
  | (t', None) => remove_nodes t' l2
  | r => r
  end.
Proof.
  induction l1 as [|k l1 IH]; intros t l2; simpl; [done|].
  destruct (nodes_remove t k) as [t'|e]; [apply IH | done].
Qed.

(** The first key with a property splits the list of keys. *)
Lemma split_first {A} (P : A → Prop) `{∀ x, Decision (P x)} (l : list A) x :
  x ∈ l → P x →
  ∃ pre y post, l = pre ++ y :: post ∧ P y ∧ Forall (λ z, ¬ P z) pre.
Proof.
  induction l as [|z l IH]; intros Hx HP; [inversion Hx|].
  destruct (decide (P z)) as [Hz|Hz].
  - exists [], z, l. repeat split; auto.
  - apply elem_of_cons in Hx as [->|Hx]; [done|].
    destruct (IH Hx HP) as (pre & y & post & -> & Hy & Hpre).
    exists (z :: pre), y, post. repeat split; auto.
Qed.

(** X26.  When the recursive analysis of the active tree reports a
    node that is not a node of that tree (a node of a payload), the
    delete operator does not finish: it removes the findings that come
    before the first such node, then [tree.nodes.remove] raises and the
    operator reports the error and returns [CANCELLED], leaving the
    tree without the nodes removed so far. *)
Theorem delete_unused_foreign (t : NodeTree) (k : node_id) :
  let d := find_unused_nodes_recursive (Some t) "" true in
  NoDup (nid <$> nodes t) →
  k ∈ dict_ids d →
  k ∉ nid <$> nodes t →
  ∃ pre foreign post,
    dict_keys d = pre ++ foreign :: post ∧
    (nid foreign ∉ nid <$> nodes t) ∧
    Forall (λ n, nid n ∈ nid <$> nodes t) pre ∧
    delete_unused_execute (mkContext (Some (mkSpaceData (Some t))))
      = (CANCELLED, ERROR_exception "RuntimeError",
         Some (without t (nid <$> pre))).
Proof.
  intros d Hnd Hk Hforeign.
  assert (Hd : NoDup (dict_ids d)) by apply find_unused_nodes_rec_NoDup.
  unfold dict_ids in Hk. apply list_elem_of_fmap in Hk as (n & -> & Hn).
  destruct (split_first (λ x, nid x ∉ nid <$> nodes t) (dict_keys d) n Hn Hforeign)
    as (pre & y & post & E & Hy & Hpre).
  exists pre, y, post. split; [done|]. split; [done|].
  assert (Hpre' : Forall (λ n, nid n ∈ nid <$> nodes t) pre).
  { eapply Forall_impl; [exact Hpre|]. intros z Hz. simpl in Hz.
    by destruct (decide (nid z ∈ nid <$> nodes t)). }
  split; [done|].
  unfold delete_unused_execute. cbn [get_active_node_tree space_data sd_node_tree].
  fold d. destruct d as [|kv d'] eqn:Ed.
  { by destruct pre. }
  rewrite <- Ed in *. rewrite E, remove_nodes_app.
  unfold dict_ids in Hd. rewrite E, fmap_app, fmap_cons in Hd.
  apply NoDup_app in Hd as (Hd1 & Hd2 & _).
  rewrite remove_nodes_owned; [|done|by apply Forall_forall].
  fold (without t (nid <$> pre)). cbn [remove_nodes]. unfold nodes_remove.
  rewrite bool_decide_eq_false_2; [done|].
  intros Hin. apply Hy. cbn [without nodes] in Hin.
  apply list_elem_of_fmap in Hin as (m & Em & Hm).
  apply list_elem_of_filter in Hm as [_ Hm]. rewrite Em.
  by apply list_elem_of_fmap_2.
Qed.

Lemma delete_unused_foreign_witness :
  ∃ pre foreign post,
    dict_keys (find_unused_nodes_recursive (Some g_one_group) "" true)
      = pre ++ foreign :: post ∧
    delete_unused_execute ctx_one_group
      = (CANCELLED, ERROR_exception "RuntimeError",
         Some (without g_one_group (nid <$> pre))).
Proof.
  assert (Hnd : NoDup (nid <$> nodes g_one_group)).
  { apply (bool_decide_unpack _). by vm_compute. }
  assert (Hk : 11 ∈ dict_ids (find_unused_nodes_recursive (Some g_one_group) "" true)).
  { apply (bool_decide_unpack _). by vm_compute. }
  assert (Hf : 11 ∉ nid <$> nodes g_one_group).
  { apply (bool_decide_unpack _). by vm_compute. }
  destruct (delete_unused_foreign g_one_group 11 Hnd Hk Hf)
    as (pre & foreign & post & H1 & _ & _ & H2).
  exists pre, foreign, post. split; [exact H1 | exact H2].
Defined.

(** ** The output-connected materials of a new record *)

Lemma usage_entry_conn v u i :
  default [] (connected_to_output (usage_entry v.1.1 v.1.2 v.2 u i)) =
  if matches u v && bool_decide (v.1.1 ∉ materials i)
     && bool_decide (v.1.1 ∉ default [] (connected_to_output i))
     && is_group_connected_to_output (Some v.2) (Some v.1.2)
  then default [] (connected_to_output i) ++ [v.1.1]
  else default [] (connected_to_output i).
Proof.
  unfold usage_entry, matches.
  destruct (is_group u && same_tree (node_tree u) (node_tree v.2)); [|done].
  cbn [andb].
  destruct (bool_decide (v.1.1 ∉ materials i)); [|done].
  cbn [connected_to_output default from_option andb].
  destruct (bool_decide (v.1.1 ∉ default [] (connected_to_output i))); [|done].
  cbn [andb].
  by destruct (is_group_connected_to_output (Some v.2) (Some v.1.2)).
Qed.

Lemma usage_of_entry_snoc insts v u i :
  usage_of_entry (insts ++ [v]) u i
  = usage_entry v.1.1 v.1.2 v.2 u (usage_of_entry insts u i).
Proof. unfold usage_of_entry. by rewrite foldl_app. Qed.

Lemma first_match_snoc u insts x m v :
  first_match u (insts ++ [x]) m v ↔
  first_match u insts m v ∨
  (v = x ∧ matches u x = true ∧ x.1.1 = m ∧
   ∀ w, w ∈ insts → matches u w = true → w.1.1 ≠ m).
Proof.
  unfold first_match. split.
  - intros (pre & post & E & Hm & Hn & Hpre).
    destruct post as [|y post _] using rev_ind.
    + apply app_inj_tail in E as [-> ->]. right. auto.
    + rewrite app_comm_cons, app_assoc in E.
      apply app_inj_tail in E as [-> ->]. left. exists pre, post. auto.
  - intros [(pre & post & -> & Hm & Hn & Hpre)|(-> & Hm & Hn & Hpre)].
    + exists pre, (post ++ [x]). rewrite <- app_assoc. auto.
    + exists insts, []. auto.
Qed.

(** The lists of a record that was new, after the visits [insts]. *)
Lemma usage_of_entry_first u i insts :
  materials i = [] → connected_to_output i = Some [] →
  (∀ m, m ∈ materials (usage_of_entry insts u i) ↔
        ∃ w, w ∈ insts ∧ matches u w = true ∧ w.1.1 = m) ∧
  (∀ m, m ∈ default [] (connected_to_output (usage_of_entry insts u i)) ↔
        ∃ v, first_match u insts m v ∧
             is_group_connected_to_output (Some v.2) (Some v.1.2) = true).
Proof.
  intros Hm0 Hc0.
  assert (Hmat : ∀ l m, m ∈ materials (usage_of_entry l u i) ↔
            ∃ w, w ∈ l ∧ matches u w = true ∧ w.1.1 = m).
  { intros l m. rewrite usage_of_entry_materials, Hm0. split.
    - intros [H|H]; [inversion H | done].
    - intros H. by right. }
  split; [apply Hmat|].
  induction insts as [|x insts IH] using rev_ind; intros m.
  - simpl. rewrite Hc0. simpl. split; [inversion 1|].
    intros (v & (pre & post & E & _) & _). by destruct pre.
  - rewrite usage_of_entry_snoc, usage_entry_conn.
    set (acc := usage_of_entry insts u i) in *.
    assert (Hsub : ∀ n, n ∈ default [] (connected_to_output acc) →
                        n ∈ materials acc).
    { intros n Hn. apply IH in Hn as (v & (pre & post & -> & Hv & Hnm & _) & _).
      apply Hmat. exists v. split; [|done]. rewrite elem_of_app. right. left. }
    assert (Hstep : (∃ v, first_match u (insts ++ [x]) m v ∧
                          is_group_connected_to_output (Some v.2) (Some v.1.2) = true) ↔
                    m ∈ default [] (connected_to_output acc) ∨
                    (matches u x = true ∧ x.1.1 = m ∧
                     (∀ w, w ∈ insts → matches u w = true → w.1.1 ≠ m) ∧
                     is_group_connected_to_output (Some x.2) (Some x.1.2) = true)).
    { rewrite IH. split.
      - intros (v & Hf & Hc). apply first_match_snoc in Hf as [Hf|(-> & ? & ? & ?)].
        + left. by exists v.
        + right. auto.
      - intros [(v & Hf & Hc)|(Hx & Hn & Hpre & Hc)].
        + exists v. split; [|done]. apply first_match_snoc. by left.
        + exists x. split; [|done]. apply first_match_snoc. right. auto. }
    rewrite Hstep. clear Hstep.
    destruct (matches u x) eqn:Ex; cbn [andb].
    2:{ split; [by left | intros [?|(? & _)]; done]. }
    destruct (bool_decide (x.1.1 ∉ materials acc)) eqn:Em; cbn [andb].
    2:{ apply bool_decide_eq_false in Em.
        assert (Hin : x.1.1 ∈ materials acc)
          by (by destruct (decide (x.1.1 ∈ materials acc))).
        apply Hmat in Hin as (w & Hw & Hwm & Hwn).
        split; [by left|]. intros [?|(_ & Hn & Hpre & _)]; [done|].
        destruct (Hpre w Hw Hwm). congruence. }
    apply bool_decide_eq_true in Em.
    assert (Hfresh : ∀ w, w ∈ insts → matches u w = true → w.1.1 ≠ x.1.1).
    { intros w Hw Hwm Hwn. apply Em. apply Hmat. by exists w. }
    rewrite bool_decide_eq_true_2 by (intros Hn; by apply Em, Hsub).
    cbn [andb].
    destruct (is_group_connected_to_output (Some x.2) (Some x.1.2)) eqn:Ec.
    + rewrite elem_of_app, list_elem_of_singleton. split.
      * intros [?| ->]; [by left|]. right. auto.
      * intros [?|(_ & <- & _)]; [by left | by right].
    + split; [by left|]. intros [?|(_ & _ & _ & ?)]; done.
Qed.

(** X27.  For a record that was new (no material listed yet),
    [collect_group_usage] lists a material as connected to the output
    exactly when the first group node with the record's payload that
    it meets in a material of that name, in the order of the
    materials and of their nodes, has a linked output socket; the
    later instances of the payload in materials of that name are not
    looked at. *)
Theorem collect_group_usage_connected_first (d : Dict) (mats : list Material)
    (j : nat) (u : Node) (info : Info) :
  d !! j = Some (u, info) →
  materials info = [] →
  connected_to_output info = Some [] →
  ∃ info',
    collect_group_usage d mats !! j = Some (u, info') ∧
    ∀ m, m ∈ default [] (connected_to_output info') ↔
         ∃ v, first_match u (instances mats) m v ∧
              is_group_connected_to_output (Some v.2) (Some v.1.2) = true.
Proof.
  intros Hj Hm Hc. exists (usage_of_entry (instances mats) u info).
  split; [by apply collect_group_usage_lookup|].
  by apply usage_of_entry_first.
Qed.

Lemma collect_group_usage_connected_first_witness :
  let u := nd 2 "Group" "GROUP" (Some g_payload) 0 1 in
  let d : Dict := [(u, fresh_info u "B")] in
  ∃ info',
    collect_group_usage d [mat_B2] !! 0 = Some (u, info') ∧
    ∀ m, m ∈ default [] (connected_to_output info') ↔
         ∃ v, first_match u (instances [mat_B2]) m v ∧
              is_group_connected_to_output (Some v.2) (Some v.1.2) = true.
Proof.
  intros u d.
  exact (collect_group_usage_connected_first d [mat_B2] 0 u (fresh_info u "B")
           eq_refl eq_refl eq_refl).
Defined.

(** ** The placement of the group *)

Lemma node_to_view_root fuel s k :
  parent (s k) = None →
  node_to_view fuel s k = (location_x (s k), location_y (s k)).
Proof. intros H. destruct fuel; simpl; by rewrite ?H. Qed.

Lemma node_to_view_child fuel s k f :
  parent (s k) = Some f → parent (s f) = None →
  node_to_view (S fuel) s k
  = ((location_x (s k) + location_x (s f))%Z,
     (location_y (s k) + location_y (s f))%Z).
Proof.
  intros Hk Hf. cbn [node_to_view]. rewrite Hk.
  by rewrite (node_to_view_root fuel s f Hf).
Qed.

Lemma foldl_set_parent_other fuel frame l : ∀ s n,
  n ∉ l → foldl (λ s k, set_parent fuel s k frame) s l n = s n.
Proof.
  induction l as [|k l IH]; intros s n Hn; simpl; [done|].
  apply not_elem_of_cons in Hn as [Hne Hn].
  rewrite IH by done. unfold set_parent. by apply update_ne.
Qed.

Lemma foldl_set_parent_parent fuel frame l : ∀ s n,
  n ∈ l → parent (foldl (λ s k, set_parent fuel s k frame) s l n) = Some frame.
Proof.
  induction l as [|k l IH]; intros s n Hn; [inversion Hn|]. simpl.
  destruct (decide (n ∈ l)) as [Hl|Hl]; [by apply IH|].
  apply elem_of_cons in Hn as [->|Hn]; [|done].
  rewrite foldl_set_parent_other by done.
  unfold set_parent. by rewrite update_eq.
Qed.

(** The loop [for n in group_nodes: n.parent = frame] on nodes that
    are in no frame. *)
Lemma foldl_set_parent_root fuel frame l : ∀ s n,
  NoDup l → frame ∉ l →
  parent (s frame) = None →
  (∀ k, k ∈ l → parent (s k) = None) →
  n ∈ l →
  location_x (foldl (λ s k, set_parent fuel s k frame) s l n)
    = (location_x (s n) - location_x (s frame))%Z ∧
  location_y (foldl (λ s k, set_parent fuel s k frame) s l n)
    = (location_y (s n) - location_y (s frame))%Z.
Proof.
  induction l as [|k l IH]; intros s n Hnd Hf Hpf Hp Hn; [inversion Hn|].
  apply NoDup_cons in Hnd as [Hk Hnd].
  apply not_elem_of_cons in Hf as [Hfk Hf]. simpl.
  apply elem_of_cons in Hn as [->|Hn].
  - rewrite foldl_set_parent_other by done.
    unfold set_parent. rewrite update_eq. cbn [location_x location_y].
    rewrite (node_to_view_root fuel s k) by (apply Hp; left).
    by rewrite (node_to_view_root fuel s frame).
  - assert (Hnk : n ≠ k) by (by intros ->).
    destruct (IH (set_parent fuel s k frame) n) as [Hx Hy]; try done.
    + unfold set_parent. by rewrite update_ne.
    + intros m Hm. unfold set_parent. rewrite update_ne by (by intros ->).
      apply Hp. by right.
    + rewrite Hx, Hy. unfold set_parent. by rewrite !update_ne.
Qed.

Lemma translate_group_in s1 group_nodes used_nodes margin n :
  NoDup group_nodes → n ∈ group_nodes →
  translate_group s1 group_nodes used_nodes margin n
  = with_location (s1 n)
      (location_x (s1 n) + group_dx s1 group_nodes used_nodes margin)
      (location_y (s1 n)).
Proof.
  intros Hnd Hn. unfold translate_group.
  by rewrite (foldl_update_in
    (λ o, with_location o
            (location_x o + group_dx s1 group_nodes used_nodes margin)
            (location_y o))).
Qed.

Lemma translate_group_other s1 group_nodes used_nodes margin n :
  n ∉ group_nodes → translate_group s1 group_nodes used_nodes margin n = s1 n.
Proof. intros Hn. unfold translate_group. by rewrite foldl_update_other. Qed.

Lemma layout_nodes_grid_parent s nodes cols gap_x gap_y s' n :
  layout_nodes_grid s nodes cols gap_x gap_y = Returned s' →
  parent (s' n) = parent (s n).
Proof.
  intros H.
  assert (Hm : moved s s').
  { unfold layout_nodes_grid in H.
    destruct nodes as [|n0 nodes0]; [injection H as <-; apply moved_refl|].
    destruct (filter (λ n, is_tmp_attr s n = false) (n0 :: nodes0));
      [injection H as <-; apply moved_refl|].
    destruct (decide (cols = 0)); [done|]. injection H as <-.
    apply moved_place_attrs, moved_place_rows, moved_refl. }
  by rewrite (Hm n).
Qed.

(** The scene [place_group_left_of_used] returns. *)
Lemma place_group_objects (tree : Scene) (group_nodes used_nodes : list node_id)
    (margin : Z) :
  group_nodes ≠ [] →
  NoDup group_nodes →
  ∃ s1 scene',
    let frame := fresh_id (scene_nodes tree ++ group_nodes ++ used_nodes) in
    let s2 := translate_group s1 group_nodes used_nodes margin in
    layout_nodes_grid (objects tree) group_nodes 6 120 80 = Returned s1 ∧
    place_group_left_of_used tree group_nodes used_nodes margin
      = Returned (scene', Some frame) ∧
    scene_nodes scene' = scene_nodes tree ++ [frame] ∧
    objects scene' frame
      = mkNode frame "Frame" "FRAME" "NodeFrame"
          "The Material Editor Exterminatus" None
          (min_of 0 ((λ n, location_x (s2 n)) <$> group_nodes) - 40)
          (max_of 0 ((λ n, location_y (s2 n)) <$> group_nodes) + 40)
          100 100 None 0 0 ∧
    (∀ n, n ∈ group_nodes → parent (objects scene' n) = Some frame) ∧
    ((∀ n, n ∈ group_nodes → parent (objects tree n) = None) →
     ∀ n, n ∈ group_nodes →
       location_x (objects scene' n)
         = (location_x (s2 n) - location_x (objects scene' frame))%Z ∧
       location_y (objects scene' n)
         = (location_y (s2 n) - location_y (objects scene' frame))%Z) ∧
    (∀ n, n ∉ group_nodes → n ≠ frame → objects scene' n = objects tree n).
Proof.
  intros Hne Hnd.
  destruct (layout_nodes_grid_returns (objects tree) group_nodes 6 120 80)
    as [s1 Hs1]; [done|].
  set (frame := fresh_id (scene_nodes tree ++ group_nodes ++ used_nodes)).
  assert (Hfresh : frame ∉ scene_nodes tree ++ group_nodes ++ used_nodes)
    by apply fresh_id_fresh.
  rewrite !elem_of_app in Hfresh.
  exists s1. unfold place_group_left_of_used.
  assert (Hmatch : ∀ (A : Type) (a b : A),
            match group_nodes with [] => a | _ :: _ => b end = b)
    by (intros; by destruct group_nodes).
  rewrite Hmatch, Hs1. fold frame.
  eexists. split; [reflexivity|]. split; [reflexivity|].
  cbv zeta. cbn [objects scene_nodes].
  set (s2 := translate_group s1 group_nodes used_nodes margin).
  set (s3 := update s2 frame _).
  set (fuel := S (length (scene_nodes tree))).
  assert (Hs3f : s3 frame
            = mkNode frame "Frame" "FRAME" "NodeFrame"
                "The Material Editor Exterminatus" None
                (min_of 0 ((λ n, location_x (s2 n)) <$> group_nodes) - 40)
                (max_of 0 ((λ n, location_y (s2 n)) <$> group_nodes) + 40)
                100 100 None 0 0).
  { unfold s3. by rewrite update_eq. }
  assert (Hs3 : ∀ n, n ≠ frame → s3 n = s2 n).
  { intros n Hn. unfold s3. by rewrite update_ne. }
  assert (Hframe : foldl (λ s n, set_parent fuel s n frame) s3 group_nodes frame
                   = s3 frame).
  { apply foldl_set_parent_other. tauto. }
  split; [done|]. split; [by rewrite Hframe|]. split; [|split].
  - intros n Hn. by apply foldl_set_parent_parent.
  - intros Hroot n Hn. rewrite Hframe, Hs3f. cbn [location_x location_y].
    destruct (foldl_set_parent_root fuel frame group_nodes s3 n) as [Hx Hy];
      try done; try tauto.
    + by rewrite Hs3f.
    + intros k Hk. rewrite Hs3 by (intros ->; tauto).
      unfold s2. rewrite translate_group_in by done. cbn [with_location parent].
      rewrite (layout_nodes_grid_parent _ _ _ _ _ _ k Hs1). by apply Hroot.
    + rewrite Hx, Hy, Hs3f, Hs3 by (intros ->; tauto). done.
  - intros n Hn Hnf. rewrite foldl_set_parent_other by done.
    rewrite Hs3 by done. unfold s2. rewrite translate_group_other by done.
    by apply (layout_nodes_grid_other _ _ _ _ _ _ _ Hs1).
Qed.




(** The example: the group nodes 2, 3 and 4 are translated so that
    their largest x is [0 - 400], the x of the used node 1 minus the
    margin; the frame 5 is put at [(-850, 90)] and the locations of
    the group nodes end relative to it. *)
Example place_group_example :
  ∃ s1 scene',
    layout_nodes_grid s_layout [2; 3; 4] 6 120 80 = Returned s1 ∧
    place_group_left_of_used (mkScene s_layout [1; 2; 3; 4])
      [2; 3; 4] [1] 400 = Returned (scene', Some 5) ∧
    locations (translate_group s1 [2; 3; 4] [1] 400) [1; 2; 3; 4]
    = [(1, 0%Z, 0%Z); (2, (-660)%Z, 50%Z); (3, (-400)%Z, 50%Z);
       (4, (-810)%Z, 50%Z)] ∧
    locations (objects scene') [1; 2; 3; 4; 5]
    = [(1, 0%Z, 0%Z); (2, 190%Z, (-40)%Z); (3, 450%Z, (-40)%Z);
       (4, 40%Z, (-40)%Z); (5, (-850)%Z, 90%Z)] ∧
    (λ n : node_id, parent (objects scene' n)) <$> [2; 3; 4]
    = [Some 5; Some 5; Some 5].
Proof.
  eexists _, _. split; [reflexivity|]. split; [reflexivity|].
  repeat split; by vm_compute.
Qed.

(** X18.  When the list of group nodes is non-empty and without
    repetition, and neither the group nodes nor the used node are in a
    frame before the call, [place_group_left_of_used] leaves every
    node of the group, in the view (its location plus the location of
    the new frame), at least [margin] to the left of every used node
    that is not in the group; those used nodes are as they were. *)
Theorem place_group_left_of_used_clearance (tree : Scene)
    (group_nodes used_nodes : list node_id) (margin : Z) :
  group_nodes ≠ [] →
  NoDup group_nodes →
  (∀ n, n ∈ group_nodes → parent (objects tree n) = None) →
  ∃ scene' frame,
    place_group_left_of_used tree group_nodes used_nodes margin
      = Returned (scene', Some frame) ∧
    ∀ g u fuel, g ∈ group_nodes → u ∈ used_nodes → u ∉ group_nodes →
           parent (objects tree u) = None →
           objects scene' u = objects tree u ∧
           ((node_to_view (S fuel) (objects scene') g).1 + margin
            ≤ (node_to_view (S fuel) (objects scene') u).1)%Z.
Proof.
  intros Hne Hnd Hroot.
  destruct (place_group_objects tree group_nodes used_nodes margin Hne Hnd)
    as (s1 & scene' & Hs1 & Hret & _ & Hframe & Hpar & Hloc & Hout).
  cbv zeta in *.
  exists scene', (fresh_id (scene_nodes tree ++ group_nodes ++ used_nodes)).
  split; [exact Hret|].
  intros g u fuel Hg Hu Hug Hpu.
  assert (Hfresh := fresh_id_fresh (scene_nodes tree ++ group_nodes ++ used_nodes)).
  rewrite !elem_of_app in Hfresh.
  assert (Eu : objects scene' u = objects tree u).
  { apply Hout; [done|]. intros ->. tauto. }
  split; [done|].
  rewrite (node_to_view_root (S fuel) (objects scene') u) by (by rewrite Eu).
  rewrite (node_to_view_child fuel (objects scene') g _ (Hpar g Hg))
    by (by rewrite Hframe).
  destruct (Hloc Hroot g Hg) as [Hx _]. cbn [fst]. rewrite Hx, Eu.
  rewrite translate_group_in by done. cbn [with_location location_x].
  unfold group_dx.
  assert (E1 : s1 u = objects tree u)
    by (by apply (layout_nodes_grid_other _ _ _ _ _ _ _ Hs1)).
  assert (Hmin : (min_of 0 ((λ n, location_x (s1 n)) <$> used_nodes)
                  ≤ location_x (s1 u))%Z).
  { apply min_of_spec; [by destruct used_nodes; [inversion Hu|]|].
    by apply (list_elem_of_fmap_2 (λ n, location_x (s1 n))). }
  assert (Hmax : (location_x (s1 g)
                  ≤ max_of 0 ((λ n, location_x (s1 n)) <$> group_nodes))%Z).
  { apply max_of_spec; [by intros E%fmap_nil_inv|].
    by apply (list_elem_of_fmap_2 (λ n, location_x (s1 n))). }
  rewrite <- E1. lia.
Qed.

Lemma place_group_left_of_used_clearance_witness :
  ∃ scene' frame,
    place_group_left_of_used (mkScene s_layout [1; 2; 3; 4]) [2; 3; 4] [1] 400
      = Returned (scene', Some frame) ∧
    ∀ g u fuel, g ∈ [2; 3; 4] → u ∈ [1] → u ∉ [2; 3; 4] →
           parent (s_layout u) = None →
           objects scene' u = s_layout u ∧
           Z.le (Z.add (node_to_view (S fuel) (objects scene') g).1 400)
                (node_to_view (S fuel) (objects scene') u).1.
Proof.
  assert (Hne : [2; 3; 4] ≠ @nil node_id) by done.
  assert (Hnd : NoDup [2; 3; 4]).
  { apply (bool_decide_unpack _). by vm_compute. }
  assert (Hroot : ∀ n, n ∈ [2; 3; 4] → parent (s_layout n) = None).
  { apply Forall_forall. repeat constructor. }
  exact (place_group_left_of_used_clearance (mkScene s_layout [1; 2; 3; 4])
           [2; 3; 4] [1] 400 Hne Hnd Hroot).
Defined.



(** ** The frame of the unused nodes *)

(** X24.  [_create_unused_frame], given a non-empty list of pairs
    whose nodes are distinct, returns with a new frame of the tree,
    labelled [UNUSED], that is the parent of every node of the pairs;
    the frame is named [UNUSED_FRAME] when no node of the tree carries
    that name already (the host makes the names of a tree unique).
    When the nodes of the pairs were in no frame, every one of them
    ends, in the view (its location plus the location of the frame),
    at least 400 to the left of every other node of the tree that is
    neither a frame nor in a frame, and those nodes stay as they
    were. *)
Theorem create_unused_frame_spec (node_tree : Scene)
    (pairs : list (option node_id * node_id)) :
  pairs ≠ [] →
  NoDup (pair_nodes pairs) →
  ∃ scene' frame,
    create_unused_frame node_tree pairs = Returned scene' ∧
    (frame ∉ scene_nodes node_tree) ∧
    scene_nodes scene' = scene_nodes node_tree ++ [frame] ∧
    type (objects scene' frame) = "FRAME" ∧
    ((∀ u, u ∈ scene_nodes node_tree →
           name (objects node_tree u) ≠ "UNUSED_FRAME") →
     name (objects scene' frame) = "UNUSED_FRAME") ∧
    label (objects scene' frame) = "UNUSED" ∧
    parent (objects scene' frame) = None ∧
    (∀ g, g ∈ pair_nodes pairs → parent (objects scene' g) = Some frame) ∧
    ((∀ g, g ∈ pair_nodes pairs → parent (objects node_tree g) = None) →
     ∀ g u fuel, g ∈ pair_nodes pairs →
           u ∈ scene_nodes node_tree → u ∉ pair_nodes pairs →
           type (objects node_tree u) ≠ "FRAME" →
           parent (objects node_tree u) = None →
           objects scene' u = objects node_tree u ∧
           ((node_to_view (S fuel) (objects scene') g).1 + 400
            ≤ (node_to_view (S fuel) (objects scene') u).1)%Z).
Proof.
  intros Hne Hnd.
  assert (Hg : pair_nodes pairs ≠ []).
  { destruct pairs as [|[[a|] t] pairs]; [done| |]; unfold pair_nodes; simpl; done. }
  set (used_nodes := filter (λ n, (n ∉ pair_nodes pairs) ∧
                                  type (objects node_tree n) ≠ "FRAME")
                            (scene_nodes node_tree)).
  destruct (place_group_objects node_tree (pair_nodes pairs) used_nodes 400 Hg Hnd)
    as (s1 & sc & Hs1 & Hret & Hsc & Hframe & Hpar & Hloc & Hout).
  cbv zeta in *.
  set (frame := fresh_id (scene_nodes node_tree ++ pair_nodes pairs ++ used_nodes)) in *.
  assert (Hfresh : frame ∉ scene_nodes node_tree ++ pair_nodes pairs ++ used_nodes)
    by apply fresh_id_fresh.
  rewrite !elem_of_app in Hfresh.
  exists (mkScene (update (objects sc) frame
                     (λ o, with_name_label o "UNUSED_FRAME" "UNUSED"))
                  (scene_nodes sc)), frame.
  split.
  { unfold create_unused_frame.
    assert (Hmatch : ∀ (A : Type) (a b : A),
              match pairs with [] => a | _ :: _ => b end = b)
      by (intros; by destruct pairs).
    rewrite Hmatch. fold used_nodes. by rewrite Hret. }
  cbn [objects scene_nodes].
  split; [tauto|]. split; [done|].
  rewrite update_eq, Hframe. cbn [with_name_label type name label parent].
  split; [done|]. split; [done|]. split; [done|]. split; [done|]. split.
  - intros g Hgin. rewrite update_ne by (intros ->; tauto).
    by apply Hpar.
  - intros Hroot g u fuel Hgin Hu Hug Hty Hpu.
    assert (Huf : u ≠ frame) by (intros ->; tauto).
    assert (Hgf : g ≠ frame) by (intros ->; tauto).
    set (s' := update (objects sc) frame
                 (λ o, with_name_label o "UNUSED_FRAME" "UNUSED")).
    assert (Eu : s' u = objects node_tree u).
    { unfold s'. rewrite update_ne by done. by apply Hout. }
    assert (Eg : s' g = objects sc g) by (unfold s'; by rewrite update_ne).
    assert (Ef : s' frame
                 = with_name_label (objects sc frame) "UNUSED_FRAME" "UNUSED")
      by (unfold s'; by rewrite update_eq).
    split; [done|].
    rewrite (node_to_view_root (S fuel) s' u) by (by rewrite Eu).
    rewrite (node_to_view_child fuel s' g frame)
      by (rewrite ?Eg, ?Ef, ?Hframe; by auto).
    destruct (Hloc Hroot g Hgin) as [Hx _]. cbn [fst].
    rewrite Eg, Ef, Hx, Eu. cbn [with_name_label location_x].
    rewrite translate_group_in by done. cbn [with_location location_x].
    unfold group_dx.
    assert (Huu : u ∈ used_nodes) by (by apply list_elem_of_filter).
    assert (E1 : s1 u = objects node_tree u)
      by (by apply (layout_nodes_grid_other _ _ _ _ _ _ _ Hs1)).
    assert (Hmin : (min_of 0 ((λ n, location_x (s1 n)) <$> used_nodes)
                    ≤ location_x (s1 u))%Z).
    { apply min_of_spec; [by destruct used_nodes; [inversion Huu|]|].
      by apply (list_elem_of_fmap_2 (λ n, location_x (s1 n))). }
    assert (Hmax : (location_x (s1 g)
                    ≤ max_of 0 ((λ n, location_x (s1 n)) <$> pair_nodes pairs))%Z).
    { apply max_of_spec; [by intros E%fmap_nil_inv|].
      by apply (list_elem_of_fmap_2 (λ n, location_x (s1 n))). }
    rewrite <- E1. lia.
Qed.

Lemma create_unused_frame_spec_witness :
  ∃ scene' frame,
    create_unused_frame (mkScene s_layout [1; 2; 3; 4]) [(Some 4, 2); (None, 3)]
      = Returned scene' ∧
    label (objects scene' frame) = "UNUSED" ∧
    (∀ g, g ∈ [4; 2; 3] → parent (objects scene' g) = Some frame).
Proof.
  assert (Hne : [(Some 4, 2); (None, 3)] ≠ @nil (option node_id * node_id)) by done.
  assert (Hnd : NoDup (pair_nodes [(Some 4, 2); (None, 3)])).
  { apply (bool_decide_unpack _). by vm_compute. }
  destruct (create_unused_frame_spec (mkScene s_layout [1; 2; 3; 4])
              [(Some 4, 2); (None, 3)] Hne Hnd)
    as (scene' & frame & H1 & _ & _ & _ & _ & H2 & _ & H3 & _).
  exists scene', frame. split; [exact H1|]. split; [exact H2 | exact H3].
Defined.

(** The frame of the unused nodes on the tree of the layout: the
    locations of the nodes of the pairs are relative to the frame,
    their positions in the view are those of the translated grid. *)
Example create_unused_frame_example :
  ∃ scene',
    create_unused_frame (mkScene s_layout [1; 2; 3; 4]) [(Some 4, 2); (None, 3)]
      = Returned scene' ∧
    (λ k, (k, name (objects scene' k), label (objects scene' k),
           parent (objects scene' k),
           (location_x (objects scene' k), location_y (objects scene' k)),
           node_to_view 2 (objects scene') k)) <$> scene_nodes scene'
      = [ (1, "n1", "", None, (0, 0)%Z, (0, 0)%Z);
          (2, "n2", "", Some 5, (190, -40)%Z, (-660, 50)%Z);
          (3, "n3", "", Some 5, (450, -40)%Z, (-400, 50)%Z);
          (4, "Attr_n2", "_tmp_attr", Some 5, (40, -40)%Z, (-810, 50)%Z);
          (5, "UNUSED_FRAME", "UNUSED", None, (-850, 90)%Z, (-850, 90)%Z) ].
Proof. eexists. split; [reflexivity|]. by vm_compute. Qed.

(** ** The output nodes of the host *)

Lemma connected_isolated t a k :
  (∀ l, l ∈ links t → from_node l ≠ k ∧ to_node l ≠ k) →
  connected t a k → a = k.
Proof.
  intros Hiso H. apply rtc_inv_r in H as [->|(c & _ & (l & Hl & Hends))]; [done|].
  destruct (Hiso l Hl) as [H1 H2]. destruct Hends as [[_ E]|[E _]]; congruence.
Qed.

(** C1.  The traversal starts from the nodes whose [type] is in
    [output_types], and four of the seven entries of that set are
    class names that no [type] equals.  On the tree where node [A]
    feeds the only output-terminal node, for every output-terminal
    kind of the specification: the tree is well formed and [A] is
    connected to the output; when the kind is a material, world or
    light output the output is found and the traversal returns both
    nodes; when it is a compositor output, a file output, a viewer or
    a group output, no output is found, the traversal returns the
    empty set, and the output-terminal node and [A] are both in the
    unused set. *)
Theorem traverse_from_outputs_output_terminal :
  Forall (λ kind : string * string,
            let o := terminal_node 1 kind in
            let t := g_feeds o in
            kind ∈ output_terminal_kinds ∧
            wf_tree t ∧ o ∈ nodes t ∧ is_output_terminal o = true ∧
            connected t (nid o) 2 ∧
            get_output_nodes t = [o] ∧
            traverse_from_outputs t = {[ 1; 2 ]} ∧
            unused_set t = ∅)
         [ ("ShaderNodeOutputMaterial", "OUTPUT_MATERIAL");
           ("ShaderNodeOutputWorld", "OUTPUT_WORLD");
           ("ShaderNodeOutputLight", "OUTPUT_LIGHT") ] ∧
  Forall (λ kind : string * string,
            let o := terminal_node 1 kind in
            let t := g_feeds o in
            kind ∈ output_terminal_kinds ∧
            wf_tree t ∧ o ∈ nodes t ∧ is_output_terminal o = true ∧
            connected t (nid o) 2 ∧
            get_output_nodes t = [] ∧
            traverse_from_outputs t = ∅ ∧
            (nid o ∉ traverse_from_outputs t) ∧
            nid o ∈ unused_set t ∧
            unused_set t = {[ 1; 2 ]})
         [ ("CompositorNodeComposite", "COMPOSITE");
           ("CompositorNodeOutputFile", "OUTPUT_FILE");
           ("CompositorNodeViewer", "VIEWER");
           ("NodeGroupOutput", "GROUP_OUTPUT") ].
Proof.
  assert (Hc : ∀ o, connected (g_feeds o) (nid o) 2).
  { intros o. apply rtc_once. exists (mkLink 2 0 (nid o) 0).
    split; [left | right; split; reflexivity]. }
  split.
  - repeat apply Forall_cons_2; [..|apply Forall_nil_2]; cbv zeta;
      (split; [apply (bool_decide_unpack _); by vm_compute|]);
      (split; [apply (bool_decide_unpack _); by vm_compute|]);
      (split; [left|]); (split; [by vm_compute|]);
      (split; [apply Hc|]); (split; [by vm_compute|]);
      (split; apply (bool_decide_unpack _); by vm_compute).
  - repeat apply Forall_cons_2; [..|apply Forall_nil_2]; cbv zeta;
      (split; [apply (bool_decide_unpack _); by vm_compute|]);
      (split; [apply (bool_decide_unpack _); by vm_compute|]);
      (split; [left|]); (split; [by vm_compute|]);
      (split; [apply Hc|]); (split; [by vm_compute|]);
      (split; [apply (bool_decide_unpack _); by vm_compute|]);
      (split; [apply (bool_decide_unpack _); by vm_compute|]);
      (split; apply (bool_decide_unpack _); by vm_compute).
Qed.

Lemma g_payload_of_unused o :
  nid o ≠ 12 → spec_unused (g_payload_of o) 12.
Proof.
  intros Hne. split; [right; right; left|].
  intros o' Ho' Hterm Hc. apply connected_isolated in Hc.
  - repeat (apply elem_of_cons in Ho' as [->|Ho']);
      [done | by vm_compute in Hterm | by vm_compute in Hterm | inversion Ho'].
  - intros l Hl. apply list_elem_of_singleton in Hl as ->.
    split; [discriminate | exact Hne].
Qed.

Lemma g_material_of_unused payload :
  spec_unused (g_material_of payload) 2.
Proof.
  split; [right; left|].
  intros o Ho Hterm Hc. apply connected_isolated in Hc.
  - repeat (apply elem_of_cons in Ho as [->|Ho]);
      [by vm_compute in Hc | by vm_compute in Hterm | inversion Ho].
  - intros l Hl. inversion Hl.
Qed.

(** C3.  The payload of a node group ends in a group output, a node
    of type [GROUP_OUTPUT], which [get_output_nodes] does not find.
    In the material [M] the group node [Group] has no link and is
    unused; in its payload the node [m] has no link and is unused.
    [find_unused_nodes] returns the empty dictionary for the payload,
    and the merged dictionary of [find_unused_nodes_recursive] holds
    the record of the group node, stamped [M], and no record of [m].
    Over the same payload ending in a material output instead, the
    merged dictionary holds both records, the one of [m] stamped
    [M.Group]. *)
Theorem find_unused_nodes_recursive_group_output :
  let g := group_instance 2 "Group" g_group_payload in
  let result := find_unused_nodes_recursive (Some g_group_material) "M" true in
  let payload' := g_payload_of (material_output 10) in
  let result' := find_unused_nodes_recursive (Some (g_material_of payload')) "M" true in
  (g ∈ nodes g_group_material ∧ is_group g = true ∧
   node_tree g = Some g_group_payload ∧
   wf_tree g_group_material ∧ wf_tree g_group_payload ∧
   spec_unused g_group_material (nid g) ∧
   nid g ∈ dict_ids (find_unused_nodes (Some g_group_material) "M" true) ∧
   group_output 10 ∈ nodes g_group_payload ∧
   is_output_terminal (group_output 10) = true ∧
   spec_unused g_group_payload 12) ∧
  (get_output_nodes g_group_payload = [] ∧
   find_unused_nodes (Some g_group_payload) (nested_tree_name "M" g) true = [] ∧
   dict_ids result = [nid g] ∧
   dict_get result (nid g) = Some (mkInfo "GROUP" [] (Some []) "M") ∧
   12 ∉ dict_ids result) ∧
  (is_output_terminal (material_output 10) = true ∧
   spec_unused payload' 12 ∧
   dict_ids result' = [2; 12] ∧
   dict_get result' 2 = Some (mkInfo "GROUP" [] (Some []) "M") ∧
   dict_get result' 12 = Some (mkInfo "MATH" [] (Some []) "M.Group")).
Proof.
  cbv zeta. split; [|split].
  - split; [right; left|]. split; [done|]. split; [done|].
    split; [apply (bool_decide_unpack _); by vm_compute|].
    split; [apply (bool_decide_unpack _); by vm_compute|].
    split; [apply g_material_of_unused|].
    split; [apply (bool_decide_unpack _); by vm_compute|].
    split; [left|]. split; [done|]. by apply g_payload_of_unused.
  - split; [by vm_compute|]. split; [by vm_compute|]. split; [by vm_compute|].
    split; [by vm_compute|]. apply (bool_decide_unpack _). by vm_compute.
  - split; [done|]. split; [by apply g_payload_of_unused|].
    split; [by vm_compute|]. split; by vm_compute.
Qed.

(** ** Records that are not well formed on entry *)

(** C10, as stated, fails: the claim speaks of every input map of
    records.  A record that enters with a name listed twice among its
    materials, and with an output-connected name that is not among
    its materials, leaves [collect_group_usage] with both defects: the
    function only appends the names of the materials it visits. *)
Lemma collect_group_usage_illformed_counterexample :
  let g := nd 2 "Group" "GROUP" (Some g_payload) 0 1 in
  let unused_dict := [ (g, mkInfo "GROUP" ["X"; "X"] (Some ["Z"]) "T") ] in
  let result := collect_group_usage unused_dict [mat_A; mat_B] in
  result = [ (g, mkInfo "GROUP" ["X"; "X"; "A"; "B"] (Some ["Z"; "B"]) "T") ] ∧
  ¬ NoDup ["X"; "X"; "A"; "B"] ∧
  ¬ (["Z"; "B"] ⊆ ["X"; "X"; "A"; "B"]).
Proof.
  cbv zeta. split; [by vm_compute|]. split.
  - intros H. apply NoDup_cons in H as [H _]. apply H. left.
  - intros H. specialize (H "Z"). 
    assert (Hz : "Z" ∈ ["Z"; "B"]) by left.
    apply H in Hz. revert Hz. apply (bool_decide_unpack _). by vm_compute.
Qed.

(** ** The names of the attribute nodes in the layout, continued *)

Lemma replace_Attr_prefixed nm :
  replace_Attr ("Attr_" +:+ nm) = drop_pattern "Attr_" 0 nm.
Proof.
  assert (Hp : ∀ t, String.prefix "" t = true) by (by intros []).
  unfold replace_Attr. simpl. rewrite Hp. by simpl.
Qed.

(** X23.  In [layout_nodes_grid], a node labelled [_tmp_attr] whose
    name in the tree is [Attr_] followed by [nm]: when [nm] does not
    contain [Attr_], its partner is the first regular node of the
    list named [nm], and it ends 150 to the left of that node, at its
    height; when [nm] contains [Attr_], no node named [nm] is its
    partner, because [str.replace] drops every occurrence. *)
Theorem layout_nodes_grid_pairing_name (s : Store) (nodes : list node_id)
    (cols : nat) (gap_x gap_y : Z) (s' : Store) (a : node_id) (nm : string) :
  layout_nodes_grid s nodes cols gap_x gap_y = Returned s' →
  a ∈ nodes →
  is_tmp_attr s a = true →
  name (s a) = "Attr_" +:+ nm →
  (occurs "Attr_" nm = false →
   parent_of s nodes a
     = snd <$> list_find (λ p, name (s p) = nm) (regular_nodes s nodes) ∧
   ∀ p, parent_of s nodes a = Some p →
        location_x (s' a) = (location_x (s' p) - 150)%Z ∧
        location_y (s' a) = location_y (s' p)) ∧
  (occurs "Attr_" nm = true →
   ∀ p, name (s p) = nm → parent_of s nodes a ≠ Some p).
Proof.
  intros Hret Ha Hattr Hname.
  pose proof (layout_attribute_cases s nodes cols gap_x gap_y s' a Hret Ha Hattr)
    as Hcases.
  assert (E : replace_Attr (name (s a)) = drop_pattern "Attr_" 0 nm)
    by (rewrite Hname; apply replace_Attr_prefixed).
  split.
  - intros Hocc. split.
    + unfold parent_of. rewrite E. by rewrite (drop_pattern_absent _ _ Hocc).
    + intros p Hp. rewrite Hp in Hcases. tauto.
  - intros Hocc p Hnm Hp. rewrite Hp in Hcases.
    destruct Hcases as (_ & _ & Hpn & _). rewrite E, Hnm in Hpn.
    apply drop_pattern_present in Hocc; [|done]. rewrite <- Hpn in Hocc. lia.
Qed.

Lemma layout_nodes_grid_pairing_name_witness :
  ∃ s', layout_nodes_grid s_layout [1; 2; 3; 4] 2 120 80 = Returned s' ∧
        parent_of s_layout [1; 2; 3; 4] 4 = Some 2 ∧
        location_x (s' 4) = Z.sub (location_x (s' 2)) 150 ∧
        location_y (s' 4) = location_y (s' 2).
Proof.
  eexists. split; [reflexivity|].
  assert (Ha : 4 ∈ [1; 2; 3; 4]) by (apply (bool_decide_unpack _); by vm_compute).
  assert (Hn : name (s_layout 4) = "Attr_" +:+ "n2") by reflexivity.
  destruct (layout_nodes_grid_pairing_name s_layout [1; 2; 3; 4] 2 120 80 _ 4 "n2"
              eq_refl Ha eq_refl Hn) as [H _].
  destruct (H eq_refl) as [Hp Hloc].
  assert (Hp2 : parent_of s_layout [1; 2; 3; 4] 4 = Some 2) by (rewrite Hp; reflexivity).
  split; [exact Hp2|]. exact (Hloc 2 Hp2).
Defined.

(** The name [Attr_Attr_x] of the attribute node made for a node named
    [Attr_x] is reduced to [x]: the node is paired with the regular
    node named [x], when there is one, and never with [Attr_x]. *)
Example replace_Attr_nested :
  replace_Attr ("Attr_" +:+ "Attr_x") = "x" ∧ occurs "Attr_" "Attr_x" = true.
Proof. split; reflexivity. Qed.
